(** * A shallow embedding of the CSP engine of [sudokuCSP.py]

    The Python class [CSP] (variables, domains, binary constraints given as
    materialised lists of legal value pairs, AC-3 propagation and a
    backtracking search that copies the domains for every candidate value)
    is translated function by function.  Python exceptions become the
    [Raise] outcome, [while] loops run on a fuel that is shown sufficient,
    and the two counters of the class are fields of the [CSP] record that
    is threaded through the search.

    The engine is embedded twice.  In [Section Engine] an assignment is a
    value, and [copy.deepcopy] is the identity: this is the embedding the
    functional properties are proved on.  In [Module Heap] an assignment
    is a dictionary object that binds list objects in a store, [revise]
    deletes in place and [copy.deepcopy] allocates: this is the embedding
    branch isolation is proved on.  [Refinement.backtracking_search_refines]
    shows that the two compute the same.

    The methods that build a network ([add_variable],
    [add_constraint_one_way], [add_all_different_constraint]) and the two
    functions around the class, [create_sudoku_csp] and
    [print_sudoku_solution] in [Module Sudoku], are embedded as well: the
    last part of the file shows that the networks they build are networks
    the search is correct on, and what is printed for them. *)

From Stdlib Require Import ZArith Lia Ascii DecimalString.
From stdpp Require Import base tactics option list strings.

(** ** Outcomes of a call *)

(** The exceptions the engine can raise: a missing dictionary key and
    [list.remove] of a value that is not in the list. *)
Inductive exn : Type :=
| KeyError
| ValueError.

(** A call returns a value, raises, or (for the loops, which are run on a
    fuel) is cut off.  [backtracking_search_total] and [inference_total]
    show that the fuel the model supplies is never exhausted. *)
Inductive result (A : Type) : Type :=
| Ret (a : A)
| Raise (e : exn)
| OutOfFuel.

Arguments Ret {A} a.
Arguments Raise {A} e.
Arguments OutOfFuel {A}.

#[global] Instance result_ret : MRet result := fun A a => Ret a.
#[global] Instance result_bind : MBind result := fun A B f m =>
  match m with
  | Ret a => f a
  | Raise e => Raise e
  | OutOfFuel => OutOfFuel
  end.

(** ** Names and dictionaries *)

(** A variable name is a Python object: a value [name_val] (what [==] and
    hashing look at, so what dictionary lookup looks at) and an identity
    [name_obj] (what [is] looks at).  Two names with the same value can be
    different objects: the Sudoku front end formats the name of a cell
    anew for every row, column and box it is put in. *)
Record name (K : Type) : Type := Name { name_val : K; name_obj : nat }.

Arguments Name {K} name_val name_obj.
Arguments name_val {K} n.
Arguments name_obj {K} n.

#[global] Instance name_eq_dec {K} `{!EqDecision K} : EqDecision (name K).
Proof. solve_decision. Defined.

(** A dictionary keyed by names, in iteration order.  Lookup and update go
    by the value of the key; an update of a key that is present keeps the
    key object and the position, an update of a new key appends.  Python 2
    iterates a dictionary in an order of its own making: the general
    statements below hold for every order, and the examples that depend on
    the order are given in both. *)
Definition dict (K X : Type) : Type := list (name K * X).

Section Engine.
Context {K V : Type} `{!EqDecision K, !EqDecision V}.

#[local] Abbreviation name := (name K).
#[local] Abbreviation dict := (dict K).

(** [k in d], on the value of the key. *)
Fixpoint dict_lookup {X} (d : dict X) (k : K) : option X :=
  match d with
  | [] => None
  | (n, x) :: d' => if decide (name_val n = k) then Some x else dict_lookup d' k
  end.

(** [d[n]]: raises [KeyError] when the key is missing. *)
Definition getitem {X} (d : dict X) (n : name) : result X :=
  match dict_lookup d (name_val n) with
  | Some x => Ret x
  | None => Raise KeyError
  end.

(** [d[n] = x]. *)
Fixpoint setitem {X} (d : dict X) (n : name) (x : X) : dict X :=
  match d with
  | [] => [(n, x)]
  | (n', x') :: d' =>
      if decide (name_val n' = name_val n) then (n', x) :: d'
      else (n', x') :: setitem d' n x
  end.

(** [n in d]. *)
Definition contains {X} (d : dict X) (n : name) : bool :=
  match dict_lookup d (name_val n) with
  | Some _ => true
  | None => false
  end.

(** [for k in d]: the key objects in iteration order. *)
Definition keys {X} (d : dict X) : list name := d.*1.

(** ** The class [CSP] *)

(** An assignment maps every variable to the list of its legal values. *)
Definition assignment : Type := dict (list V).

Record CSP : Type := mkCSP {
  variables : list name;
  domains : assignment;
  constraints : dict (dict (list (V * V)));
  backtracking_call_counter : nat;
  backtracking_fail_counter : nat
}.

(** [CSP.__init__]. *)
Definition CSP_init : CSP := mkCSP [] [] [] 0 0.

Definition add_variable (self : CSP) (n : name) (domain : list V) : CSP :=
  mkCSP (variables self ++ [n])
        (setitem (domains self) n domain)
        (setitem (constraints self) n [])
        (backtracking_call_counter self)
        (backtracking_fail_counter self).

(** [itertools.product(a, b)]: the first component varies slowest. *)
Definition get_all_possible_pairs {A B} (a : list A) (b : list B) : list (A * B) :=
  list_prod a b.

Definition get_all_arcs (self : CSP) : list (name * name) :=
  flat_map (fun e => map (fun j => (e.1, j)) (keys e.2)) (constraints self).

Definition get_all_neighboring_arcs (self : CSP) (var : name)
  : result (list (name * name)) :=
  ci ← getitem (constraints self) var;
  Ret (map (fun i => (i, var)) (keys ci)).

Definition set_constraints (self : CSP) (c : dict (dict (list (V * V)))) : CSP :=
  mkCSP (variables self) (domains self) c
        (backtracking_call_counter self) (backtracking_fail_counter self).

(** [filter_function] is called on the two components of a pair. *)
Definition add_constraint_one_way (self : CSP) (i j : name)
    (filter_function : V → V → bool) : result CSP :=
  ci ← getitem (constraints self) i;
  ci' ← (if contains ci j then Ret ci
         else
           di ← getitem (domains self) i;
           dj ← getitem (domains self) j;
           Ret (setitem ci j (get_all_possible_pairs di dj)));
  pairs ← getitem ci' j;
  Ret (set_constraints self
         (setitem (constraints self) i
            (setitem ci' j
               (List.filter (fun value_pair => filter_function value_pair.1 value_pair.2)
                            pairs)))).

Fixpoint add_all_different_loop (self : CSP) (pairs : list (name * name)) : result CSP :=
  match pairs with
  | [] => Ret self
  | (i, j) :: rest =>
      if decide (name_val i = name_val j) then add_all_different_loop self rest
      else
        self' ← add_constraint_one_way self i j (fun x y => bool_decide (x ≠ y));
        add_all_different_loop self' rest
  end.

Definition add_all_different_constraint (self : CSP) (vars : list name) : result CSP :=
  add_all_different_loop self (get_all_possible_pairs vars vars).

(** ** Revise *)

(** The inner loop of [revise]: is there a [jValue] in [dj] with
    [(iValue, jValue)] in [self.constraints[i][j]]?  The constraint table is
    looked up once per [jValue], so never when [dj] is empty. *)
Fixpoint revise_possible (self : CSP) (i j : name) (iValue : V) (dj : list V)
  : result bool :=
  match dj with
  | [] => Ret false
  | jValue :: rest =>
      ci ← getitem (constraints self) i;
      cij ← getitem ci j;
      if bool_decide ((iValue, jValue) ∈ cij) then Ret true
      else revise_possible self i j iValue rest
  end.

(** The outer loop of [revise]: the values of [di] without support, in
    order.  [assignment[j]] is looked up once per [iValue]. *)
Fixpoint revise_scan (self : CSP) (a : assignment) (i j : name) (di : list V)
  : result (list V) :=
  match di with
  | [] => Ret []
  | iValue :: rest =>
      dj ← getitem a j;
      possibleValue ← revise_possible self i j iValue dj;
      inconsistencies ← revise_scan self a i j rest;
      Ret (if possibleValue : bool then inconsistencies else iValue :: inconsistencies)
  end.

(** [l.remove(x)]: drops the first element equal to [x]; [ValueError] when
    there is none. *)
Fixpoint list_remove_first (x : V) (l : list V) : result (list V) :=
  match l with
  | [] => Raise ValueError
  | y :: l' =>
      if decide (y = x) then Ret l'
      else l'' ← list_remove_first x l'; Ret (y :: l'')
  end.

(** The second loop of [revise]: [assignment[i].remove(value)] for every
    marked value.  The list object of [i] is updated in place. *)
Fixpoint revise_delete (a : assignment) (i : name) (inconsistencies : list V)
  : result assignment :=
  match inconsistencies with
  | [] => Ret a
  | value :: rest =>
      di ← getitem a i;
      di' ← list_remove_first value di;
      revise_delete (setitem a i di') i rest
  end.

(** [revise] returns whether a value was deleted; the assignment it has
    updated in place is returned with it. *)
Definition revise (self : CSP) (a : assignment) (i j : name)
  : result (assignment * bool) :=
  di ← getitem a i;
  inconsistencies ← revise_scan self a i j di;
  a' ← revise_delete a i inconsistencies;
  Ret (a', bool_decide (0 < length inconsistencies)).

(** ** AC-3 *)

(** [queue.pop()]: the last element.  Only called on a non-empty queue. *)
Definition queue_pop {A} (queue : list A) : option (list A * A) :=
  match last queue with
  | Some x => Some (removelast queue, x)
  | None => None
  end.

(** The [for] loop that re-queues the arcs into [xi]: the comparison with
    [xj] is [is not], on the identity of the name objects. *)
Definition requeue (nb : list (name * name)) (xi xj : name) : list (name * name) :=
  flat_map (fun arc => if decide (arc.1 = xj) then [] else [(arc.1, xi)]) nb.

(** One turn of the [while] loop, on a non-empty queue: either the loop
    goes on with an assignment and a queue ([inl]) or [inference] returns
    ([inr], with the assignment and the queue as they are left).  The test
    [len(assignment[xi]) is 0] is an identity test on a small integer,
    which CPython decides as equality. *)
Definition inference_step (self : CSP) (a : assignment) (queue : list (name * name))
    (arc : name * name)
  : result (assignment * list (name * name) + assignment * list (name * name) * bool) :=
  let '(xi, xj) := arc in
  '(a', revised) ← revise self a xi xj;
  if revised : bool then
    dxi ← getitem a' xi;
    if bool_decide (length dxi = 0) then Ret (inr (a', queue, false))
    else
      nb ← get_all_neighboring_arcs self xi;
      Ret (inl (a', queue ++ requeue nb xi xj))
  else Ret (inl (a', queue)).

Fixpoint inference_loop (fuel : nat) (self : CSP) (a : assignment)
    (queue : list (name * name)) : result (assignment * list (name * name) * bool) :=
  match queue_pop queue with
  | None => Ret (a, queue, true)
  | Some (queue', arc) =>
      match fuel with
      | 0 => OutOfFuel
      | S fuel' =>
          next ← inference_step self a queue' arc;
          match next with
          | inl (a', queue'') => inference_loop fuel' self a' queue''
          | inr r => Ret r
          end
      end
  end.

(** The number of values left in all domains. *)
Definition total_size (a : assignment) : nat := sum_list (map (fun e => length e.2) a).

(** The number of registered arcs. *)
Definition arc_count (self : CSP) : nat :=
  sum_list (map (fun e => length e.2) (constraints self)).

(** Turns of the loop that [inference] can take: a turn either shortens the
    queue or deletes a value and adds at most [arc_count] arcs. *)
Definition inference_fuel (self : CSP) (a : assignment) (queue : list (name * name)) : nat :=
  total_size a * S (arc_count self) + length queue.

(** [inference]: the boolean it returns, with the assignment and the queue
    it has updated in place. *)
Definition inference (self : CSP) (a : assignment) (queue : list (name * name))
  : result (assignment * list (name * name) * bool) :=
  inference_loop (inference_fuel self a queue) self a queue.

(** ** Backtracking search *)

Definition assignment_done (a : assignment) : bool :=
  forallb (fun key =>
             match dict_lookup a (name_val key) with
             | Some d => negb (bool_decide (1 < length d))
             | None => true
             end) (keys a).

(** Returns [None] (Python's [None]) when the loop ends without a hit. *)
Definition select_unassigned_variable (a : assignment) : option name :=
  List.find (fun key =>
               match dict_lookup a (name_val key) with
               | Some d => bool_decide (1 < length d)
               | None => false
               end) (keys a).

Definition count_call (self : CSP) : CSP :=
  mkCSP (variables self) (domains self) (constraints self)
        (S (backtracking_call_counter self)) (backtracking_fail_counter self).

Definition count_fail (self : CSP) : CSP :=
  mkCSP (variables self) (domains self) (constraints self)
        (backtracking_call_counter self) (S (backtracking_fail_counter self)).

(** What [backtrack] returns: an assignment ([Some]) or [False] ([None]). *)
Definition search_result : Type := option assignment.

(** [if result:] an assignment is true when it is not the empty dictionary. *)
Definition truthy (r : search_result) : bool :=
  match r with
  | Some (_ :: _) => true
  | _ => false
  end.

(** The [for] loop of [backtrack] over the candidate values of [variable];
    [rec] is the recursive call.  [copy.deepcopy] is the identity on
    values; [Heap.backtrack] below keeps the objects apart. *)
Fixpoint backtrack_loop (rec : CSP → assignment → result (CSP * search_result))
    (self : CSP) (a : assignment) (variable : name) (candidates : list V)
  : result (CSP * search_result) :=
  match candidates with
  | [] => Ret (count_fail self, None)
  | domain :: rest =>
      let new_assignment := setitem a variable [domain] in
      arcs ← get_all_neighboring_arcs self variable;
      '(new_assignment, _, ok) ← inference self new_assignment arcs;
      if ok : bool then
        '(self', r) ← rec self new_assignment;
        if truthy r then Ret (self', r)
        else backtrack_loop rec self' a variable rest
      else backtrack_loop rec self a variable rest
  end.

Fixpoint backtrack_fuel (fuel : nat) (self : CSP) (a : assignment)
  : result (CSP * search_result) :=
  match fuel with
  | 0 => OutOfFuel
  | S fuel' =>
      let self := count_call self in
      if assignment_done a then Ret (self, Some a)
      else
        match select_unassigned_variable a with
        | None => Raise KeyError
        | Some variable =>
            candidates ← getitem a variable;
            backtrack_loop (backtrack_fuel fuel') self a variable candidates
        end
  end.

(** The body of the loop of [backtrack] for one candidate value, as a call of
    its own: what the loop gets back from it is the result of the recursive
    call, or [False] when the propagation has failed.
    [backtrack_loop_branch] shows that the loop is this call, repeated. *)
Definition branch (rec : CSP → assignment → result (CSP * search_result))
    (self : CSP) (a : assignment) (variable : name) (domain : V)
  : result (CSP * search_result) :=
  arcs ← get_all_neighboring_arcs self variable;
  '(new_assignment, _, ok) ← inference self (setitem a variable [domain]) arcs;
  if ok : bool then rec self new_assignment else Ret (self, None).

(** Every recursive call is on an assignment with fewer values. *)
Definition backtrack (self : CSP) (a : assignment) : result (CSP * search_result) :=
  backtrack_fuel (S (total_size a)) self a.

Definition backtracking_search (self : CSP) : result (CSP * search_result) :=
  let a := domains self in
  '(a, _, _) ← inference self a (get_all_arcs self);
  backtrack self a.

(** ** Vocabulary of the statements *)

(** The current domain of the variable with value [k]; empty when the
    variable is not in the assignment. *)
Definition domain_of (a : assignment) (k : K) : list V :=
  default [] (dict_lookup a k).

(** [self.constraints[i][j]], when both keys are present. *)
Definition table (self : CSP) (i j : K) : option (list (V * V)) :=
  ci ← dict_lookup (constraints self) i; dict_lookup ci j.

(** The legal pairs of the arc [(i, j)]; none when it is not registered. *)
Definition allowed (self : CSP) (i j : K) : list (V * V) :=
  default [] (table self i j).

(** [x], a value of [i], has a partner in the current domain of [j]. *)
Definition supported (self : CSP) (a : assignment) (i j : K) (x : V) : bool :=
  existsb (fun y => bool_decide ((x, y) ∈ allowed self i j)) (domain_of a j).

(** Revising the arc [(i, j)] has nothing to do and nothing to look up that
    is missing: [i] is in the assignment and either has no value left, or
    [j] is in the assignment, the arc is registered and every value of [i]
    is supported. *)
Definition stable (self : CSP) (a : assignment) (i j : K) : Prop :=
  is_Some (dict_lookup a i) ∧
  (domain_of a i = [] ∨
   (is_Some (dict_lookup a j) ∧ is_Some (table self i j) ∧
    ∀ x, x ∈ domain_of a i → supported self a i j x = true)).

(** Every registered arc has its reverse registered, with the converse
    relation: what [add_constraint_one_way] asks its caller to ensure. *)
Definition network_two_way (self : CSP) : bool :=
  forallb (fun ei =>
    forallb (fun ej =>
      match table self (name_val ej.1) (name_val ei.1) with
      | Some cji => forallb (fun p => bool_decide ((p.2, p.1) ∈ cji)) ej.2
      | None => false
      end) ei.2) (constraints self).

(** No variable of the assignment has an empty domain. *)
Definition no_wipeout (a : assignment) : bool :=
  forallb (fun e => negb (bool_decide (length e.2 = 0))) a.

(** The arc [(i, j)], by the values of its names, is in the queue. *)
Definition queued (queue : list (name * name)) (i j : K) : Prop :=
  ∃ n m, (n, m) ∈ queue ∧ name_val n = i ∧ name_val m = j.

(** The AC-3 invariant over a set [W] of arcs: an arc of [W] that is not
    waiting in the queue is stable. *)
Definition settled (self : CSP) (a : assignment) (queue : list (name * name))
    (W : K → K → Prop) : Prop :=
  ∀ k l, W k l → stable self a k l ∨ queued queue k l.

(** [a'] has the keys of [a] and no value that [a] does not have. *)
Definition shrinks (a a' : assignment) : Prop :=
  keys a' = keys a ∧ ∀ k x, x ∈ domain_of a' k → x ∈ domain_of a k.

(** The state [backtrack] works on between two propagations: no domain is
    empty and every registered arc is stable. *)
Definition consistent (self : CSP) (a : assignment) : Prop :=
  no_wipeout a = true ∧ ∀ k l, is_Some (table self k l) → stable self a k l.

(** [sol] is a complete consistent assignment below [a]. *)
Definition solved (self : CSP) (a sol : assignment) : Prop :=
  shrinks a sol ∧ assignment_done sol = true ∧ consistent self sol.

(** Every name of a registered arc is a variable of [a], and every
    variable of [a] has a constraint table: what [add_variable] and
    [add_constraint_one_way] see to. *)
Definition declared (self : CSP) (a : assignment) : bool :=
  forallb (fun ei => contains a ei.1 && forallb (fun ej => contains a ej.1) ei.2)
          (constraints self)
  && forallb (fun e => contains (constraints self) e.1) a.

Definition well_declared (self : CSP) (a : assignment) : Prop :=
  (∀ k l, is_Some (table self k l) →
          is_Some (dict_lookup a k) ∧ is_Some (dict_lookup a l)) ∧
  (∀ k, is_Some (dict_lookup a k) → is_Some (dict_lookup (constraints self) k)).

(** Every arc of the queue is registered. *)
Definition all_registered (self : CSP) (queue : list (name * name)) : Prop :=
  ∀ n m, (n, m) ∈ queue → is_Some (table self (name_val n) (name_val m)).

(** [sol] picks for every variable of [a] one of its values. *)
Definition within (a sol : assignment) : Prop :=
  ∀ k d, dict_lookup a k = Some d → ∃ x, dict_lookup sol k = Some [x] ∧ x ∈ d.

(** The values [sol] picks are legal on every registered arc. *)
Definition respects (self : CSP) (sol : assignment) : Prop :=
  ∀ k l x y, is_Some (table self k l) →
    dict_lookup sol k = Some [x] → dict_lookup sol l = Some [y] →
    (x, y) ∈ allowed self k l.

End Engine.

(** ** Example networks *)

(** Networks over string names and number values, built with the methods
    of the class as a client would. *)
Definition A : name string := Name "A"%string 0.
Definition B : name string := Name "B"%string 1.
Definition X : name string := Name "X"%string 2.
Definition Y : name string := Name "Y"%string 3.
Definition Z : name string := Name "Z"%string 4.

(** The network a construction has built ([CSP_init] if it raised). *)
Definition built (r : result (@CSP string nat)) : @CSP string nat :=
  match r with
  | Ret self => self
  | _ => CSP_init
  end.

(** Two variables with the one value [1] that must differ: no solution.
    [two_ones] registers [A] first, [two_ones'] registers [B] first, which
    covers both iteration orders of the dictionaries. *)
Definition two_ones : @CSP string nat :=
  built (add_all_different_constraint
           (add_variable (add_variable CSP_init A [1]) B [1]) [A; B]).

Definition two_ones' : @CSP string nat :=
  built (add_all_different_constraint
           (add_variable (add_variable CSP_init B [1]) A [1]) [B; A]).

(** [A != B] registered from [A] to [B] only. *)
Definition one_way : @CSP string nat :=
  built (add_constraint_one_way
           (add_variable (add_variable CSP_init A [1]) B [1; 2]) A B
           (fun x y => bool_decide (x ≠ y))).

(** Both directions registered, but not with converse relations: from [A]
    to [B] only [(1, 1)] is legal, from [B] to [A] every equal pair. *)
Definition skewed : @CSP string nat :=
  built (self ← add_constraint_one_way
                  (add_variable (add_variable CSP_init A [1; 2]) B [1; 2]) A B
                  (fun x y => bool_decide (x = 1 ∧ y = 1));
         add_constraint_one_way self B A (fun x y => bool_decide (x = y))).

(** [X], [Y], [Z] over [1, 2, 3], all different, and [X < Y] registered in
    both directions. *)
Definition xyz : @CSP string nat :=
  built (self ← add_all_different_constraint
                  (add_variable (add_variable (add_variable CSP_init X [1; 2; 3])
                                              Y [1; 2; 3]) Z [1; 2; 3])
                  [X; Y; Z];
         self ← add_constraint_one_way self X Y (fun x y => bool_decide (x < y));
         add_constraint_one_way self Y X (fun x y => bool_decide (y < x))).

(** [X], [Y], [Z] over [1, 2], all different: every value of every arc has
    a partner, and there is no solution. *)
Definition pigeons : @CSP string nat :=
  built (add_all_different_constraint
           (add_variable (add_variable (add_variable CSP_init X [1; 2]) Y [1; 2]) Z [1; 2])
           [X; Y; Z]).


(** ** The search on a heap of objects *)

(** The definitions above pass assignments by value, which is what the
    program does only because [backtrack] copies before it writes.  Here
    the assignments are what they are in Python: dictionary objects that
    bind names to list objects, [revise] deletes from the list object in
    place, [copy.deepcopy] allocates, and a store of objects is threaded
    through every call.  The network (constraint tables and counters) is
    only read and counted on by the search and stays a value. *)
Module Heap.
Section HeapEngine.
Context {K V : Type} `{!EqDecision K, !EqDecision V}.
#[local] Abbreviation name := (name K).
#[local] Abbreviation CSP := (@CSP K V).

(** A reference is the index of an object in the store. *)
Definition loc : Type := nat.

(** The list objects and the dictionary objects allocated so far.  A
    reference to no object does not arise from the program; it reads as
    the empty object and writing to it does nothing. *)
Record heap : Type := mkHeap {
  lists : list (list V);
  dicts : list (dict K loc)
}.

(** A computation on the store: the store it leaves, also when it raises. *)
Definition M (A : Type) : Type := heap → heap * result A.

Definition ret {A} (x : A) : M A := fun h => (h, Ret x).

Definition bind {A B} (m : M A) (f : A → M B) : M B := fun h =>
  match m h with
  | (h', Ret x) => f x h'
  | (h', Raise e) => (h', Raise e)
  | (h', OutOfFuel) => (h', OutOfFuel)
  end.

Definition lift {A} (r : result A) : M A := fun h => (h, r).

#[local] Instance heap_ret : MRet M := @ret.
#[local] Instance heap_bind : MBind M := fun A B f m => bind m f.

(** The object at a reference. *)
Definition list_at (h : heap) (r : loc) : list V :=
  match lists h !! r with Some l => l | None => [] end.

Definition dict_at (h : heap) (r : loc) : dict K loc :=
  match dicts h !! r with Some d => d | None => [] end.

Definition read_list (r : loc) : M (list V) :=
  fun h => (h, Ret (list_at h r)).

Definition write_list (r : loc) (l : list V) : M unit :=
  fun h => (mkHeap (<[r := l]> (lists h)) (dicts h), Ret tt).

Definition alloc_list (l : list V) : M loc :=
  fun h => (mkHeap (lists h ++ [l]) (dicts h), Ret (length (lists h))).

Definition read_dict (r : loc) : M (dict K loc) :=
  fun h => (h, Ret (dict_at h r)).

Definition write_dict (r : loc) (d : dict K loc) : M unit :=
  fun h => (mkHeap (lists h) (<[r := d]> (dicts h)), Ret tt).

Definition alloc_dict (d : dict K loc) : M loc :=
  fun h => (mkHeap (lists h) (dicts h ++ [d]), Ret (length (dicts h))).

(** [assignment[n]]: the list object bound to [n]. *)
Definition getitem_ref (asg : loc) (n : name) : M loc :=
  d ← read_dict asg; lift (getitem d n).

(** The values of [assignment[n]]. *)
Definition getitem_list (asg : loc) (n : name) : M (list V) :=
  r ← getitem_ref asg n; read_list r.

(** [assignment[n] = [x]]: a new list object is bound to [n]. *)
Definition setitem_new (asg : loc) (n : name) (l : list V) : M unit :=
  r ← alloc_list l;
  d ← read_dict asg;
  write_dict asg (setitem d n r).

(** The values of the list objects bound in a dictionary, key by key. *)
Fixpoint read_entries (d : dict K loc) : M (@assignment K V) :=
  match d with
  | [] => ret []
  | (n, r) :: d' => l ← read_list r; a ← read_entries d'; ret ((n, l) :: a)
  end.

(** The assignment a dictionary object stands for. *)
Definition read_assignment (asg : loc) : M (@assignment K V) :=
  d ← read_dict asg; read_entries d.

(** [copy.deepcopy] of the entries: names are copied by reference (strings
    are atomic), every list object is copied to a new one, once: [memo]
    maps the list objects already copied to their copies. *)
Fixpoint deepcopy_entries (memo : list (loc * loc)) (d : dict K loc) : M (dict K loc) :=
  match d with
  | [] => ret []
  | (n, r) :: d' =>
      match list_find (fun m => m.1 = r) memo with
      | Some (_, (_, r')) => d'' ← deepcopy_entries memo d'; ret ((n, r') :: d'')
      | None =>
          l ← read_list r;
          r' ← alloc_list l;
          d'' ← deepcopy_entries ((r, r') :: memo) d';
          ret ((n, r') :: d'')
      end
  end.

(** [copy.deepcopy(assignment)]. *)
Definition deepcopy (asg : loc) : M loc :=
  d ← read_dict asg;
  d' ← deepcopy_entries [] d;
  alloc_dict d'.

(** [copy.deepcopy(self.domains)]: the declared domains, as new objects. *)
Fixpoint store_entries (a : @assignment K V) : M (dict K loc) :=
  match a with
  | [] => ret []
  | (n, l) :: a' => r ← alloc_list l; d ← store_entries a'; ret ((n, r) :: d)
  end.

Definition store_assignment (a : @assignment K V) : M loc :=
  d ← store_entries a; alloc_dict d.

(** [revise]: the scan reads, the deletion writes the list object of [i]. *)
Fixpoint revise_scan (self : CSP) (asg : loc) (i j : name) (di : list V) : M (list V) :=
  match di with
  | [] => ret []
  | iValue :: rest =>
      dj ← getitem_list asg j;
      possibleValue ← lift (revise_possible self i j iValue dj);
      inconsistencies ← revise_scan self asg i j rest;
      ret (if possibleValue : bool then inconsistencies else iValue :: inconsistencies)
  end.

Fixpoint revise_delete (asg : loc) (i : name) (inconsistencies : list V) : M unit :=
  match inconsistencies with
  | [] => ret tt
  | value :: rest =>
      r ← getitem_ref asg i;
      l ← read_list r;
      l' ← lift (list_remove_first value l);
      _ ← write_list r l';
      revise_delete asg i rest
  end.

Definition revise (self : CSP) (asg : loc) (i j : name) : M bool :=
  di ← getitem_list asg i;
  inconsistencies ← revise_scan self asg i j di;
  _ ← revise_delete asg i inconsistencies;
  ret (bool_decide (0 < length inconsistencies)).

(** One turn of the loop of [inference]: the queue to go on with, or the
    value to return. *)
Definition inference_step (self : CSP) (asg : loc) (queue : list (name * name))
    (arc : name * name) : M (list (name * name) + bool) :=
  revised ← revise self asg arc.1 arc.2;
  if revised : bool then
    dxi ← getitem_list asg arc.1;
    if bool_decide (length dxi = 0) then ret (inr false)
    else
      nb ← lift (get_all_neighboring_arcs self arc.1);
      ret (inl (queue ++ requeue nb arc.1 arc.2))
  else ret (inl queue).

Fixpoint inference_loop (fuel : nat) (self : CSP) (asg : loc)
    (queue : list (name * name)) : M bool :=
  match queue_pop queue with
  | None => ret true
  | Some (queue', arc) =>
      match fuel with
      | 0 => lift OutOfFuel
      | S fuel' =>
          next ← inference_step self asg queue' arc;
          match next with
          | inl queue'' => inference_loop fuel' self asg queue''
          | inr r => ret r
          end
      end
  end.

Definition inference (self : CSP) (asg : loc) (queue : list (name * name)) : M bool :=
  a ← read_assignment asg;
  inference_loop (inference_fuel self a queue) self asg queue.

(** [if result:] on what [backtrack] returns: a dictionary object or
    [False]. *)
Definition truthy (r : option loc) : M bool :=
  match r with
  | None => ret false
  | Some res =>
      d ← read_dict res;
      ret (match d with [] => false | _ :: _ => true end)
  end.

(** The body of the [for] loop of [backtrack] for one candidate value, up
    to the recursive call [rec]: the copy, the forced value, the
    propagation, and the call when the propagation has succeeded. *)
Definition branch (rec : CSP → loc → M (CSP * option loc)) (self : CSP) (asg : loc)
    (variable : name) (domain : V) : M (CSP * option loc) :=
  new_assignment ← deepcopy asg;
  _ ← setitem_new new_assignment variable [domain];
  arcs ← lift (get_all_neighboring_arcs self variable);
  ok ← inference self new_assignment arcs;
  if ok : bool then rec self new_assignment else ret (self, None).

(** The [for] loop over the list object [cands] of the candidate values.
    As Python's list iterator does, every turn reads the element at the
    next index from the object as it is then.  [turns] is the length of
    the list when the loop starts. *)
Fixpoint backtrack_loop (rec : CSP → loc → M (CSP * option loc)) (turns : nat)
    (self : CSP) (asg : loc) (variable : name) (cands : loc) (idx : nat)
  : M (CSP * option loc) :=
  l ← read_list cands;
  match l !! idx with
  | None => ret (count_fail self, None)
  | Some domain =>
      match turns with
      | 0 => lift OutOfFuel
      | S turns' =>
          res ← branch rec self asg variable domain;
          t ← truthy res.2;
          if t : bool then ret res
          else backtrack_loop rec turns' res.1 asg variable cands (S idx)
      end
  end.

Fixpoint backtrack_fuel (fuel : nat) (self : CSP) (asg : loc) : M (CSP * option loc) :=
  match fuel with
  | 0 => lift OutOfFuel
  | S fuel' =>
      let self := count_call self in
      a ← read_assignment asg;
      if assignment_done a then ret (self, Some asg)
      else
        match select_unassigned_variable a with
        | None => lift (Raise KeyError)
        | Some variable =>
            cands ← getitem_ref asg variable;
            l ← read_list cands;
            backtrack_loop (backtrack_fuel fuel') (length l) self asg variable cands 0
        end
  end.

Definition backtrack (self : CSP) (asg : loc) : M (CSP * option loc) :=
  a ← read_assignment asg;
  backtrack_fuel (S (total_size a)) self asg.

Definition backtracking_search (self : CSP) : M (CSP * option loc) :=
  asg ← store_assignment (domains self);
  _ ← inference self asg (get_all_arcs self);
  backtrack self asg.

(** Every object of [h] is in [h'] what it was in [h]. *)
Definition preserves (h h' : heap) : Prop :=
  (∀ r, r < length (lists h) → lists h' !! r = lists h !! r) ∧
  (∀ r, r < length (dicts h) → dicts h' !! r = dicts h !! r).

(** [asg] is a dictionary object of [h] that binds list objects of [h]. *)
Definition valid (h : heap) (asg : loc) : Prop :=
  ∃ d : dict K loc,
    dicts h !! asg = Some d ∧ ∀ n r, (n, r) ∈ d → r < length (lists h).

(** The assignment the dictionary object [asg] stands for in [h]. *)
Definition view_entries (h : heap) (d : dict K loc) : @assignment K V :=
  (fun e => (e.1, list_at h e.2)) <$> d.

Definition view (h : heap) (asg : loc) : @assignment K V :=
  view_entries h (dict_at h asg).

(** The list objects below [n] and the dictionary objects below [m] are in
    [h'] what they are in [h], and no object of [h] is missing in [h']. *)
Definition safe (n m : nat) (h h' : heap) : Prop :=
  (∀ r, r < n → lists h' !! r = lists h !! r) ∧
  (∀ r, r < m → dicts h' !! r = dicts h !! r) ∧
  length (lists h) ≤ length (lists h') ∧
  length (dicts h) ≤ length (dicts h').

(** [n] list objects and [m] dictionary objects are allocated in [h]. *)
Definition bounds (n m : nat) (h : heap) : Prop :=
  n ≤ length (lists h) ∧ m ≤ length (dicts h).

(** The dictionary object [asg] binds no list object below [n]. *)
Definition fresh (n : nat) (h : heap) (asg : loc) : Prop :=
  ∀ k r, (k, r) ∈ dict_at h asg → n ≤ r.

(** [asg] is a dictionary object of [h] that binds list objects of [h],
    no two names to the same one. *)
Definition wf (h : heap) (asg : loc) : Prop :=
  ∃ d : dict K loc,
    dicts h !! asg = Some d ∧ NoDup d.*2 ∧ ∀ r, r ∈ d.*2 → r < length (lists h).

(** A run on the heap and a call by value come out alike: both return,
    with results that [R] relates in the store the run leaves, or both
    raise the same exception, or both are cut off. *)
Definition agrees {A B} (R : heap → A → B → Prop)
    (run : heap * result A) (r : result B) : Prop :=
  match r with
  | Ret b => ∃ x, run.2 = Ret x ∧ R run.1 x b
  | Raise e => run.2 = Raise e
  | OutOfFuel => run.2 = OutOfFuel
  end.

(** The result of a search on the heap stands for the result by value. *)
Definition same_result (h : heap) (x : CSP * option loc)
    (y : CSP * @search_result K V) : Prop :=
  x.1 = y.1 ∧
  match x.2, y.2 with
  | Some res, Some sol => wf h res ∧ view h res = sol
  | None, None => True
  | _, _ => False
  end.

End HeapEngine.
End Heap.

(** ** Networks as the methods build them *)

Section Networks.
Context {K V : Type} `{!EqDecision K, !EqDecision V}.
#[local] Abbreviation name := (name K).
#[local] Abbreviation dict := (dict K).
#[local] Abbreviation CSP := (@CSP K V).
#[local] Abbreviation assignment := (@assignment K V).

(** A Python dictionary has one entry per key. *)
Definition dict_wf {X} (d : dict X) : Prop := NoDup (name_val <$> keys d).

(** The dictionaries of [self], and the inner dictionaries of
    [self.constraints], have one entry per key. *)
Definition csp_wf (self : CSP) : Prop :=
  dict_wf (domains self) ∧ dict_wf (constraints self) ∧
  ∀ e, e ∈ constraints self → dict_wf e.2.

(** The list that [add_constraint_one_way] filters for the arc [(i, j)]:
    the stored list of the arc or, when the arc is not registered, all
    pairs of values of the two domains. *)
Definition arc_base (self : CSP) (i j : K) : list (V * V) :=
  match table self i j with
  | Some cij => cij
  | None => get_all_possible_pairs (domain_of (domains self) i) (domain_of (domains self) j)
  end.

(** [lambda x, y: x != y] on a value pair. *)
Definition different (p : V * V) : bool := bool_decide (p.1 ≠ p.2).

(** The arcs of a list of name pairs, by the values of the names. *)
Definition arc_vals (pairs : list (name * name)) : list (K * K) :=
  map (fun p => (name_val p.1, name_val p.2)) pairs.

(** [b] has no value that [a] does not have. *)
Definition below (b a : assignment) : Prop :=
  ∀ k x, x ∈ domain_of b k → x ∈ domain_of a k.

(** Every value of [b] has a partner in [b] on every registered arc. *)
Definition arc_consistent (self : CSP) (b : assignment) : Prop :=
  ∀ k l x, is_Some (table self k l) → x ∈ domain_of b k → supported self b k l x = true.

(** [network_two_way], on what the dictionaries return when they are
    looked up. *)
Definition two_way (self : CSP) : Prop :=
  ∀ k l ckl, table self k l = Some ckl →
    ∃ clk, table self l k = Some clk ∧ ∀ x y, (x, y) ∈ ckl → (y, x) ∈ clk.

(** [declared self (domains self)], likewise: the variables with a
    constraint table are the variables with a domain, and every arc goes to
    a variable with a domain. *)
Definition keys_agree (self : CSP) : Prop :=
  (∀ k, is_Some (dict_lookup (constraints self) k) ↔
        is_Some (dict_lookup (domains self) k)) ∧
  (∀ k l, is_Some (table self k l) → is_Some (dict_lookup (domains self) l)).

(** Every registered arc holds the pairs of different values of the two
    domains: a network of all-different constraints. *)
Definition all_different_tables (self : CSP) : Prop :=
  ∀ k l ckl, table self k l = Some ckl →
    ckl = List.filter different
            (get_all_possible_pairs (domain_of (domains self) k) (domain_of (domains self) l)).

(** What the theorems on the search ask of a network. *)
Definition well_built (self : CSP) : Prop :=
  csp_wf self ∧ network_two_way self = true ∧ declared self (domains self) = true.

End Networks.

(** ** The Sudoku front end *)

(** [create_sudoku_csp] and [print_sudoku_solution], on names and values
    that are Python strings.  The file is the list of its lines, as
    iterating over [open(filename, 'r')] yields them; every string that
    ['%d-%d' % (row, col)] builds is a new object, numbered in the order of
    creation. *)
Module Sudoku.

(** The exceptions of the front end: the engine's, and those of indexing a
    list or a string out of range and of indexing [False]. *)
Inductive exception : Type :=
| IndexError
| TypeError
| Engine (e : exn).

Inductive outcome (A : Type) : Type :=
| Returns (a : A)
| Raises (e : exception)
| Cut.

Arguments Returns {A} a.
Arguments Raises {A} e.
Arguments Cut {A}.

#[global] Instance exn_eq_dec : EqDecision exn.
Proof. solve_decision. Defined.

#[global] Instance exception_eq_dec : EqDecision exception.
Proof. solve_decision. Defined.

#[global] Instance outcome_eq_dec {A} `{!EqDecision A} : EqDecision (outcome A).
Proof. solve_decision. Defined.

#[global] Instance outcome_ret : MRet outcome := fun A a => Returns a.
#[global] Instance outcome_bind : MBind outcome := fun A B f m =>
  match m with
  | Returns a => f a
  | Raises e => Raises e
  | Cut => Cut
  end.

(** A call of a method of the engine. *)
Definition of_result {A} (r : result A) : outcome A :=
  match r with
  | Ret a => Returns a
  | Raise e => Raises (Engine e)
  | OutOfFuel => Cut
  end.

(** *** Strings *)

(** The whitespace of [str.strip] and of [print]: space, and tab to
    carriage return. *)
Definition isspace (c : ascii) : bool :=
  let n := nat_of_ascii c in (n =? 32) || ((9 <=? n) && (n <=? 13)).

Fixpoint lstrip (s : string) : string :=
  match s with
  | EmptyString => EmptyString
  | String c s' => if isspace c then lstrip s' else s
  end.

Definition rstrip (s : string) : string := String.rev (lstrip (String.rev s)).

(** [x.strip()]. *)
Definition strip (s : string) : string := rstrip (lstrip s).

(** [board[row][col]]: a string of one character. *)
Definition board_get (board : list string) (row col : nat) : outcome string :=
  match board !! row with
  | None => Raises IndexError
  | Some line =>
      match String.get col line with
      | None => Raises IndexError
      | Some c => Returns (String c EmptyString)
      end
  end.

(** [str(n)] and ['%d' % n] for a number that is not negative: its decimal
    digits. *)
Definition str (n : nat) : string := NilEmpty.string_of_uint (Nat.to_uint n).

(** ['%d-%d' % (row, col)]. *)
Definition format_cell (cell : nat * nat) : string :=
  str cell.1 +:+ "-" +:+ str cell.2.

(** [map(str, range(1, 10))]. *)
Definition digits : list string := str <$> seq 1 9.

(** *** [create_sudoku_csp] *)

(** The cells in the order of the two nested loops over [range(9)]. *)
Definition cells : list (nat * nat) := list_prod (seq 0 9) (seq 0 9).

(** The domain of a cell: all digits when the board has ['0'] there, the
    character of the board otherwise. *)
Definition candidates (ch : string) : list string :=
  if decide (ch = "0") then digits else [ch].

(** The first pair of loops: one variable per cell.  [next] numbers the
    name objects. *)
Fixpoint add_cells (board : list string) (todo : list (nat * nat))
    (csp : @CSP string string) (next : nat) : outcome (@CSP string string * nat) :=
  match todo with
  | [] => Returns (csp, next)
  | (row, col) :: rest =>
      ch ← board_get board row col;
      let name := Name (format_cell (row, col)) next in
      add_cells board rest (add_variable csp name (candidates ch)) (S next)
  end.

(** The names a list comprehension over cells builds. *)
Definition names_from (next : nat) (unit : list (nat * nat)) : list (name string) :=
  imap (fun i cell => Name (format_cell cell) (next + i)) unit.

(** One [add_all_different_constraint] per list of cells. *)
Fixpoint add_units (units : list (list (nat * nat))) (csp : @CSP string string)
    (next : nat) : outcome (@CSP string string * nat) :=
  match units with
  | [] => Returns (csp, next)
  | unit :: rest =>
      csp' ← of_result (add_all_different_constraint csp (names_from next unit));
      add_units rest csp' (next + length unit)
  end.

Definition rows : list (list (nat * nat)) :=
  map (fun row => map (fun col => (row, col)) (seq 0 9)) (seq 0 9).

Definition columns : list (list (nat * nat)) :=
  map (fun col => map (fun row => (row, col)) (seq 0 9)) (seq 0 9).

Definition boxes : list (list (nat * nat)) :=
  map (fun b => list_prod (seq (b.1 * 3) 3) (seq (b.2 * 3) 3))
      (list_prod (seq 0 3) (seq 0 3)).

Definition create_sudoku_csp (lines : list string) : outcome (@CSP string string) :=
  let board := map strip lines in
  '(csp, next) ← add_cells board cells CSP_init 0;
  '(csp, next) ← add_units rows csp next;
  '(csp, next) ← add_units columns csp next;
  '(csp, next) ← add_units boxes csp next;
  Returns csp.

(** *** Boards and grids *)

(** The file has nine lines of nine characters or more, once stripped. *)
Definition well_shaped (lines : list string) : bool :=
  bool_decide (9 ≤ length lines) &&
  forallb (fun line => bool_decide (9 ≤ String.length (strip line))) (take 9 lines).

(** The character of the board at a cell. *)
Definition given (board : list string) (cell : nat * nat) : string :=
  match board_get board cell.1 cell.2 with
  | Returns ch => ch
  | _ => EmptyString
  end.

(** Two different cells of the same row, column or box. *)
Definition peers (p q : nat * nat) : bool :=
  bool_decide (p ≠ q) &&
  (bool_decide (p.1 = q.1) || bool_decide (p.2 = q.2) ||
   (bool_decide (p.1 / 3 = q.1 / 3) && bool_decide (p.2 / 3 = q.2 / 3))).

(** The grid [g] completes the board: it has a digit where the board has
    ['0'] and the character of the board elsewhere, and peers differ. *)
Definition completes (board : list string) (g : nat * nat → string) : Prop :=
  (∀ p, p ∈ cells → g p ∈ candidates (given board p)) ∧
  (∀ p q, p ∈ cells → q ∈ cells → peers p q = true → g p ≠ g q).

(** The grid that [print_sudoku_solution] reads off a mapping: the first
    value of every cell. *)
Definition grid_of (sol : @assignment string string) (cell : nat * nat) : string :=
  match dict_lookup sol (format_cell cell) with
  | Some (x :: _) => x
  | _ => EmptyString
  end.

(** The mapping that gives every cell the one value of the grid. *)
Definition mapping_of (g : nat * nat → string) : @assignment string string :=
  (fun cell => (Name (format_cell cell) 0, [g cell])) <$> cells.

(** A file with a puzzle, line by line. *)
Definition puzzle : list string :=
  (fun line => line +:+ String (ascii_of_nat 10) EmptyString) <$>
  ["003020600"; "900305001"; "001806400"; "008102900"; "700000008";
   "006708200"; "002609500"; "800203009"; "005010300"].

(** The rows of the grid that completes [puzzle]. *)
Definition puzzle_solution : list string :=
  ["483921657"; "967345821"; "251876493"; "548132976"; "729564138";
   "136798245"; "372689514"; "814253769"; "695417382"].

(** *** [print_sudoku_solution] *)

(** Standard output: what has been written, and the flag that makes the
    next [print] item start with a space. *)
Record stdout : Type := mkStdout { written : string; softspace : bool }.

Definition newline : string := String (ascii_of_nat 10) EmptyString.

(** After a string is printed the flag is set unless the string ends with
    whitespace other than a space. *)
Definition sets_softspace (s : string) : bool :=
  match String.rev s with
  | EmptyString => true
  | String c _ => negb (isspace c) || (nat_of_ascii c =? 32)
  end.

(** [print s,] *)
Definition print_item (s : string) (o : stdout) : stdout :=
  mkStdout ((if softspace o then written o +:+ " " else written o) +:+ s)
           (sets_softspace s).

(** The end of a [print] statement without a trailing comma. *)
Definition print_newline (o : stdout) : stdout :=
  mkStdout (written o +:+ newline) false.

(** The inner loop: the cells of one row. *)
Fixpoint print_row (solution : @search_result string string) (row : nat)
    (cols : list nat) (o : stdout) : stdout * outcome unit :=
  match cols with
  | [] => (o, Returns ())
  | col :: rest =>
      match solution with
      | None => (o, Raises TypeError)
      | Some sol =>
          match dict_lookup sol (format_cell (row, col)) with
          | None => (o, Raises (Engine KeyError))
          | Some [] => (o, Raises IndexError)
          | Some (x :: _) =>
              let o := print_item x o in
              let o := if bool_decide (col = 2 ∨ col = 5) then print_item "|" o else o in
              print_row solution row rest o
          end
      end
  end.

Fixpoint print_rows (solution : @search_result string string) (todo : list nat)
    (o : stdout) : stdout * outcome unit :=
  match todo with
  | [] => (o, Returns ())
  | row :: rest =>
      match print_row solution row (seq 0 9) o with
      | (o, Returns _) =>
          let o := print_newline o in
          let o := if bool_decide (row = 2 ∨ row = 5)
                   then print_newline (print_item "------+-------+------" o)
                   else o in
          print_rows solution rest o
      | stopped => stopped
      end
  end.

Definition print_sudoku_solution (solution : @search_result string string)
    (o : stdout) : stdout * outcome unit :=
  print_rows solution (seq 0 9) o.

(** *** The printed layout *)

(** A row of the grid as it is meant to be printed: the nine values with a
    bar after the third and the sixth, separated by single spaces. *)
Definition row_line (g : nat * nat → string) (row : nat) : string :=
  String.concat " "
    [g (row, 0); g (row, 1); g (row, 2); "|"; g (row, 3); g (row, 4); g (row, 5); "|";
     g (row, 6); g (row, 7); g (row, 8)].

Definition rule : string := "------+-------+------".

(** The eleven lines of a grid, each with its newline. *)
Definition render (g : nat * nat → string) : string :=
  String.concat ""
    ((fun line => line +:+ newline) <$>
     [row_line g 0; row_line g 1; row_line g 2; rule;
      row_line g 3; row_line g 4; row_line g 5; rule;
      row_line g 6; row_line g 7; row_line g 8]).

End Sudoku.

(** * Properties *)

Lemma bind_Ret {A B} (m : result A) (f : A → result B) (b : B) :
  m ≫= f = Ret b ↔ ∃ a, m = Ret a ∧ f a = Ret b.
Proof.
  destruct m as [a| |]; simpl; split; try (intros [a' [? ?]]); eauto; try discriminate.
  congruence.
Qed.

Lemma bind_not_OutOfFuel {A B} (m : result A) (f : A → result B) :
  m ≠ OutOfFuel → (∀ a, m = Ret a → f a ≠ OutOfFuel) → m ≫= f ≠ OutOfFuel.
Proof. destruct m; simpl; intros; auto; discriminate. Qed.

(** Splits a hypothesis [m ≫= f = Ret b] into the two calls. *)
Ltac inv_bind H :=
  let a := fresh "r" in
  let H1 := fresh H in
  apply bind_Ret in H; destruct H as (a & H1 & H).

Section DictFacts.
Context {K : Type} `{!EqDecision K}.
#[local] Abbreviation name := (name K).
#[local] Abbreviation dict := (dict K).

Lemma dict_lookup_setitem_eq {X} (d : dict X) (n : name) (x : X) :
  dict_lookup (setitem d n x) (name_val n) = Some x.
Proof.
  induction d as [|[n' x'] d IH]; simpl.
  - rewrite decide_True; auto.
  - destruct (decide (name_val n' = name_val n)) as [e|ne]; simpl.
    + rewrite decide_True; auto.
    + rewrite decide_False; auto.
Qed.

Lemma dict_lookup_setitem_ne {X} (d : dict X) (n : name) (x : X) (k : K) :
  k ≠ name_val n → dict_lookup (setitem d n x) k = dict_lookup d k.
Proof.
  intros Hk. induction d as [|[n' x'] d IH]; simpl.
  - rewrite decide_False; auto.
  - destruct (decide (name_val n' = name_val n)) as [e|ne]; simpl.
    + destruct (decide (name_val n' = k)); congruence.
    + destruct (decide (name_val n' = k)); auto.
Qed.

Lemma dict_lookup_setitem {X} (d : dict X) (n : name) (x : X) (k : K) :
  dict_lookup (setitem d n x) k =
  if decide (k = name_val n) then Some x else dict_lookup d k.
Proof.
  destruct (decide (k = name_val n)) as [->|ne].
  - apply dict_lookup_setitem_eq.
  - by apply dict_lookup_setitem_ne.
Qed.

Lemma setitem_same {X} (d : dict X) (n : name) (x : X) :
  dict_lookup d (name_val n) = Some x → setitem d n x = d.
Proof.
  induction d as [|[n' x'] d IH]; simpl; [discriminate|].
  destruct (decide (name_val n' = name_val n)); intros H.
  - congruence.
  - f_equal; auto.
Qed.

Lemma setitem_setitem {X} (d : dict X) (n : name) (x y : X) :
  setitem (setitem d n x) n y = setitem d n y.
Proof.
  induction d as [|[n' x'] d IH]; simpl.
  - rewrite decide_True; auto.
  - destruct (decide (name_val n' = name_val n)) as [e|ne]; simpl.
    + rewrite decide_True; auto.
    + rewrite decide_False; auto. by rewrite IH.
Qed.

Lemma keys_setitem {X} (d : dict X) (n : name) (x : X) :
  is_Some (dict_lookup d (name_val n)) → keys (setitem d n x) = keys d.
Proof.
  unfold keys. induction d as [|[n' x'] d IH]; simpl.
  - intros [? ?]; discriminate.
  - destruct (decide (name_val n' = name_val n)); simpl; intros H; auto.
    f_equal; auto.
Qed.

Lemma dict_lookup_Some_elem {X} (d : dict X) (k : K) (x : X) :
  dict_lookup d k = Some x → ∃ n, (n, x) ∈ d ∧ name_val n = k.
Proof.
  induction d as [|[n' x'] d IH]; simpl; [discriminate|].
  destruct (decide (name_val n' = k)) as [e|ne]; intros H.
  - injection H as ->. exists n'. split; [left|done].
  - destruct (IH H) as (m & ? & ?). exists m. split; [by right|done].
Qed.

Lemma dict_lookup_is_Some_key {X} (d : dict X) (k : K) :
  is_Some (dict_lookup d k) ↔ ∃ n, n ∈ keys d ∧ name_val n = k.
Proof.
  unfold keys. induction d as [|[n' x'] d IH]; simpl.
  - split; [intros [? ?]; discriminate|]. intros (n & Hn & _). by apply elem_of_nil in Hn.
  - destruct (decide (name_val n' = k)) as [e|ne].
    + split; [|eauto]. intros _. exists n'. split; [left|done].
    + rewrite IH. split; intros (n & Hn & Hk).
      * exists n. split; [by right|done].
      * apply elem_of_cons in Hn as [->|Hn]; [done|]. eauto.
Qed.

End DictFacts.

Section ReviseFacts.
Context {K V : Type} `{!EqDecision K, !EqDecision V}.
#[local] Abbreviation name := (name K).
#[local] Abbreviation CSP := (@CSP K V).
#[local] Abbreviation assignment := (@assignment K V).

Implicit Types (self : CSP) (a : assignment) (i j : name) (x y : V).

Lemma getitem_Ret {X} (d : dict K X) (n : name) (x : X) :
  getitem d n = Ret x ↔ dict_lookup d (name_val n) = Some x.
Proof. unfold getitem. destruct (dict_lookup d (name_val n)); split; congruence. Qed.

Lemma getitem_not_OutOfFuel {X} (d : dict K X) (n : name) : getitem d n ≠ OutOfFuel.
Proof. unfold getitem. destruct (dict_lookup d (name_val n)); discriminate. Qed.

Lemma domain_of_lookup a (k : K) d : dict_lookup a k = Some d → domain_of a k = d.
Proof. unfold domain_of. by intros ->. Qed.

Lemma table_getitem self i j cij :
  table self (name_val i) (name_val j) = Some cij ↔
  ∃ ci, getitem (constraints self) i = Ret ci ∧ getitem ci j = Ret cij.
Proof.
  unfold table. setoid_rewrite getitem_Ret.
  destruct (dict_lookup (constraints self) (name_val i)) as [ci|]; simpl.
  - split; [eauto|]. intros (ci' & [= <-] & ?). done.
  - split; [discriminate|]. intros (? & ? & ?). discriminate.
Qed.

Lemma revise_possible_ok self i j x dj cij :
  table self (name_val i) (name_val j) = Some cij →
  revise_possible self i j x dj = Ret (existsb (fun y => bool_decide ((x, y) ∈ cij)) dj).
Proof.
  intros Ht. apply table_getitem in Ht as (ci & Hci & Hcij).
  induction dj as [|y dj IH]; simpl; [done|].
  rewrite Hci. simpl. rewrite Hcij. simpl.
  destruct (bool_decide ((x, y) ∈ cij)); simpl; auto.
Qed.

Lemma revise_possible_Ret self i j x dj b :
  revise_possible self i j x dj = Ret b →
  b = existsb (fun y => bool_decide ((x, y) ∈ allowed self (name_val i) (name_val j))) dj ∧
  (dj ≠ [] → is_Some (table self (name_val i) (name_val j))).
Proof.
  destruct dj as [|y dj].
  - simpl. intros [= <-]. done.
  - intros H. assert (is_Some (table self (name_val i) (name_val j))) as [cij Ht].
    { simpl in H. inv_bind H. inv_bind H. eexists. apply table_getitem. eauto. }
    rewrite (revise_possible_ok _ _ _ _ _ _ Ht) in H. injection H as <-.
    unfold allowed. rewrite Ht. simpl. eauto.
Qed.

Lemma revise_scan_ok self a i j di :
  di = [] ∨ (is_Some (dict_lookup a (name_val j)) ∧
             (domain_of a (name_val j) = [] ∨ is_Some (table self (name_val i) (name_val j)))) →
  revise_scan self a i j di =
  Ret (List.filter (fun x => negb (supported self a (name_val i) (name_val j) x)) di).
Proof.
  intros [->|([dj Hj] & Ht)]; [done|].
  induction di as [|x di IH]; simpl; [done|].
  unfold getitem at 1. rewrite Hj. simpl.
  assert (revise_possible self i j x dj = Ret (supported self a (name_val i) (name_val j) x)) as ->.
  { unfold supported. rewrite (domain_of_lookup _ _ _ Hj) in *.
    destruct Ht as [->|[cij Ht]]; [done|].
    unfold allowed. rewrite Ht. simpl. by apply revise_possible_ok. }
  simpl. rewrite IH. simpl.
  by destruct (supported self a (name_val i) (name_val j) x).
Qed.

Lemma revise_scan_Ret self a i j di incs :
  revise_scan self a i j di = Ret incs →
  di ≠ [] →
  is_Some (dict_lookup a (name_val j)) ∧
  (domain_of a (name_val j) ≠ [] → is_Some (table self (name_val i) (name_val j))).
Proof.
  destruct di as [|x di]; [done|]. simpl. intros H _.
  inv_bind H. apply getitem_Ret in H0. inv_bind H.
  apply revise_possible_Ret in H1 as [_ Ht].
  rewrite (domain_of_lookup _ _ _ H0). eauto.
Qed.

Lemma list_remove_first_app (pre l : list V) x :
  x ∉ pre → list_remove_first x (pre ++ x :: l) = Ret (pre ++ l).
Proof.
  induction pre as [|y pre IH]; simpl; intros Hx.
  - by rewrite decide_True.
  - rewrite decide_False by (intros ->; apply Hx; left).
    rewrite IH; [done|]. intros ?. apply Hx. by right.
Qed.

Lemma revise_delete_filter a i (q : V → bool) (pre l : list V) :
  dict_lookup a (name_val i) = Some (pre ++ l) →
  (∀ x, x ∈ pre → q x = false) →
  revise_delete a i (List.filter q l) =
  Ret (setitem a i (pre ++ List.filter (fun x => negb (q x)) l)).
Proof.
  revert a pre. induction l as [|x l IH]; intros a pre Ha Hpre; simpl.
  - by rewrite setitem_same.
  - destruct (q x) eqn:Hq; simpl.
    + unfold getitem. rewrite Ha. simpl.
      rewrite list_remove_first_app; [simpl|].
      * rewrite (IH _ pre); [by rewrite setitem_setitem| |done].
        apply dict_lookup_setitem_eq.
      * intros Hin. apply Hpre in Hin. congruence.
    + rewrite (IH a (pre ++ [x])).
      * by rewrite <- app_assoc.
      * by rewrite <- app_assoc.
      * intros y [?|Hy]%elem_of_app; [auto|].
        apply list_elem_of_singleton in Hy as ->. done.
Qed.

Lemma filter_negb_length (p : V → bool) (l : list V) :
  bool_decide (0 < length (List.filter (fun x => negb (p x)) l)) = negb (forallb p l).
Proof.
  induction l as [|x l IH]; simpl; [done|].
  destruct (p x); simpl; [done|]. first [done | apply bool_decide_eq_true; lia].
Qed.

(** [revise], when nothing it looks up is missing. *)
Lemma revise_ok self a i j :
  is_Some (dict_lookup a (name_val i)) →
  domain_of a (name_val i) = [] ∨
    (is_Some (dict_lookup a (name_val j)) ∧
     (domain_of a (name_val j) = [] ∨ is_Some (table self (name_val i) (name_val j)))) →
  revise self a i j =
  Ret (setitem a i (List.filter (supported self a (name_val i) (name_val j))
                                (domain_of a (name_val i))),
       negb (forallb (supported self a (name_val i) (name_val j)) (domain_of a (name_val i)))).
Proof.
  intros [di Hi] H. unfold revise, getitem at 1. rewrite Hi. simpl.
  rewrite (domain_of_lookup _ _ _ Hi) in *.
  rewrite revise_scan_ok by done. simpl.
  rewrite (revise_delete_filter a i _ [] di) by (done || by intros ? ?%elem_of_nil).
  simpl. rewrite filter_negb_length. do 3 f_equal.
  apply filter_ext. intros x. by destruct (supported _ _ _ _ x).
Qed.

(** What a call of [revise] that returns has looked up and done. *)
Lemma revise_Ret self a i j a' b :
  revise self a i j = Ret (a', b) →
  is_Some (dict_lookup a (name_val i)) ∧
  (domain_of a (name_val i) ≠ [] →
     is_Some (dict_lookup a (name_val j)) ∧
     (domain_of a (name_val j) ≠ [] → is_Some (table self (name_val i) (name_val j)))) ∧
  a' = setitem a i (List.filter (supported self a (name_val i) (name_val j))
                                (domain_of a (name_val i))) ∧
  b = negb (forallb (supported self a (name_val i) (name_val j)) (domain_of a (name_val i))).
Proof.
  intros H. pose proof H as H'. unfold revise in H. inv_bind H.
  apply getitem_Ret in H0. inv_bind H.
  pose proof (revise_scan_Ret _ _ _ _ _ _ H1) as Hs.
  rewrite (domain_of_lookup _ _ _ H0).
  assert (revise self a i j = Ret
    (setitem a i (List.filter (supported self a (name_val i) (name_val j))
                                (domain_of a (name_val i))),
     negb (forallb (supported self a (name_val i) (name_val j)) (domain_of a (name_val i))))) as E.
  { apply revise_ok; [eauto|]. rewrite (domain_of_lookup _ _ _ H0).
    destruct r as [|x r]; [by left|right].
    destruct Hs as [Hj Ht]; [done|]. split; [done|].
    destruct (domain_of a (name_val j)); [by left|right]. by apply Ht. }
  rewrite E in H'. injection H' as <- <-.
  rewrite (domain_of_lookup _ _ _ H0). split_and!; eauto.
Qed.

End ReviseFacts.

Section InferenceFacts.
Context {K V : Type} `{!EqDecision K, !EqDecision V}.
#[local] Abbreviation name := (name K).
#[local] Abbreviation CSP := (@CSP K V).
#[local] Abbreviation assignment := (@assignment K V).

Implicit Types (self : CSP) (a : assignment) (i j xi xj : name) (x y : V).
Implicit Types (queue : list (name * name)).

Lemma total_size_setitem a (n : name) (l l' : list V) :
  dict_lookup a (name_val n) = Some l →
  total_size (setitem a n l') + length l = total_size a + length l'.
Proof.
  unfold total_size. induction a as [|[n' d] a IH]; simpl; [discriminate|].
  destruct (decide (name_val n' = name_val n)); simpl; intros H.
  - injection H as ->. lia.
  - specialize (IH H). lia.
Qed.

Lemma filter_length_forallb (p : V → bool) (l : list V) :
  length (List.filter p l) ≤ length l ∧
  (forallb p l = false → length (List.filter p l) < length l).
Proof.
  induction l as [|x l [IH1 IH2]]; simpl; [split; [lia|discriminate]|].
  destruct (p x); simpl; split; try lia.
  intros H. specialize (IH2 H). lia.
Qed.

Lemma revise_size self a i j a' b :
  revise self a i j = Ret (a', b) →
  total_size a' ≤ total_size a ∧ (b = true → total_size a' < total_size a).
Proof.
  intros (Hi & _ & -> & ->)%revise_Ret. destruct Hi as [di Hi].
  rewrite (domain_of_lookup _ _ _ Hi).
  pose proof (total_size_setitem a i di
    (List.filter (supported self a (name_val i) (name_val j)) di) Hi) as E.
  pose proof (filter_length_forallb (supported self a (name_val i) (name_val j)) di) as [L1 L2].
  split; [lia|]. intros Hb%negb_true_iff. specialize (L2 Hb). lia.
Qed.

Lemma queue_pop_app {A} (q : list A) (x : A) : queue_pop (q ++ [x]) = Some (q, x).
Proof. unfold queue_pop. by rewrite last_snoc, removelast_last. Qed.

Lemma queue_pop_Some {A} (q q' : list A) (x : A) :
  queue_pop q = Some (q', x) → q = q' ++ [x].
Proof.
  destruct q as [|y q] using rev_ind; [discriminate|].
  rewrite queue_pop_app. by intros [= <- <-].
Qed.

Lemma queue_pop_None {A} (q : list A) : queue_pop q = None → q = [].
Proof.
  destruct q as [|y q] using rev_ind; [done|]. by rewrite queue_pop_app.
Qed.

Lemma requeue_length (nb : list (name * name)) xi xj :
  length (requeue nb xi xj) ≤ length nb.
Proof.
  unfold requeue. induction nb as [|arc nb IH]; simpl; [lia|].
  destruct (decide (arc.1 = xj)); simpl; lia.
Qed.

Lemma neighboring_arcs_count self xi nb :
  get_all_neighboring_arcs self xi = Ret nb → length nb ≤ arc_count self.
Proof.
  unfold get_all_neighboring_arcs, arc_count. intros H. inv_bind H.
  injection H as <-. apply getitem_Ret in H0.
  rewrite length_map. unfold keys. rewrite length_fmap.
  revert H0. generalize (name_val xi). intros k.
  induction (constraints self) as [|[n ci] c IH]; simpl; [discriminate|].
  destruct (decide (name_val n = k)); intros H.
  - injection H as ->. lia.
  - specialize (IH H). lia.
Qed.

Lemma revise_possible_runs self i j x (dj : list V) :
  revise_possible self i j x dj ≠ OutOfFuel.
Proof.
  induction dj as [|y dj IH]; simpl; [discriminate|].
  apply bind_not_OutOfFuel; [apply getitem_not_OutOfFuel|]. intros ci _.
  apply bind_not_OutOfFuel; [apply getitem_not_OutOfFuel|]. intros cij _.
  destruct (bool_decide _); [discriminate|done].
Qed.

Lemma revise_scan_runs self a i j (di : list V) :
  revise_scan self a i j di ≠ OutOfFuel.
Proof.
  induction di as [|x di IH]; simpl; [discriminate|].
  apply bind_not_OutOfFuel; [apply getitem_not_OutOfFuel|]. intros dj _.
  apply bind_not_OutOfFuel; [apply revise_possible_runs|]. intros b _.
  apply bind_not_OutOfFuel; [done|]. discriminate.
Qed.

Lemma list_remove_first_runs x (l : list V) : list_remove_first x l ≠ OutOfFuel.
Proof.
  induction l as [|y l IH]; simpl; [discriminate|].
  destruct (decide (y = x)); [discriminate|].
  apply bind_not_OutOfFuel; [done|]. discriminate.
Qed.

Lemma revise_delete_runs a i (incs : list V) : revise_delete a i incs ≠ OutOfFuel.
Proof.
  revert a. induction incs as [|x incs IH]; intros a; simpl; [discriminate|].
  apply bind_not_OutOfFuel; [apply getitem_not_OutOfFuel|]. intros di _.
  apply bind_not_OutOfFuel; [apply list_remove_first_runs|]. intros di' _.
  apply IH.
Qed.

Lemma revise_runs self a i j : revise self a i j ≠ OutOfFuel.
Proof.
  unfold revise.
  apply bind_not_OutOfFuel; [apply getitem_not_OutOfFuel|]. intros di _.
  apply bind_not_OutOfFuel; [apply revise_scan_runs|]. intros incs _.
  apply bind_not_OutOfFuel; [apply revise_delete_runs|]. discriminate.
Qed.

Lemma inference_step_runs self a queue arc : inference_step self a queue arc ≠ OutOfFuel.
Proof.
  unfold inference_step. destruct arc as [xi xj].
  apply bind_not_OutOfFuel; [apply revise_runs|]. intros [a' [|]] _; [|discriminate].
  apply bind_not_OutOfFuel; [apply getitem_not_OutOfFuel|]. intros dxi _.
  destruct (bool_decide _); [discriminate|].
  apply bind_not_OutOfFuel; [|discriminate].
  unfold get_all_neighboring_arcs.
  apply bind_not_OutOfFuel; [apply getitem_not_OutOfFuel|]. discriminate.
Qed.

(** A turn of the loop that goes on leaves less to do. *)
Lemma inference_step_fuel self a queue arc a' queue' :
  inference_step self a queue arc = Ret (inl (a', queue')) →
  inference_fuel self a' queue' ≤ inference_fuel self a queue.
Proof.
  unfold inference_step, inference_fuel. destruct arc as [xi xj]. intros H.
  inv_bind H. destruct r as [a1 b]. apply revise_size in H0 as [L1 L2].
  destruct b.
  - specialize (L2 eq_refl). inv_bind H. destruct (bool_decide _); [discriminate|].
    inv_bind H. injection H as <- <-.
    apply neighboring_arcs_count in H1.
    pose proof (requeue_length r0 xi xj). rewrite length_app.
    assert (S (total_size a1) * S (arc_count self) ≤ total_size a * S (arc_count self))
      by (apply Nat.mul_le_mono_r; lia).
    simpl in *. lia.
  - injection H as <- <-.
    assert (total_size a1 * S (arc_count self) ≤ total_size a * S (arc_count self))
      by (apply Nat.mul_le_mono_r; lia).
    lia.
Qed.

Lemma inference_loop_runs fuel self a queue :
  inference_fuel self a queue ≤ fuel → inference_loop fuel self a queue ≠ OutOfFuel.
Proof.
  revert a queue. induction fuel as [|fuel IH]; intros a queue Hf.
  - destruct queue as [|arc queue _] using rev_ind; [simpl; discriminate|].
    unfold inference_fuel in Hf. rewrite length_app in Hf. simpl in Hf. lia.
  - simpl. destruct (queue_pop queue) as [[queue' arc]|] eqn:Hpop; [|discriminate].
    apply queue_pop_Some in Hpop as ->.
    apply bind_not_OutOfFuel; [apply inference_step_runs|].
    intros [[a' queue'']|r] Hstep; [|discriminate].
    apply IH. apply inference_step_fuel in Hstep.
    unfold inference_fuel in *. rewrite length_app in Hf. simpl in Hf. lia.
Qed.

Lemma inference_loop_fuel f1 f2 self a queue :
  inference_fuel self a queue ≤ f1 → inference_fuel self a queue ≤ f2 →
  inference_loop f1 self a queue = inference_loop f2 self a queue.
Proof.
  revert f2 a queue. induction f1 as [|f1 IH]; intros f2 a queue H1 H2.
  - destruct queue as [|arc queue _] using rev_ind; [by destruct f2|].
    unfold inference_fuel in H1. rewrite length_app in H1. simpl in H1. lia.
  - destruct queue as [|arc queue _] using rev_ind; [by destruct f2|].
    destruct f2 as [|f2].
    { unfold inference_fuel in H2. rewrite length_app in H2. simpl in H2. lia. }
    simpl. rewrite queue_pop_app.
    destruct (inference_step self a queue arc) as [[[a' queue'']|r]| |] eqn:Hstep; simpl; try done.
    apply inference_step_fuel in Hstep.
    unfold inference_fuel in *. rewrite length_app in H1, H2. simpl in H1, H2.
    apply IH; unfold inference_fuel; lia.
Qed.

(** [inference] never runs out of the fuel it is given. *)
Lemma inference_total self a queue : inference self a queue ≠ OutOfFuel.
Proof. apply inference_loop_runs. done. Qed.

(** The [while] loop of [inference], one turn unfolded. *)
Lemma inference_unfold self a queue arc :
  inference self a (queue ++ [arc]) =
  next ← inference_step self a queue arc;
  match next with
  | inl (a', queue') => inference self a' queue'
  | inr r => Ret r
  end.
Proof.
  unfold inference at 1.
  destruct (inference_fuel self a (queue ++ [arc])) as [|fuel] eqn:Hf.
  { unfold inference_fuel in Hf. rewrite length_app in Hf. simpl in Hf. lia. }
  simpl. rewrite queue_pop_app.
  destruct (inference_step self a queue arc) as [[[a' queue'']|r]| |] eqn:Hstep; simpl; try done.
  apply inference_step_fuel in Hstep. apply inference_loop_fuel; [|done].
  unfold inference_fuel in *. rewrite length_app in Hf. simpl in Hf. lia.
Qed.

Lemma inference_nil self a : inference self a [] = Ret (a, [], true).
Proof. unfold inference. by destruct (inference_fuel self a []). Qed.

End InferenceFacts.

Section ArcConsistency.
Context {K V : Type} `{!EqDecision K, !EqDecision V}.
#[local] Abbreviation name := (name K).
#[local] Abbreviation CSP := (@CSP K V).
#[local] Abbreviation assignment := (@assignment K V).

Implicit Types (self : CSP) (a : assignment) (i j xi xj : name) (k l : K) (x y : V).
Implicit Types (queue : list (name * name)).

Lemma supported_true self a k l x :
  supported self a k l x = true ↔
  ∃ y, y ∈ domain_of a l ∧ (x, y) ∈ allowed self k l.
Proof.
  unfold supported. rewrite existsb_exists. split.
  - intros (y & Hy%list_elem_of_In & Hxy%bool_decide_eq_true). eauto.
  - intros (y & Hy & Hxy). exists y. split; [by apply list_elem_of_In|].
    by apply bool_decide_eq_true.
Qed.

Lemma elem_of_filter_supported (p : V → bool) (d : list V) x :
  x ∈ List.filter p d ↔ x ∈ d ∧ p x = true.
Proof. rewrite !list_elem_of_In. apply filter_In. Qed.

Lemma network_two_way_table self k l ckl :
  network_two_way self = true →
  table self k l = Some ckl →
  ∃ clk, table self l k = Some clk ∧ ∀ x y, (x, y) ∈ ckl → (y, x) ∈ clk.
Proof.
  unfold network_two_way. rewrite forallb_forall. intros Hall Ht.
  unfold table in Ht. destruct (dict_lookup (constraints self) k) as [ck|] eqn:Hk; [|done].
  simpl in Ht.
  apply dict_lookup_Some_elem in Hk as (n & Hn%list_elem_of_In & <-).
  apply dict_lookup_Some_elem in Ht as (m & Hm%list_elem_of_In & <-).
  specialize (Hall _ Hn). simpl in Hall. rewrite forallb_forall in Hall.
  specialize (Hall _ Hm). simpl in Hall.
  destruct (table self (name_val m) (name_val n)) as [clk|]; [|done].
  exists clk. split; [done|]. intros x y Hxy%list_elem_of_In.
  rewrite forallb_forall in Hall. specialize (Hall _ Hxy).
  by apply bool_decide_eq_true in Hall.
Qed.

Lemma network_two_way_allowed self k l x y :
  network_two_way self = true →
  (x, y) ∈ allowed self k l → (y, x) ∈ allowed self l k.
Proof.
  intros Htw. unfold allowed at 1.
  destruct (table self k l) as [ckl|] eqn:Ht; simpl; [|by intros ?%elem_of_nil].
  destruct (network_two_way_table _ _ _ _ Htw Ht) as (clk & Hlk & Hc).
  unfold allowed. rewrite Hlk. simpl. auto.
Qed.

(** The domains after a call of [revise] that returns. *)
Lemma revise_domains self a xi xj a' b :
  revise self a xi xj = Ret (a', b) →
  domain_of a' (name_val xi) =
    List.filter (supported self a (name_val xi) (name_val xj)) (domain_of a (name_val xi)) ∧
  (∀ k, k ≠ name_val xi → dict_lookup a' k = dict_lookup a k) ∧
  keys a' = keys a.
Proof.
  intros (Hi & _ & -> & _)%revise_Ret. split_and!.
  - unfold domain_of at 1. by rewrite dict_lookup_setitem_eq.
  - intros k Hk. by apply dict_lookup_setitem_ne.
  - by apply keys_setitem.
Qed.

Lemma keys_lookup_is_Some {X} (d d' : dict K X) k :
  keys d' = keys d → is_Some (dict_lookup d k) → is_Some (dict_lookup d' k).
Proof. rewrite !dict_lookup_is_Some_key. by intros ->. Qed.

Lemma revise_shrinks self a xi xj a' b :
  revise self a xi xj = Ret (a', b) → shrinks a a'.
Proof.
  intros H. destruct (revise_domains _ _ _ _ _ _ H) as (Hd & Hne & Hk).
  split; [done|]. intros k x.
  destruct (decide (k = name_val xi)) as [->|Hki].
  - rewrite Hd. by intros [? _]%elem_of_filter_supported.
  - unfold domain_of. by rewrite Hne.
Qed.

Lemma revise_false_same self a xi xj a' :
  revise self a xi xj = Ret (a', false) → a' = a.
Proof.
  intros ([di Hi] & _ & -> & Hb)%revise_Ret.
  rewrite (domain_of_lookup _ _ _ Hi) in *.
  apply setitem_same. rewrite Hi. f_equal. symmetry.
  apply forallb_filter_id. by destruct (forallb _ di).
Qed.

Lemma shrinks_refl a : shrinks a a.
Proof. by split. Qed.

Lemma shrinks_trans a1 a2 a3 : shrinks a1 a2 → shrinks a2 a3 → shrinks a1 a3.
Proof. intros [K1 D1] [K2 D2]. split; [congruence|]. eauto. Qed.

Lemma shrinks_nil a a' k : shrinks a a' → domain_of a k = [] → domain_of a' k = [].
Proof.
  intros [_ Hd] He. destruct (domain_of a' k) as [|x d] eqn:E; [done|].
  specialize (Hd k x). rewrite E, He in Hd.
  exfalso. eapply elem_of_nil, Hd. left.
Qed.

(** Shrinking the domain of [k] keeps the arc [(k, l)] stable as long as
    the domain of [l] is what it was. *)
Lemma stable_shrinks self a a' k l :
  shrinks a a' → domain_of a' l = domain_of a l →
  stable self a k l → stable self a' k l.
Proof.
  intros Hs Hl (Hk & Hst). pose proof Hs as [Hkeys Hd].
  split; [by eapply keys_lookup_is_Some|].
  destruct Hst as [He|(Hls & Ht & Hsup)]; [left; by eapply shrinks_nil|right].
  split_and!; [by eapply keys_lookup_is_Some|done|].
  intros x Hx%Hd. specialize (Hsup x Hx).
  unfold supported in *. by rewrite Hl.
Qed.

(** [revise] leaves the arc it was called on stable. *)
Lemma revise_stable self a xi xj a' b :
  network_two_way self = true →
  revise self a xi xj = Ret (a', b) →
  stable self a' (name_val xi) (name_val xj).
Proof.
  intros Htw H. pose proof (revise_shrinks _ _ _ _ _ _ H) as Hs.
  destruct (revise_domains _ _ _ _ _ _ H) as (Hd & Hne & Hkeys).
  apply revise_Ret in H as (Hi & Hj & _ & _).
  split; [by eapply keys_lookup_is_Some|].
  destruct (decide (domain_of a' (name_val xi) = [])) as [E|E]; [by left|right].
  assert (∃ x0, x0 ∈ domain_of a' (name_val xi)) as [x0 Hx0].
  { destruct (domain_of a' (name_val xi)) as [|x0 ?]; [done|]. exists x0. left. }
  rewrite Hd in Hx0. apply elem_of_filter_supported in Hx0 as [Hx0 Hs0].
  destruct Hj as [Hj Ht]; [by intros E'; rewrite E' in Hx0; apply elem_of_nil in Hx0|].
  apply supported_true in Hs0 as (y0 & Hy0 & _).
  specialize (Ht ltac:(by intros E'; rewrite E' in Hy0; apply elem_of_nil in Hy0)).
  split_and!; [by eapply keys_lookup_is_Some|done|].
  intros x. rewrite Hd. intros [Hx Hsx]%elem_of_filter_supported.
  apply supported_true in Hsx as (y & Hy & Hxy). apply supported_true.
  exists y. split; [|done].
  destruct (decide (name_val xj = name_val xi)) as [Eij|Nij].
  - rewrite Eij in *. rewrite Hd. apply elem_of_filter_supported. split; [done|].
    apply supported_true. exists x. split; [done|].
    by apply network_two_way_allowed.
  - unfold domain_of. by rewrite Hne.
Qed.

(** [revise] on [(xi, xj)] leaves the reverse arc stable when it was. *)
Lemma revise_stable_reverse self a xi xj a' b :
  network_two_way self = true →
  revise self a xi xj = Ret (a', b) →
  stable self a (name_val xj) (name_val xi) →
  stable self a' (name_val xj) (name_val xi).
Proof.
  intros Htw H Hst.
  destruct (decide (name_val xj = name_val xi)) as [Eij|Nij].
  { rewrite Eij. rewrite <- Eij at 2. by eapply revise_stable. }
  pose proof (revise_shrinks _ _ _ _ _ _ H) as Hs.
  destruct (revise_domains _ _ _ _ _ _ H) as (Hd & Hne & Hkeys).
  assert (domain_of a' (name_val xj) = domain_of a (name_val xj)) as Hdj.
  { unfold domain_of. by rewrite Hne. }
  destruct Hst as (Hj & Hst). split; [by eapply keys_lookup_is_Some|].
  destruct Hst as [He|(Hi & Ht & Hsup)]; [left; by rewrite Hdj|right].
  split_and!; [by eapply keys_lookup_is_Some|done|].
  rewrite Hdj. intros y Hy. specialize (Hsup y Hy).
  apply supported_true in Hsup as (x & Hx & Hyx). apply supported_true.
  exists x. split; [|done]. rewrite Hd. apply elem_of_filter_supported.
  split; [done|]. apply supported_true. exists y. split; [done|].
  by apply network_two_way_allowed.
Qed.

(** [revise] on [(xi, xj)] leaves every arc that does not point at [xi]
    stable when it was. *)
Lemma revise_stable_other self a xi xj a' b k l :
  revise self a xi xj = Ret (a', b) →
  l ≠ name_val xi →
  stable self a k l → stable self a' k l.
Proof.
  intros H Hl. apply stable_shrinks; [by eapply revise_shrinks|].
  destruct (revise_domains _ _ _ _ _ _ H) as (_ & Hne & _).
  unfold domain_of. by rewrite Hne.
Qed.

End ArcConsistency.

Section Propagation.
Context {K V : Type} `{!EqDecision K, !EqDecision V}.
#[local] Abbreviation name := (name K).
#[local] Abbreviation CSP := (@CSP K V).
#[local] Abbreviation assignment := (@assignment K V).

Implicit Types (self : CSP) (a : assignment) (i j xi xj : name) (k l : K) (x y : V).
Implicit Types (queue : list (name * name)) (W : K → K → Prop).

Lemma queued_app queue1 queue2 k l :
  queued (queue1 ++ queue2) k l ↔ queued queue1 k l ∨ queued queue2 k l.
Proof.
  unfold queued. split.
  - intros (n & m & [H|H]%elem_of_app & ? & ?); [left|right]; eauto.
  - intros [(n & m & H & ? & ?)|(n & m & H & ? & ?)]; exists n, m;
      (split; [apply elem_of_app; auto|done]).
Qed.

Lemma queued_singleton xi xj k l :
  queued [(xi, xj)] k l ↔ k = name_val xi ∧ l = name_val xj.
Proof.
  unfold queued. split.
  - intros (n & m & [= -> ->]%list_elem_of_singleton & <- & <-). done.
  - intros [-> ->]. exists xi, xj. split; [by apply list_elem_of_singleton|done].
Qed.

Lemma elem_of_requeue (nb : list (name * name)) xi xj (n m : name) :
  (n, m) ∈ nb → name_val n ≠ name_val xj → (n, xi) ∈ requeue nb xi xj.
Proof.
  intros Hin Hne. unfold requeue. apply list_elem_of_In, in_flat_map.
  exists (n, m). split; [by apply list_elem_of_In|]. simpl.
  rewrite decide_False by (by intros ->). by left.
Qed.

Lemma elem_of_requeue_inv (nb : list (name * name)) xi xj (arc : name * name) :
  arc ∈ requeue nb xi xj → ∃ n m, (n, m) ∈ nb ∧ n ≠ xj ∧ arc = (n, xi).
Proof.
  unfold requeue. intros ([n m] & Hin & Harc)%list_elem_of_In%in_flat_map.
  simpl in Harc. destruct (decide (n = xj)) as [|Hne]; [done|].
  destruct Harc as [<-|[]]. exists n, m. split_and!; [by apply list_elem_of_In|done..].
Qed.

(** The arcs [get_all_neighboring_arcs] returns: one for every key of
    [self.constraints[var]]. *)
Lemma neighboring_arcs_queued self xi nb k :
  get_all_neighboring_arcs self xi = Ret nb →
  is_Some (table self (name_val xi) k) →
  ∃ n, (n, xi) ∈ nb ∧ name_val n = k.
Proof.
  unfold get_all_neighboring_arcs, table. intros H Ht. inv_bind H.
  apply getitem_Ret in H0. rewrite H0 in Ht. simpl in Ht.
  injection H as <-. apply dict_lookup_is_Some_key in Ht as (n & Hn & Hk).
  exists n. split; [|done]. apply list_elem_of_In.
  apply (in_map (fun i => (i, xi))). by apply list_elem_of_In.
Qed.

Lemma inference_step_inl self a queue xi xj a' queue' :
  inference_step self a queue (xi, xj) = Ret (inl (a', queue')) →
  ∃ b, revise self a xi xj = Ret (a', b) ∧
    ((b = false ∧ queue' = queue) ∨
     (b = true ∧ domain_of a' (name_val xi) ≠ [] ∧
      ∃ nb, get_all_neighboring_arcs self xi = Ret nb ∧
            queue' = queue ++ requeue nb xi xj)).
Proof.
  unfold inference_step. intros H. inv_bind H. destruct r as [a1 b].
  destruct b.
  - inv_bind H. apply getitem_Ret in H1.
    destruct (bool_decide (length r = 0)) eqn:Hlen; [discriminate|].
    inv_bind H. injection H as <- <-. exists true. split; [done|right].
    split_and!; [done| |eauto].
    rewrite (domain_of_lookup _ _ _ H1). apply bool_decide_eq_false in Hlen.
    by destruct r.
  - injection H as <- <-. exists false. split; [done|by left].
Qed.

Lemma inference_step_inr self a queue xi xj a' queue' r :
  inference_step self a queue (xi, xj) = Ret (inr (a', queue', r)) →
  revise self a xi xj = Ret (a', true) ∧ domain_of a' (name_val xi) = [] ∧
  queue' = queue ∧ r = false.
Proof.
  unfold inference_step. intros H. inv_bind H. destruct r0 as [a1 b].
  destruct b; [|discriminate].
  inv_bind H. apply getitem_Ret in H1.
  destruct (bool_decide (length r0 = 0)) eqn:Hlen.
  - injection H as <- <- <-. split_and!; try done.
    rewrite (domain_of_lookup _ _ _ H1). apply bool_decide_eq_true in Hlen.
    by destruct r0.
  - inv_bind H. discriminate.
Qed.

(** One turn of the loop keeps the AC-3 invariant. *)
Lemma settled_step self a queue xi xj a' queue' W :
  network_two_way self = true →
  settled self a (queue ++ [(xi, xj)]) W →
  inference_step self a queue (xi, xj) = Ret (inl (a', queue')) →
  settled self a' queue' W.
Proof.
  intros Htw Hinv (b & Hrev & Hcase)%inference_step_inl k l HW.
  pose proof (revise_stable _ _ _ _ _ _ Htw Hrev) as Hpopped.
  assert (queued queue k l → queued queue' k l) as Hq.
  { destruct Hcase as [[_ ->]|(_ & _ & nb & _ & ->)]; [done|].
    intros ?. apply queued_app. by left. }
  destruct (Hinv k l HW) as [Hst|[Hin|[-> ->]%queued_singleton]%queued_app];
    [|by right; auto|by left].
  destruct Hcase as [[-> ->]|(-> & Hne & nb & Hnb & ->)].
  { apply revise_false_same in Hrev as ->. by left. }
  destruct (decide (l = name_val xi)) as [->|Hl];
    [|left; by eapply revise_stable_other].
  destruct (decide (k = name_val xj)) as [->|Hk];
    [left; by eapply revise_stable_reverse|].
  destruct Hst as (Hks & [He|(_ & [ckl Ht] & _)]).
  { left. split; [eapply keys_lookup_is_Some; [|done]|left].
    - by eapply revise_domains.
    - eapply shrinks_nil; [|done]. by eapply revise_shrinks. }
  destruct (network_two_way_table _ _ _ _ Htw Ht) as (clk & Hlk & _).
  destruct (neighboring_arcs_queued _ _ _ k Hnb) as (n & Hn & <-); [by rewrite Hlk|].
  right. apply queued_app. right. exists n, xi. split; [|done].
  by eapply elem_of_requeue.
Qed.

(** Induction over the turns of the loop of [inference]. *)
Lemma inference_induction self (P : assignment → list (name * name) → Prop) :
  (∀ a, P a []) →
  (∀ a queue arc,
     (∀ a' queue', inference_step self a queue arc = Ret (inl (a', queue')) → P a' queue') →
     P a (queue ++ [arc])) →
  ∀ a queue, P a queue.
Proof.
  intros Hnil Hstep a queue.
  remember (inference_fuel self a queue) as n eqn:Hn.
  revert a queue Hn. induction (lt_wf n) as [n _ IH]. intros a queue ->.
  destruct queue as [|arc queue _] using rev_ind; [apply Hnil|].
  apply Hstep. intros a' queue' Hs. eapply IH; [|done].
  apply inference_step_fuel in Hs. unfold inference_fuel in *.
  rewrite length_app. simpl. lia.
Qed.

(** A run of [inference] takes no key and adds no value. *)
Lemma inference_shrinks self a queue a' queue' r :
  inference self a queue = Ret (a', queue', r) → shrinks a a'.
Proof.
  revert a' queue' r. pattern a, queue. apply (inference_induction self); clear a queue.
  - intros a a' queue' r. rewrite inference_nil. intros [= <- _ _]. apply shrinks_refl.
  - intros a queue [xi xj] IH a' queue' r. rewrite inference_unfold. intros H.
    inv_bind H. destruct r0 as [[a1 q1]|[[a1 q1] r1]].
    + eapply shrinks_trans; [|by eapply IH].
      apply inference_step_inl in H0 as (b & Hrev & _). by eapply revise_shrinks.
    + injection H as <- <- <-.
      apply inference_step_inr in H0 as (Hrev & _). by eapply revise_shrinks.
Qed.

(** When [inference] returns [True] the queue is empty and every arc of a
    set that satisfied the AC-3 invariant is stable. *)
Lemma inference_settles self a queue a' queue' W :
  network_two_way self = true →
  settled self a queue W →
  inference self a queue = Ret (a', queue', true) →
  queue' = [] ∧ ∀ k l, W k l → stable self a' k l.
Proof.
  intros Htw. revert a' queue'. pattern a, queue. apply (inference_induction self); clear a queue.
  - intros a a' queue' Hinv. rewrite inference_nil. intros [= <- <-].
    split; [done|]. intros k l HW. destruct (Hinv k l HW) as [?|(n & m & Hin & _)]; [done|].
    by apply elem_of_nil in Hin.
  - intros a queue [xi xj] IH a' queue' Hinv. rewrite inference_unfold. intros H.
    inv_bind H. destruct r as [[a1 q1]|[[a1 q1] r1]].
    + eapply IH; [done| |done]. by eapply settled_step.
    + injection H as <- <- ->. apply inference_step_inr in H0 as (_ & _ & _ & ?). done.
Qed.

End Propagation.

Section PropagationResults.
Context {K V : Type} `{!EqDecision K, !EqDecision V}.
#[local] Abbreviation name := (name K).
#[local] Abbreviation CSP := (@CSP K V).
#[local] Abbreviation assignment := (@assignment K V).

Implicit Types (self : CSP) (a : assignment) (i j xi xj : name) (k l : K) (x y : V).
Implicit Types (queue : list (name * name)) (W : K → K → Prop).

Lemma no_wipeout_elem a :
  no_wipeout a = true ↔ ∀ n d, (n, d) ∈ a → d ≠ [].
Proof.
  unfold no_wipeout. rewrite forallb_forall. split.
  - intros H n d Hin%list_elem_of_In. specialize (H _ Hin). simpl in H.
    apply negb_true_iff, bool_decide_eq_false in H. by destruct d.
  - intros H [n d] Hin%list_elem_of_In. simpl.
    apply negb_true_iff, bool_decide_eq_false. specialize (H _ _ Hin). by destruct d.
Qed.

Lemma no_wipeout_lookup a k d :
  no_wipeout a = true → dict_lookup a k = Some d → d ≠ [].
Proof.
  intros H (n & Hin & _)%dict_lookup_Some_elem. by eapply no_wipeout_elem.
Qed.

Lemma elem_of_setitem {X} (d : dict K X) (n n' : name) (x x' : X) :
  (n', x') ∈ setitem d n x → (n', x') ∈ d ∨ x' = x.
Proof.
  induction d as [|[m y] d IH]; simpl.
  - intros [= -> ->]%list_elem_of_singleton. by right.
  - destruct (decide (name_val m = name_val n)).
    + intros [[= -> ->]|?]%elem_of_cons; [by right|left; by right].
    + intros [[= -> ->]|?]%elem_of_cons; [left; left|].
      destruct IH as [?|?]; [done|left; by right|by right].
Qed.

Lemma no_wipeout_setitem a (n : name) (d : list V) :
  no_wipeout a = true → d ≠ [] → no_wipeout (setitem a n d) = true.
Proof.
  rewrite !no_wipeout_elem. intros H Hd n' d' [?| ->]%elem_of_setitem; eauto.
Qed.

(** A turn of the loop that goes on has wiped out no domain. *)
Lemma inference_step_no_wipeout self a queue xi xj a' queue' :
  no_wipeout a = true →
  inference_step self a queue (xi, xj) = Ret (inl (a', queue')) →
  no_wipeout a' = true.
Proof.
  intros Hnw (b & Hrev & [[-> _]|(_ & Hne & _)])%inference_step_inl.
  - by apply revise_false_same in Hrev as ->.
  - destruct (revise_domains _ _ _ _ _ _ Hrev) as (Hd & _ & _).
    apply revise_Ret in Hrev as (_ & _ & -> & _).
    apply no_wipeout_setitem; [done|]. by rewrite <- Hd.
Qed.

Lemma inference_no_wipeout self a queue a' queue' :
  no_wipeout a = true →
  inference self a queue = Ret (a', queue', true) →
  no_wipeout a' = true.
Proof.
  revert a' queue'. pattern a, queue. apply (inference_induction self); clear a queue.
  - intros a a' queue' Hnw. rewrite inference_nil. by intros [= <- _].
  - intros a queue [xi xj] IH a' queue' Hnw. rewrite inference_unfold. intros H.
    inv_bind H. destruct r as [[a1 q1]|[[a1 q1] r1]].
    + eapply IH; [done| |done]. by eapply inference_step_no_wipeout.
    + injection H as <- <- ->. by apply inference_step_inr in H0 as (_ & _ & _ & ?).
Qed.

Lemma inference_size self a queue a' queue' r :
  inference self a queue = Ret (a', queue', r) → total_size a' ≤ total_size a.
Proof.
  revert a' queue' r. pattern a, queue. apply (inference_induction self); clear a queue.
  - intros a a' queue' r. rewrite inference_nil. by intros [= <- _ _].
  - intros a queue [xi xj] IH a' queue' r. rewrite inference_unfold. intros H.
    inv_bind H. destruct r0 as [[a1 q1]|[[a1 q1] r1]].
    + specialize (IH _ _ H0 _ _ _ H).
      apply inference_step_inl in H0 as (b & [Hs _]%revise_size & _). lia.
    + injection H as <- <- <-.
      by apply inference_step_inr in H0 as ([Hs _]%revise_size & _).
Qed.

(** On a stable arc [revise] deletes nothing and returns [False]. *)
Lemma stable_revise self a xi xj :
  stable self a (name_val xi) (name_val xj) → revise self a xi xj = Ret (a, false).
Proof.
  intros (Hi & Hst). rewrite revise_ok; [|done|].
  - assert (forallb (supported self a (name_val xi) (name_val xj))
              (domain_of a (name_val xi)) = true) as Hall.
    { destruct Hst as [->|(_ & _ & Hsup)]; [done|].
      apply forallb_forall. intros x Hx%list_elem_of_In. auto. }
    rewrite Hall. simpl. f_equal. f_equal. apply setitem_same.
    destruct Hi as [di Hi]. rewrite (domain_of_lookup _ _ _ Hi), Hi. f_equal.
    rewrite (domain_of_lookup _ _ _ Hi) in Hall. symmetry. by apply forallb_filter_id.
  - destruct Hst as [?|(? & ? & _)]; [by left|right]. split; [done|by right].
Qed.

(** A worklist of stable arcs is worked off without a change. *)
Lemma inference_stable self a queue :
  (∀ n m, (n, m) ∈ queue → stable self a (name_val n) (name_val m)) →
  inference self a queue = Ret (a, [], true).
Proof.
  induction queue as [|[xi xj] queue IH] using rev_ind; intros Hst.
  - apply inference_nil.
  - rewrite inference_unfold. unfold inference_step.
    rewrite stable_revise by (apply Hst, elem_of_app; right; left). simpl.
    apply IH. intros n m Hin. apply Hst, elem_of_app. by left.
Qed.

End PropagationResults.

Section SameNetwork.
Context {K V : Type} `{!EqDecision K, !EqDecision V}.
#[local] Abbreviation name := (name K).
#[local] Abbreviation CSP := (@CSP K V).
#[local] Abbreviation assignment := (@assignment K V).

Implicit Types (self s : CSP) (a : assignment) (i j xi xj : name) (k l : K) (x y : V).
Implicit Types (queue : list (name * name)).

(** The propagation reads nothing of [self] but the constraint tables, so
    it does not see the counters change. *)
Lemma revise_possible_network self s i j x (dj : list V) :
  constraints s = constraints self →
  revise_possible s i j x dj = revise_possible self i j x dj.
Proof. intros E. induction dj as [|y dj IH]; simpl; [done|]. by rewrite E, IH. Qed.

Lemma revise_scan_network self s a i j (di : list V) :
  constraints s = constraints self →
  revise_scan s a i j di = revise_scan self a i j di.
Proof.
  intros E. induction di as [|x di IH]; simpl; [done|]. rewrite IH.
  destruct (getitem a j); simpl; [|done..]. by rewrite (revise_possible_network self s).
Qed.

Lemma revise_network self s a i j :
  constraints s = constraints self → revise s a i j = revise self a i j.
Proof.
  intros E. unfold revise. destruct (getitem a i); simpl; [|done..].
  by rewrite (revise_scan_network self s).
Qed.

Lemma neighboring_arcs_network self s i :
  constraints s = constraints self →
  get_all_neighboring_arcs s i = get_all_neighboring_arcs self i.
Proof. intros E. unfold get_all_neighboring_arcs. by rewrite E. Qed.

Lemma inference_step_network self s a queue arc :
  constraints s = constraints self →
  inference_step s a queue arc = inference_step self a queue arc.
Proof.
  intros E. unfold inference_step. destruct arc as [xi xj].
  rewrite (revise_network self s) by done.
  by rewrite (neighboring_arcs_network self s).
Qed.

Lemma inference_network self s a queue :
  constraints s = constraints self → inference s a queue = inference self a queue.
Proof.
  intros E. unfold inference, inference_fuel, arc_count. rewrite E.
  generalize (total_size a * S (sum_list (map (fun e => length e.2) (constraints self)))
              + length queue).
  intros fuel. revert a queue. induction fuel as [|fuel IH]; intros a queue; simpl; [done|].
  destruct (queue_pop queue) as [[queue' arc]|]; [|done].
  rewrite (inference_step_network self s) by done.
  destruct (inference_step self a queue' arc) as [[[a' q']|r]| |]; simpl; auto.
Qed.

Lemma table_network self s k l :
  constraints s = constraints self → table s k l = table self k l.
Proof. intros E. unfold table. by rewrite E. Qed.

Lemma stable_network self s a k l :
  constraints s = constraints self → stable s a k l ↔ stable self a k l.
Proof.
  intros E. unfold stable, supported, allowed.
  by rewrite !(table_network self s k l E).
Qed.

Lemma consistent_network self s a :
  constraints s = constraints self → consistent self a → consistent s a.
Proof.
  intros E [Hnw Hst]. split; [done|]. intros k l Ht.
  apply (stable_network self s); [done|]. apply Hst. by rewrite <- (table_network self s).
Qed.

Lemma forallb_pointwise {A} (f g : A → bool) (l : list A) :
  (∀ e, f e = g e) → forallb f l = forallb g l.
Proof. intros E. induction l as [|e l' IH]; simpl; [done|]. by rewrite E, IH. Qed.

Lemma network_two_way_network self s :
  constraints s = constraints self → network_two_way s = network_two_way self.
Proof.
  intros E. unfold network_two_way. rewrite E.
  apply forallb_pointwise. intros ei. apply forallb_pointwise. intros ej.
  by rewrite (table_network self s).
Qed.

End SameNetwork.

Section Search.
Context {K V : Type} `{!EqDecision K, !EqDecision V}.
#[local] Abbreviation name := (name K).
#[local] Abbreviation CSP := (@CSP K V).
#[local] Abbreviation assignment := (@assignment K V).
#[local] Abbreviation search_result := (@search_result K V).

Implicit Types (self s : CSP) (a sol : assignment) (v : name) (k l : K) (x y : V).
Implicit Types (rec : CSP → assignment → result (CSP * search_result)).

Lemma select_unassigned_variable_Some a v :
  select_unassigned_variable a = Some v →
  v ∈ keys a ∧ ∃ d, dict_lookup a (name_val v) = Some d ∧ 1 < length d.
Proof.
  unfold select_unassigned_variable. intros [Hin Hv]%find_some.
  split; [by apply list_elem_of_In|].
  destruct (dict_lookup a (name_val v)) as [d|]; [|done].
  exists d. split; [done|]. by apply bool_decide_eq_true in Hv.
Qed.

Lemma select_unassigned_variable_None a k d :
  select_unassigned_variable a = None →
  dict_lookup a k = Some d → length d ≤ 1.
Proof.
  unfold select_unassigned_variable. intros Hnone Hk.
  assert (is_Some (dict_lookup a k)) as (n & Hn & <-)%dict_lookup_is_Some_key by eauto.
  apply list_elem_of_In in Hn. pose proof (find_none _ _ Hnone _ Hn) as Hf.
  simpl in Hf. rewrite Hk in Hf. apply bool_decide_eq_false in Hf. lia.
Qed.

Lemma assignment_done_true a :
  assignment_done a = true ↔ ∀ k d, dict_lookup a k = Some d → length d ≤ 1.
Proof.
  unfold assignment_done. rewrite forallb_forall. split.
  - intros H k d Hk.
    assert (is_Some (dict_lookup a k)) as (n & Hn & <-)%dict_lookup_is_Some_key by eauto.
    apply list_elem_of_In in Hn. specialize (H _ Hn). simpl in H. rewrite Hk in H.
    apply negb_true_iff, bool_decide_eq_false in H. lia.
  - intros H n Hn. destruct (dict_lookup a (name_val n)) as [d|] eqn:E; [|done].
    apply negb_true_iff, bool_decide_eq_false. specialize (H _ _ E). lia.
Qed.

Lemma assignment_done_select a :
  assignment_done a = true ↔ select_unassigned_variable a = None.
Proof.
  rewrite assignment_done_true. split.
  - intros H. destruct (select_unassigned_variable a) as [v|] eqn:E; [|done].
    apply select_unassigned_variable_Some in E as (_ & d & Hd & Hlen).
    specialize (H _ _ Hd). lia.
  - intros H k d. by apply select_unassigned_variable_None.
Qed.

(** The search changes the two counters of [self] and nothing else. *)
Lemma backtrack_loop_constraints rec self a v (cands : list V) self' r :
  (∀ s a1 s' r', rec s a1 = Ret (s', r') → constraints s' = constraints s) →
  backtrack_loop rec self a v cands = Ret (self', r) →
  constraints self' = constraints self.
Proof.
  intros Hrec. revert self. induction cands as [|x cands IH]; intros self H; simpl in H.
  - by injection H as <- <-.
  - inv_bind H. inv_bind H. destruct r1 as [[a1 q1] ok]. destruct ok; [|by apply IH].
    inv_bind H. destruct r1 as [s1 r1]. apply Hrec in H2.
    destruct (truthy r1); [by injection H as <- <-|].
    rewrite <- H2. by apply IH.
Qed.

Lemma backtrack_fuel_constraints fuel self a self' r :
  backtrack_fuel fuel self a = Ret (self', r) → constraints self' = constraints self.
Proof.
  revert self a self' r. induction fuel as [|fuel IH]; intros self a self' r H; [done|].
  simpl in H. destruct (assignment_done a); [by injection H as <- <-|].
  destruct (select_unassigned_variable a) as [v|]; [|done].
  inv_bind H. apply backtrack_loop_constraints in H; [done|]. intros ????. apply IH.
Qed.

(** The loop over the candidate values comes to an end when the recursive
    call does on every assignment with fewer values. *)
Lemma backtrack_loop_runs rec self a v d (cands : list V) :
  (∀ s a1, total_size a1 < total_size a → rec s a1 ≠ OutOfFuel) →
  dict_lookup a (name_val v) = Some d → 1 < length d →
  backtrack_loop rec self a v cands ≠ OutOfFuel.
Proof.
  intros Hrec Hv Hlen. revert self.
  induction cands as [|x cands IH]; intros self; simpl; [discriminate|].
  apply bind_not_OutOfFuel.
  { unfold get_all_neighboring_arcs.
    apply bind_not_OutOfFuel; [apply getitem_not_OutOfFuel|]. discriminate. }
  intros arcs _. apply bind_not_OutOfFuel; [apply inference_total|].
  intros [[a1 q1] ok] Hinf. destruct ok; [|apply IH].
  apply bind_not_OutOfFuel.
  - apply Hrec. apply inference_size in Hinf.
    pose proof (total_size_setitem a v d [x] Hv). simpl in *. lia.
  - intros [s1 r1] _. destruct (truthy r1); [discriminate|apply IH].
Qed.

Lemma backtrack_fuel_runs fuel self a :
  total_size a < fuel → backtrack_fuel fuel self a ≠ OutOfFuel.
Proof.
  revert self a. induction fuel as [|fuel IH]; intros self a Hf; [lia|].
  simpl. destruct (assignment_done a); [discriminate|].
  destruct (select_unassigned_variable a) as [v|] eqn:Hsel; [|discriminate].
  apply select_unassigned_variable_Some in Hsel as (_ & d & Hd & Hlen).
  unfold getitem. rewrite Hd. simpl.
  eapply backtrack_loop_runs; [|done..]. intros s a1 Hlt. apply IH. lia.
Qed.

(** [backtrack] and [backtracking_search] always come to an end: they
    return or raise. *)
Lemma backtrack_total self a : backtrack self a ≠ OutOfFuel.
Proof. apply backtrack_fuel_runs. lia. Qed.

(** On every network [backtracking_search] comes to an end: the loop of
    [inference] and the recursion of [backtrack] are never cut off. *)
Lemma backtracking_search_total self : backtracking_search self ≠ OutOfFuel.
Proof.
  unfold backtracking_search. apply bind_not_OutOfFuel; [apply inference_total|].
  intros [[a q] ok] _. apply backtrack_total.
Qed.

End Search.

Section Soundness.
Context {K V : Type} `{!EqDecision K, !EqDecision V}.
#[local] Abbreviation name := (name K).
#[local] Abbreviation CSP := (@CSP K V).
#[local] Abbreviation assignment := (@assignment K V).
#[local] Abbreviation search_result := (@search_result K V).

Implicit Types (self s : CSP) (a sol : assignment) (v : name) (k l : K) (x y : V).
Implicit Types (rec : CSP → assignment → result (CSP * search_result)).

(** [get_all_arcs] lists every registered arc. *)
Lemma all_arcs_queued self k l :
  is_Some (table self k l) → queued (get_all_arcs self) k l.
Proof.
  unfold table. intros [ckl Ht].
  destruct (dict_lookup (constraints self) k) as [ck|] eqn:Hk; [|done]. simpl in Ht.
  apply dict_lookup_Some_elem in Hk as (n & Hn & <-).
  assert (is_Some (dict_lookup ck l)) as (m & Hm & <-)%dict_lookup_is_Some_key by eauto.
  exists n, m. split; [|done]. unfold get_all_arcs.
  apply list_elem_of_In, in_flat_map. exists (n, ck). split; [by apply list_elem_of_In|].
  simpl. apply (in_map (fun j => (n, j))). by apply list_elem_of_In.
Qed.

Lemma setitem_choice_shrinks a v d x :
  dict_lookup a (name_val v) = Some d → x ∈ d → shrinks a (setitem a v [x]).
Proof.
  intros Hv Hx. split; [apply keys_setitem; eauto|].
  intros k x'. unfold domain_of. rewrite dict_lookup_setitem.
  destruct (decide (k = name_val v)) as [->|_]; [|done].
  simpl. rewrite Hv. simpl. by intros ->%list_elem_of_singleton.
Qed.

(** Forcing a variable to one of its values leaves the AC-3 invariant on
    the arcs [get_all_neighboring_arcs] returns for it. *)
Lemma setitem_choice_settled self a v d x arcs :
  network_two_way self = true →
  consistent self a →
  dict_lookup a (name_val v) = Some d → x ∈ d →
  get_all_neighboring_arcs self v = Ret arcs →
  settled self (setitem a v [x]) arcs (fun k l => is_Some (table self k l)).
Proof.
  intros Htw [_ Hst] Hv Hx Harcs k l [ckl Ht].
  destruct (decide (l = name_val v)) as [->|Hl].
  - right. destruct (network_two_way_table _ _ _ _ Htw Ht) as (clk & Hlk & _).
    destruct (neighboring_arcs_queued _ _ _ k Harcs) as (n & Hn & <-); [by rewrite Hlk|].
    by exists n, v.
  - left. eapply stable_shrinks; [by eapply setitem_choice_shrinks| |apply Hst; eauto].
    unfold domain_of. by rewrite dict_lookup_setitem_ne.
Qed.

Lemma backtrack_loop_sound rec self a v d (cands : list V) self' sol :
  (∀ s a1 s' r, rec s a1 = Ret (s', r) → constraints s' = constraints s) →
  (∀ s a1 s' sol', network_two_way s = true → consistent s a1 →
     rec s a1 = Ret (s', Some sol') → solved s a1 sol') →
  network_two_way self = true → consistent self a →
  dict_lookup a (name_val v) = Some d → (∀ x, x ∈ cands → x ∈ d) →
  backtrack_loop rec self a v cands = Ret (self', Some sol) →
  solved self a sol.
Proof.
  intros Hnet Hrec Htw Hcons Hv. revert self Htw Hcons.
  induction cands as [|x cands IH]; intros self Htw Hcons Hsub H; simpl in H; [done|].
  assert (x ∈ d) as Hx by (apply Hsub; left).
  assert (∀ x', x' ∈ cands → x' ∈ d) as Hsub' by (intros ??; apply Hsub; by right).
  inv_bind H. inv_bind H. destruct r0 as [[a1 q1] ok].
  destruct ok; [|by apply IH].
  inv_bind H. destruct r0 as [s1 r1].
  pose proof (Hnet _ _ _ _ H2) as Es1.
  destruct (truthy r1).
  - injection H as <- ->.
    assert (consistent self a1) as Hcons1.
    { split.
      - eapply inference_no_wipeout; [|done]. apply no_wipeout_setitem; [apply Hcons|done].
      - eapply inference_settles; [done| |done]. by eapply setitem_choice_settled. }
    destruct (Hrec _ _ _ _ Htw Hcons1 H2) as (Hs & Hdone & Hc).
    split_and!; [|done..].
    eapply shrinks_trans; [by eapply setitem_choice_shrinks|].
    eapply shrinks_trans; [by eapply inference_shrinks|done].
  - assert (solved s1 a sol) as (? & ? & ?).
    { apply IH; [by rewrite (network_two_way_network self)
                |by apply (consistent_network self)|done..]. }
    split_and!; [done..|]. by apply (consistent_network s1).
Qed.

Lemma backtrack_fuel_sound fuel self a self' sol :
  network_two_way self = true → consistent self a →
  backtrack_fuel fuel self a = Ret (self', Some sol) →
  solved self a sol.
Proof.
  revert self a self' sol.
  induction fuel as [|fuel IH]; intros self a self' sol Htw Hcons H; [done|].
  simpl in H. destruct (assignment_done a) eqn:Hdone.
  - injection H as <- <-. split_and!; [apply shrinks_refl|done..].
  - destruct (select_unassigned_variable a) as [v|] eqn:Hsel; [|done].
    inv_bind H. apply getitem_Ret in H0.
    eapply (backtrack_loop_sound _ (count_call self)); [| | | | | |done].
    + intros ????. apply backtrack_fuel_constraints.
    + intros ????. apply IH.
    + exact Htw.
    + exact Hcons.
    + exact H0.
    + done.
Qed.

(** What a complete consistent assignment says of a variable and of a
    registered arc. *)
Lemma solved_variable self a sol k :
  solved self a sol → is_Some (dict_lookup a k) →
  ∃ x, dict_lookup sol k = Some [x] ∧ x ∈ domain_of a k.
Proof.
  intros ([Hkeys Hsub] & Hdone & Hnw & _) Hk.
  assert (is_Some (dict_lookup sol k)) as [d Hd] by (by eapply keys_lookup_is_Some).
  pose proof (no_wipeout_lookup _ _ _ Hnw Hd) as Hne.
  rewrite assignment_done_true in Hdone. specialize (Hdone _ _ Hd).
  destruct d as [|x [|??]]; [done| |simpl in Hdone; lia].
  exists x. split; [done|]. apply Hsub. rewrite (domain_of_lookup _ _ _ Hd). left.
Qed.

Lemma solved_arc self a sol k l :
  solved self a sol → is_Some (table self k l) →
  ∃ x y, dict_lookup sol k = Some [x] ∧ dict_lookup sol l = Some [y] ∧
         (x, y) ∈ allowed self k l.
Proof.
  intros (_ & Hdone & Hnw & Hst) Ht. rewrite assignment_done_true in Hdone.
  destruct (Hst k l Ht) as ([dk Hk] & Hkl).
  pose proof (no_wipeout_lookup _ _ _ Hnw Hk) as Hne.
  pose proof (Hdone _ _ Hk) as Hlen.
  destruct dk as [|x [|??]]; [done| |simpl in Hlen; lia].
  rewrite (domain_of_lookup _ _ _ Hk) in Hkl.
  destruct Hkl as [?|([dl Hl] & _ & Hsup)]; [done|].
  specialize (Hsup x ltac:(left)).
  apply supported_true in Hsup as (y & Hy & Hxy).
  rewrite (domain_of_lookup _ _ _ Hl) in Hy.
  pose proof (Hdone _ _ Hl) as Hlen'.
  destruct dl as [|y' [|??]]; [by apply elem_of_nil in Hy| |simpl in Hlen'; lia].
  apply list_elem_of_singleton in Hy as ->. eauto.
Qed.

End Soundness.

Section NoException.
Context {K V : Type} `{!EqDecision K, !EqDecision V}.
#[local] Abbreviation name := (name K).
#[local] Abbreviation CSP := (@CSP K V).
#[local] Abbreviation assignment := (@assignment K V).
#[local] Abbreviation search_result := (@search_result K V).

Implicit Types (self s : CSP) (a sol : assignment) (v xi xj : name) (k l : K) (x y : V).
Implicit Types (queue : list (name * name)).
Implicit Types (rec : CSP → assignment → result (CSP * search_result)).

Lemma contains_true {X} (d : dict K X) (n : name) :
  contains d n = true ↔ is_Some (dict_lookup d (name_val n)).
Proof.
  unfold contains. destruct (dict_lookup d (name_val n)) as [x|].
  - split; eauto.
  - split; [done|]. by intros [? ?].
Qed.

Lemma declared_well_declared self a : declared self a = true → well_declared self a.
Proof.
  unfold declared. rewrite andb_true_iff, !forallb_forall. intros [Harc Hvar]. split.
  - intros k l [ckl Ht]. unfold table in Ht.
    destruct (dict_lookup (constraints self) k) as [ck|] eqn:Hk; [|done]. simpl in Ht.
    apply dict_lookup_Some_elem in Hk as (n & Hn%list_elem_of_In & <-).
    apply dict_lookup_Some_elem in Ht as (m & Hm%list_elem_of_In & <-).
    specialize (Harc _ Hn). simpl in Harc. apply andb_true_iff in Harc as [Hn' Hall].
    rewrite forallb_forall in Hall. specialize (Hall _ Hm). simpl in Hall.
    split; by apply contains_true.
  - intros k [d Hd]. apply dict_lookup_Some_elem in Hd as (n & Hin & <-).
    apply list_elem_of_In in Hin. specialize (Hvar _ Hin). by apply contains_true in Hvar.
Qed.

Lemma well_declared_keys self a a' :
  keys a' = keys a → well_declared self a → well_declared self a'.
Proof.
  intros E [Harc Hvar]. split.
  - intros k l Ht. destruct (Harc k l Ht). split; by eapply keys_lookup_is_Some.
  - intros k Hk. apply Hvar. by eapply keys_lookup_is_Some.
Qed.

Lemma well_declared_network self s a :
  constraints s = constraints self → well_declared self a → well_declared s a.
Proof.
  intros E [Harc Hvar]. split.
  - intros k l Ht. apply Harc. by rewrite <- (table_network self s).
  - intros k Hk. rewrite E. by apply Hvar.
Qed.

Lemma table_constraints self k l :
  is_Some (table self k l) → is_Some (dict_lookup (constraints self) k).
Proof.
  unfold table. intros [ckl H]. by destruct (dict_lookup (constraints self) k).
Qed.

Lemma revise_returns self a xi xj :
  well_declared self a → is_Some (table self (name_val xi) (name_val xj)) →
  ∃ res, revise self a xi xj = Ret res.
Proof.
  intros [Harc _] Ht. destruct (Harc _ _ Ht) as [Hi Hj].
  eexists. apply revise_ok; [done|]. right. split; [done|by right].
Qed.

Lemma neighboring_arcs_registered self xi nb (n m : name) :
  network_two_way self = true →
  get_all_neighboring_arcs self xi = Ret nb → (n, m) ∈ nb →
  m = xi ∧ is_Some (table self (name_val n) (name_val xi)).
Proof.
  unfold get_all_neighboring_arcs. intros Htw H Hin. inv_bind H. injection H as <-.
  apply getitem_Ret in H0.
  apply list_elem_of_In, in_map_iff in Hin as (n' & [= -> <-] & Hin%list_elem_of_In).
  split; [done|].
  assert (is_Some (dict_lookup r (name_val n))) as [cik Hcik]
    by (apply dict_lookup_is_Some_key; eauto).
  assert (table self (name_val xi) (name_val n) = Some cik) as Ht
    by (unfold table; by rewrite H0).
  destruct (network_two_way_table _ _ _ _ Htw Ht) as (cki & Hki & _). eauto.
Qed.

Lemma inference_step_returns self a queue xi xj :
  network_two_way self = true → well_declared self a →
  is_Some (table self (name_val xi) (name_val xj)) → all_registered self queue →
  (∃ a' r, inference_step self a queue (xi, xj) = Ret (inr (a', queue, r))) ∨
  (∃ a' queue', inference_step self a queue (xi, xj) = Ret (inl (a', queue')) ∧
                all_registered self queue').
Proof.
  intros Htw Hwd Ht Hq. destruct (revise_returns self a xi xj Hwd Ht) as [[a' b] Hrev].
  unfold inference_step. rewrite Hrev. simpl. destruct b; [|right; eauto].
  destruct (revise_domains _ _ _ _ _ _ Hrev) as (_ & _ & Hkeys).
  assert (is_Some (dict_lookup a' (name_val xi))) as [dxi Hxi].
  { eapply keys_lookup_is_Some; [done|]. by apply revise_Ret in Hrev as (? & _). }
  apply getitem_Ret in Hxi. rewrite Hxi. simpl.
  destruct (bool_decide (length dxi = 0)); [left; eauto|right].
  destruct (table_constraints _ _ _ Ht) as [ci Hci].
  assert (get_all_neighboring_arcs self xi = Ret (map (fun n => (n, xi)) (keys ci))) as Hnb.
  { unfold get_all_neighboring_arcs, getitem. by rewrite Hci. }
  rewrite Hnb. simpl. eexists _, _. split; [done|].
  intros n m [Hin|Hin]%elem_of_app; [by apply Hq|].
  apply elem_of_requeue_inv in Hin as (n' & m' & Hin & _ & [= -> ->]).
  by destruct (neighboring_arcs_registered _ _ _ _ _ Htw Hnb Hin).
Qed.

Lemma inference_returns self a queue :
  network_two_way self = true → well_declared self a → all_registered self queue →
  ∃ res, inference self a queue = Ret res.
Proof.
  intros Htw. pattern a, queue. apply (inference_induction self); clear a queue.
  - intros a _ _. rewrite inference_nil. eauto.
  - intros a queue [xi xj] IH Hwd Hq. rewrite inference_unfold.
    assert (is_Some (table self (name_val xi) (name_val xj))) as Ht
      by (apply Hq, elem_of_app; right; left).
    assert (all_registered self queue) as Hq'
      by (intros n m ?; apply Hq, elem_of_app; by left).
    destruct (inference_step_returns self a queue xi xj Htw Hwd Ht Hq')
      as [(a' & r & E)|(a' & queue' & E & Hq'')]; rewrite E; simpl; [eauto|].
    apply (IH _ _ E); [|done].
    apply inference_step_inl in E as (b & Hrev & _).
    eapply well_declared_keys; [|done]. by eapply revise_domains.
Qed.

Lemma neighboring_arcs_returns self a v :
  network_two_way self = true → well_declared self a →
  is_Some (dict_lookup a (name_val v)) →
  ∃ arcs, get_all_neighboring_arcs self v = Ret arcs ∧ all_registered self arcs.
Proof.
  intros Htw [_ Hvar] Hv. destruct (Hvar _ Hv) as [ci Hci].
  assert (get_all_neighboring_arcs self v = Ret (map (fun n => (n, v)) (keys ci))) as Hnb.
  { unfold get_all_neighboring_arcs, getitem. by rewrite Hci. }
  eexists. split; [done|]. intros n m Hin.
  by destruct (neighboring_arcs_registered _ _ _ _ _ Htw Hnb Hin) as [-> ?].
Qed.

Lemma backtrack_loop_returns rec self a v d (cands : list V) :
  (∀ s a1 s' r, rec s a1 = Ret (s', r) → constraints s' = constraints s) →
  (∀ s a1, constraints s = constraints self → well_declared self a1 →
     total_size a1 < total_size a → ∃ res, rec s a1 = Ret res) →
  network_two_way self = true → well_declared self a →
  dict_lookup a (name_val v) = Some d → 1 < length d →
  ∀ s, constraints s = constraints self →
    ∃ res, backtrack_loop rec s a v cands = Ret res.
Proof.
  intros Hnet Hrec Htw Hwd Hv Hlen.
  destruct (neighboring_arcs_returns self a v Htw Hwd) as (arcs & Harcs & Hreg); [eauto|].
  induction cands as [|x cands IH]; intros s Es; simpl; [eauto|].
  rewrite (neighboring_arcs_network self s), Harcs by done. simpl.
  rewrite (inference_network self s) by done.
  assert (well_declared self (setitem a v [x])) as Hwd'.
  { eapply well_declared_keys; [|done]. apply keys_setitem. eauto. }
  destruct (inference_returns self (setitem a v [x]) arcs Htw Hwd' Hreg)
    as [[[a1 q1] ok] Hinf].
  rewrite Hinf. simpl. destruct ok; [|by apply IH].
  destruct (Hrec s a1 Es) as [[s1 r1] Hr].
  - eapply well_declared_keys; [|exact Hwd']. by eapply inference_shrinks.
  - apply inference_size in Hinf.
    pose proof (total_size_setitem a v d [x] Hv). simpl in *. lia.
  - rewrite Hr. simpl. destruct (truthy r1); [eauto|].
    apply IH. rewrite <- Es. by eapply Hnet.
Qed.

Lemma backtrack_fuel_returns fuel self a :
  total_size a < fuel → network_two_way self = true → well_declared self a →
  ∃ res, backtrack_fuel fuel self a = Ret res.
Proof.
  revert self a. induction fuel as [|fuel IH]; intros self a Hf Htw Hwd; [lia|].
  simpl. destruct (assignment_done a) eqn:Hdone; [eauto|].
  destruct (select_unassigned_variable a) as [v|] eqn:Hsel.
  2:{ apply assignment_done_select in Hsel. congruence. }
  apply select_unassigned_variable_Some in Hsel as (_ & d & Hd & Hlen).
  unfold getitem. rewrite Hd. simpl.
  eapply (backtrack_loop_returns _ self); try done.
  - intros ????. apply backtrack_fuel_constraints.
  - intros s a1 Es Hwd1 Hlt. apply IH; [lia| |by apply (well_declared_network self)].
    by rewrite (network_two_way_network self).
Qed.

End NoException.

Section Completeness.
Context {K V : Type} `{!EqDecision K, !EqDecision V}.
#[local] Abbreviation name := (name K).
#[local] Abbreviation CSP := (@CSP K V).
#[local] Abbreviation assignment := (@assignment K V).
#[local] Abbreviation search_result := (@search_result K V).

Implicit Types (self s : CSP) (a sol : assignment) (v xi xj : name) (k l : K) (x y : V).
Implicit Types (queue : list (name * name)).
Implicit Types (rec : CSP → assignment → result (CSP * search_result)).

(** [revise] deletes no value that a solution uses. *)
Lemma revise_within self a sol xi xj a' b :
  within a sol → respects self sol → revise self a xi xj = Ret (a', b) → within a' sol.
Proof.
  intros Hw Hr (Hi & Hj & -> & _)%revise_Ret k d. rewrite dict_lookup_setitem.
  destruct (decide (k = name_val xi)) as [->|_]; [|apply Hw].
  intros [= <-]. destruct Hi as [di Hi]. rewrite (domain_of_lookup _ _ _ Hi) in *.
  destruct (Hw _ _ Hi) as (x & Hx & Hin). exists x. split; [done|].
  apply elem_of_filter_supported. split; [done|].
  destruct Hj as [[dj Hdj] Ht]; [intros ->; by apply elem_of_nil in Hin|].
  destruct (Hw _ _ Hdj) as (y & Hy & Hyin).
  rewrite (domain_of_lookup _ _ _ Hdj) in Ht.
  apply supported_true. exists y. split; [by rewrite (domain_of_lookup _ _ _ Hdj)|].
  apply Hr; [|done..]. apply Ht. intros ->. by apply elem_of_nil in Hyin.
Qed.

(** So a run of [inference] keeps every solution, and it does not fail when
    there is one. *)
Lemma inference_within self a queue sol a' queue' r :
  within a sol → respects self sol →
  inference self a queue = Ret (a', queue', r) → within a' sol ∧ r = true.
Proof.
  intros Hw Hr. revert Hw a' queue' r.
  pattern a, queue. apply (inference_induction self); clear a queue.
  - intros a Hw a' queue' r. rewrite inference_nil. by intros [= <- _ <-].
  - intros a queue [xi xj] IH Hw a' queue' r. rewrite inference_unfold. intros H.
    inv_bind H. destruct r0 as [[a1 q1]|[[a1 q1] r1]].
    + eapply (IH _ _ H0); [|done].
      apply inference_step_inl in H0 as (b & Hrev & _). by eapply revise_within.
    + injection H as <- <- <-.
      apply inference_step_inr in H0 as (Hrev & Hnil & _).
      pose proof (revise_within _ _ _ _ _ _ _ Hw Hr Hrev) as Hw1.
      apply revise_Ret in Hrev as ([di Hi] & _ & Ha1 & _).
      assert (is_Some (dict_lookup a1 (name_val xi))) as [d1 Hd1].
      { rewrite Ha1, dict_lookup_setitem_eq. eauto. }
      destruct (Hw1 _ _ Hd1) as (x & _ & Hin).
      rewrite (domain_of_lookup _ _ _ Hd1) in Hnil. subst d1.
      by apply elem_of_nil in Hin.
Qed.

Lemma setitem_within a sol v x :
  within a sol → dict_lookup sol (name_val v) = Some [x] →
  within (setitem a v [x]) sol.
Proof.
  intros Hw Hx k d. rewrite dict_lookup_setitem.
  destruct (decide (k = name_val v)) as [->|_]; [|apply Hw].
  intros [= <-]. exists x. split; [done|left].
Qed.

(** The assignment [backtrack] returns has the keys of the one it got. *)
Lemma backtrack_loop_keys rec self a v (cands : list V) self' sol :
  (∀ s a1 s' sol', rec s a1 = Ret (s', Some sol') → keys sol' = keys a1) →
  is_Some (dict_lookup a (name_val v)) →
  backtrack_loop rec self a v cands = Ret (self', Some sol) → keys sol = keys a.
Proof.
  intros Hrec Hv. revert self.
  induction cands as [|x cands IH]; intros self H; simpl in H; [done|].
  inv_bind H. inv_bind H. destruct r0 as [[a1 q1] ok]. destruct ok; [|by eapply IH].
  inv_bind H. destruct r0 as [s1 r1]. destruct (truthy r1); [|by eapply IH].
  injection H as <- ->. rewrite (Hrec _ _ _ _ H2).
  apply inference_shrinks in H1 as [-> _]. by apply keys_setitem.
Qed.

Lemma backtrack_fuel_keys fuel self a self' sol :
  backtrack_fuel fuel self a = Ret (self', Some sol) → keys sol = keys a.
Proof.
  revert self a self' sol.
  induction fuel as [|fuel IH]; intros self a self' sol H; [done|].
  simpl in H. destruct (assignment_done a); [by injection H as <- <-|].
  destruct (select_unassigned_variable a) as [v|]; [|done].
  inv_bind H. apply getitem_Ret in H0.
  eapply backtrack_loop_keys; [|eauto|done]. intros ????. apply IH.
Qed.

(** The loop of [backtrack] returns an assignment when one of the
    candidates it goes through is the value a solution gives to the
    variable, provided the recursive call finds the solutions there are. *)
Lemma backtrack_loop_complete rec self a v (cands : list V) sol0 x0 :
  (∀ s a1 s' r, rec s a1 = Ret (s', r) → constraints s' = constraints s) →
  (∀ s a1 s' sol', rec s a1 = Ret (s', Some sol') → keys sol' = keys a1) →
  (∀ s a1 s' r, constraints s = constraints self → within a1 sol0 →
     rec s a1 = Ret (s', r) → is_Some r) →
  within a sol0 → respects self sol0 →
  is_Some (dict_lookup a (name_val v)) →
  dict_lookup sol0 (name_val v) = Some [x0] → x0 ∈ cands →
  ∀ s s' r, constraints s = constraints self →
    backtrack_loop rec s a v cands = Ret (s', r) → is_Some r.
Proof.
  intros Hnet Hkeys Hrec Hw Hr Hv Hx0.
  induction cands as [|x cands IH]; intros Hin s s' r Es H; [by apply elem_of_nil in Hin|].
  simpl in H. inv_bind H. inv_bind H. destruct r1 as [[a1 q1] ok].
  rewrite (inference_network self s) in H1 by done.
  destruct (decide (x = x0)) as [->|Hne].
  - destruct (inference_within self _ _ sol0 _ _ _ (setitem_within _ _ _ _ Hw Hx0) Hr H1)
      as [Hw1 ->].
    inv_bind H. destruct r1 as [s1 r1].
    destruct (Hrec _ _ _ _ Es Hw1 H2) as [sol1 ->].
    assert (truthy (Some sol1) = true) as Ht.
    { apply Hkeys in H2. apply inference_shrinks in H1 as [Hk1 _].
      rewrite Hk1, keys_setitem in H2 by done.
      apply dict_lookup_is_Some_key in Hv as (n & Hn & _).
      rewrite <- H2 in Hn. destruct sol1; [by apply elem_of_nil in Hn|done]. }
    rewrite Ht in H. injection H as <- <-. eauto.
  - assert (x0 ∈ cands) as Hin'.
    { apply elem_of_cons in Hin as [?|?]; [congruence|done]. }
    destruct ok; [|by eapply IH].
    inv_bind H. destruct r1 as [s1 r1]. destruct (truthy r1) eqn:Ht.
    + injection H as <- <-. by destruct r1.
    + eapply (IH Hin' s1); [|done]. rewrite <- Es. by eapply Hnet.
Qed.

Lemma backtrack_fuel_complete fuel self a sol0 self' r :
  within a sol0 → respects self sol0 →
  backtrack_fuel fuel self a = Ret (self', r) → is_Some r.
Proof.
  revert self a self' r.
  induction fuel as [|fuel IH]; intros self a self' r Hw Hr H; [done|].
  simpl in H. destruct (assignment_done a); [injection H as <- <-; eauto|].
  destruct (select_unassigned_variable a) as [v|]; [|done].
  inv_bind H. apply getitem_Ret in H0.
  destruct (Hw _ _ H0) as (x0 & Hx0 & Hin).
  eapply (backtrack_loop_complete _ self a v r0 sol0 x0); [| | |done|done|eauto|done|done| |done].
  - intros ????. apply backtrack_fuel_constraints.
  - intros ????. apply backtrack_fuel_keys.
  - intros s a1 s1 r1 Es Hw1. apply IH; [done|].
    intros k l x y Ht. unfold allowed. rewrite (table_network self s) in * by done.
    by apply Hr.
  - done.
Qed.

End Completeness.

Section Decision.
Context {K V : Type} `{!EqDecision K, !EqDecision V}.
#[local] Abbreviation name := (name K).
#[local] Abbreviation CSP := (@CSP K V).
#[local] Abbreviation assignment := (@assignment K V).
#[local] Abbreviation search_result := (@search_result K V).

Implicit Types (self s : CSP) (a sol : assignment) (v xi xj : name) (k l : K) (x y : V).
Implicit Types (queue : list (name * name)).
Implicit Types (rec : CSP → assignment → result (CSP * search_result)).

(** On a two-way network every arc [get_all_arcs] lists can be looked up. *)
Lemma all_arcs_registered self :
  network_two_way self = true → all_registered self (get_all_arcs self).
Proof.
  intros Htw n m Hin. pose proof Htw as Hall.
  unfold network_two_way in Hall. rewrite forallb_forall in Hall.
  unfold get_all_arcs in Hin.
  apply list_elem_of_In, in_flat_map in Hin as ([n' ck] & Hn & Hin). simpl in Hin.
  apply in_map_iff in Hin as (j & [= <- <-] & Hj).
  unfold keys in Hj. apply list_elem_of_In, list_elem_of_fmap in Hj as ([j' c] & -> & Hc).
  specialize (Hall _ Hn). simpl in Hall. rewrite forallb_forall in Hall.
  apply list_elem_of_In in Hc. specialize (Hall _ Hc). simpl in Hall.
  destruct (table self (name_val j') (name_val n')) as [cji|] eqn:Ht; [|done].
  destruct (network_two_way_table _ _ _ _ Htw Ht) as (cij & Hij & _). simpl. eauto.
Qed.

(** Every call of [backtrack] is counted, and so is every call that
    returns [False]. *)
Lemma backtrack_loop_counters rec self a v (cands : list V) self' r :
  (∀ s a1 s' r', rec s a1 = Ret (s', r') →
     backtracking_call_counter s ≤ backtracking_call_counter s' ∧
     backtracking_fail_counter s ≤ backtracking_fail_counter s') →
  backtrack_loop rec self a v cands = Ret (self', r) →
  backtracking_call_counter self ≤ backtracking_call_counter self' ∧
  backtracking_fail_counter self ≤ backtracking_fail_counter self' ∧
  (r = None → backtracking_fail_counter self < backtracking_fail_counter self').
Proof.
  intros Hrec. revert self. induction cands as [|x cands IH]; intros self H; simpl in H.
  - injection H as <- <-. simpl. lia.
  - inv_bind H. inv_bind H. destruct r1 as [[a1 q1] ok]. destruct ok; [|by apply IH].
    inv_bind H. destruct r1 as [s1 r1]. apply Hrec in H2. destruct (truthy r1) eqn:Ht.
    + injection H as <- <-. split_and!; [lia|lia|]. by intros ->.
    + apply IH in H as (? & ? & Hf). split_and!; [lia|lia|].
      intros Hr. specialize (Hf Hr). lia.
Qed.

Lemma backtrack_fuel_counters fuel self a self' r :
  backtrack_fuel fuel self a = Ret (self', r) →
  backtracking_call_counter self < backtracking_call_counter self' ∧
  backtracking_fail_counter self ≤ backtracking_fail_counter self' ∧
  (r = None → backtracking_fail_counter self < backtracking_fail_counter self').
Proof.
  revert self a self' r. induction fuel as [|fuel IH]; intros self a self' r H; [done|].
  simpl in H. destruct (assignment_done a).
  - injection H as <- <-. simpl. split_and!; [lia|lia|done].
  - destruct (select_unassigned_variable a) as [v|]; [|done].
    inv_bind H. apply backtrack_loop_counters in H as (? & ? & Hf).
    { simpl in *. split_and!; [lia|lia|]. intros Hr. specialize (Hf Hr). lia. }
    intros s a1 s' r' Hr. apply IH in Hr. lia.
Qed.

(** After a first propagation that succeeds, an assignment returned by the
    search is a complete consistent assignment below the declared domains. *)
Lemma backtracking_search_solved self a queue self' sol :
  network_two_way self = true →
  no_wipeout (domains self) = true →
  inference self (domains self) (get_all_arcs self) = Ret (a, queue, true) →
  backtracking_search self = Ret (self', Some sol) →
  solved self (domains self) sol.
Proof.
  intros Htw Hnw Hinf H. unfold backtracking_search in H. rewrite Hinf in H. simpl in H.
  assert (consistent self a) as Hcons.
  { split; [by eapply inference_no_wipeout|].
    eapply inference_settles; [done| |done]. intros k l Ht. right. by apply all_arcs_queued. }
  pose proof (inference_shrinks _ _ _ _ _ _ Hinf) as Hsh.
  apply backtrack_fuel_sound in H as (Hs & ? & ?); [|done..].
  split_and!; [|done..]. by eapply shrinks_trans.
Qed.

Lemma solved_within self a sol : solved self a sol → within a sol.
Proof.
  intros Hsol k d Hk.
  destruct (solved_variable _ _ _ k Hsol) as (x & Hx & Hin); [eauto|].
  rewrite (domain_of_lookup _ _ _ Hk) in Hin. eauto.
Qed.

Lemma solved_respects self a sol : solved self a sol → respects self sol.
Proof.
  intros Hsol k l x y Ht Hx Hy.
  destruct (solved_arc _ _ _ k l Hsol Ht) as (x' & y' & Hx' & Hy' & Hxy). congruence.
Qed.

Lemma backtracking_search_Ret self :
  network_two_way self = true → declared self (domains self) = true →
  ∃ self' r, backtracking_search self = Ret (self', r).
Proof.
  intros Htw Hd%declared_well_declared. unfold backtracking_search.
  destruct (inference_returns self (domains self) (get_all_arcs self))
    as [[[a q] ok] Hinf]; [done|done|by apply all_arcs_registered|].
  rewrite Hinf. simpl.
  destruct (backtrack_fuel_returns (S (total_size a)) self a) as [[self' r] H]; [lia|done| |].
  { eapply well_declared_keys; [|done]. by eapply inference_shrinks. }
  by exists self', r.
Qed.

(** On a two-way network whose arcs are between declared variables,
    [backtracking_search] raises no exception: it returns, it has changed
    nothing of the network but the counters, and it has counted at least one
    call of [backtrack]. *)
Theorem backtracking_search_returns self :
  network_two_way self = true → declared self (domains self) = true →
  ∃ self' r, backtracking_search self = Ret (self', r) ∧
    constraints self' = constraints self ∧
    backtracking_call_counter self < backtracking_call_counter self' ∧
    backtracking_fail_counter self ≤ backtracking_fail_counter self'.
Proof.
  intros Htw Hd. destruct (backtracking_search_Ret self Htw Hd) as (self' & r & H).
  exists self', r. split; [done|]. unfold backtracking_search in H.
  destruct (inference self (domains self) (get_all_arcs self))
    as [[[a q] ok]| |]; [|done..].
  simpl in H. split; [by eapply backtrack_fuel_constraints|].
  by apply backtrack_fuel_counters in H as (? & ? & _).
Qed.

(** When the network has a solution, [backtracking_search] returns one. *)
Theorem backtracking_search_complete self sol0 :
  network_two_way self = true → declared self (domains self) = true →
  no_wipeout (domains self) = true →
  within (domains self) sol0 → respects self sol0 →
  ∃ self' sol, backtracking_search self = Ret (self', Some sol) ∧
    keys sol = keys (domains self) ∧ within (domains self) sol ∧ respects self sol.
Proof.
  intros Htw Hd Hnw Hw Hr.
  destruct (backtracking_search_Ret self Htw Hd) as (self' & r & H).
  pose proof H as H'. unfold backtracking_search in H'.
  destruct (inference self (domains self) (get_all_arcs self))
    as [[[a q] ok]| |] eqn:Hinf; [|done..].
  simpl in H'. destruct (inference_within _ _ _ _ _ _ _ Hw Hr Hinf) as [Hw1 ->].
  apply (backtrack_fuel_complete _ _ _ sol0) in H' as [sol ->]; [|done..].
  pose proof (backtracking_search_solved _ _ _ _ _ Htw Hnw Hinf H) as Hsol.
  exists self', sol. split_and!; [done|apply Hsol| |].
  - by eapply solved_within.
  - by eapply solved_respects.
Qed.

(** When the first propagation succeeds and the network has no solution,
    [backtracking_search] returns [False], with both counters raised. *)
Theorem backtracking_search_unsolvable self a queue :
  network_two_way self = true → declared self (domains self) = true →
  no_wipeout (domains self) = true →
  inference self (domains self) (get_all_arcs self) = Ret (a, queue, true) →
  (∀ sol0, within (domains self) sol0 → respects self sol0 → False) →
  ∃ self', backtracking_search self = Ret (self', None) ∧
    backtracking_call_counter self < backtracking_call_counter self' ∧
    backtracking_fail_counter self < backtracking_fail_counter self'.
Proof.
  intros Htw Hd Hnw Hinf Hno.
  destruct (backtracking_search_Ret self Htw Hd) as (self' & r & H).
  destruct r as [sol|].
  { pose proof (backtracking_search_solved _ _ _ _ _ Htw Hnw Hinf H) as Hsol.
    destruct (Hno sol); [by eapply solved_within|by eapply solved_respects]. }
  exists self'. split; [done|].
  unfold backtracking_search in H. rewrite Hinf in H. simpl in H.
  apply backtrack_fuel_counters in H as (? & _ & Hf). split; [done|by apply Hf].
Qed.

End Decision.

(** * The claims *)

Section SearchClaims.
Context {K V : Type} `{!EqDecision K, !EqDecision V}.
#[local] Abbreviation name := (name K).
#[local] Abbreviation CSP := (@CSP K V).
#[local] Abbreviation assignment := (@assignment K V).

Implicit Types (self : CSP) (a sol : assignment) (v : name) (k l : K) (x y : V).

(** C1 (amended): on a network whose arcs are all registered in both
    directions with converse relations, whose declared domains are all
    non-empty and on which the first run of AC-3 over all arcs succeeds,
    an assignment returned by [backtracking_search] has the keys of
    [self.domains], gives every declared variable exactly one value, taken
    from its declared domain, and for every registered arc [(k, l)] the pair
    of the values of [k] and [l] is in the stored list of legal pairs. *)
Theorem backtracking_search_sound self a queue self' sol :
  network_two_way self = true →
  no_wipeout (domains self) = true →
  inference self (domains self) (get_all_arcs self) = Ret (a, queue, true) →
  backtracking_search self = Ret (self', Some sol) →
  keys sol = keys (domains self) ∧
  (∀ k, is_Some (dict_lookup (domains self) k) →
        ∃ x, dict_lookup sol k = Some [x] ∧ x ∈ domain_of (domains self) k) ∧
  (∀ k l, is_Some (table self k l) →
          ∃ x y, dict_lookup sol k = Some [x] ∧ dict_lookup sol l = Some [y] ∧
                 (x, y) ∈ allowed self k l).
Proof.
  intros Htw Hnw Hinf H.
  pose proof (backtracking_search_solved _ _ _ _ _ Htw Hnw Hinf H) as Hsol.
  split_and!.
  - apply Hsol.
  - intros k. by eapply solved_variable.
  - intros k l. by eapply solved_arc.
Qed.

(** C10: [select_unassigned_variable] returns a key of the assignment whose
    current domain has more than one value whenever there is such a
    variable, and [None] only when no domain has more than one value;
    [assignment_done] is false, so [backtrack] goes on to the selection,
    exactly when a variable is returned. *)
Theorem select_unassigned_variable_spec a :
  match select_unassigned_variable a with
  | Some v => v ∈ keys a ∧ 1 < length (domain_of a (name_val v))
  | None => ∀ k, length (domain_of a k) ≤ 1
  end ∧
  ((∃ k, 1 < length (domain_of a k)) → is_Some (select_unassigned_variable a)) ∧
  (assignment_done a = false ↔ is_Some (select_unassigned_variable a)).
Proof.
  assert (select_unassigned_variable a = None → ∀ k, length (domain_of a k) ≤ 1) as Hnone.
  { intros E k. unfold domain_of. destruct (dict_lookup a k) as [d|] eqn:Hd; simpl; [|lia].
    by eapply select_unassigned_variable_None. }
  split_and!.
  - destruct (select_unassigned_variable a) as [v|] eqn:E; [|by apply Hnone].
    apply select_unassigned_variable_Some in E as (Hin & d & Hd & Hlen).
    by rewrite (domain_of_lookup _ _ _ Hd).
  - intros [k Hk]. destruct (select_unassigned_variable a) as [v|] eqn:E; [eauto|].
    specialize (Hnone eq_refl k). lia.
  - pose proof (assignment_done_select a) as Hd.
    destruct (assignment_done a), (select_unassigned_variable a) as [v|].
    + destruct Hd as [Hd _]. specialize (Hd eq_refl). discriminate.
    + split; [discriminate|]. intros [? ?]; discriminate.
    + split; eauto.
    + destruct Hd as [_ Hd]. specialize (Hd eq_refl). discriminate.
Qed.

(** C5 (amended): [add_variable] never fails.  Whether or not the name is
    already present, it appends the name to [self.variables], binds it in
    [self.domains] to the given domain and in [self.constraints] to an empty
    table, and leaves the entries of all other names and the counters as
    they were. *)
Theorem add_variable_spec self (n : name) (domain : list V) :
  variables (add_variable self n domain) = variables self ++ [n] ∧
  dict_lookup (domains (add_variable self n domain)) (name_val n) = Some domain ∧
  dict_lookup (constraints (add_variable self n domain)) (name_val n) = Some [] ∧
  (∀ k, k ≠ name_val n →
     dict_lookup (domains (add_variable self n domain)) k = dict_lookup (domains self) k ∧
     dict_lookup (constraints (add_variable self n domain)) k =
       dict_lookup (constraints self) k) ∧
  backtracking_call_counter (add_variable self n domain) = backtracking_call_counter self ∧
  backtracking_fail_counter (add_variable self n domain) = backtracking_fail_counter self.
Proof.
  unfold add_variable. simpl. split_and!; try done.
  - apply dict_lookup_setitem_eq.
  - apply dict_lookup_setitem_eq.
  - intros k Hk. split; by apply dict_lookup_setitem_ne.
Qed.

(** C9 (amended): on a network whose arcs are all registered in both
    directions with converse relations, when [inference] returns [True]
    on a state and a worklist, running it again on the resulting state with
    the same worklist returns [True] and leaves that state as it is. *)
Theorem inference_idempotent self a (queue queue' : list (name * name)) a' :
  network_two_way self = true →
  inference self a queue = Ret (a', queue', true) →
  inference self a' queue = Ret (a', [], true).
Proof.
  intros Htw H. apply inference_stable. intros n m Hin.
  eapply (inference_settles self a queue a' queue' (queued queue)); [done| |done|].
  - intros k l ?. by right.
  - by exists n, m.
Qed.

End SearchClaims.

Section PropagationClaims.
Context {K V : Type} `{!EqDecision K, !EqDecision V}.
#[local] Abbreviation name := (name K).
#[local] Abbreviation CSP := (@CSP K V).
#[local] Abbreviation assignment := (@assignment K V).

Implicit Types (self : CSP) (a : assignment) (xi xj : name) (k l : K) (x y : V).
Implicit Types (queue : list (name * name)).

Lemma forallb_false_elem (p : V → bool) (d : list V) :
  forallb p d = false → ∃ x, x ∈ d ∧ p x = false.
Proof.
  induction d as [|x d IH]; simpl; [done|].
  intros [Hx|Hd]%andb_false_iff.
  - exists x. split; [left|done].
  - destruct (IH Hd) as (x' & ? & ?). exists x'. split; [by right|done].
Qed.



(** C7: [revise] on the arc [(xi, xj)], with [di] and [dj] the current
    domains and [cij] the registered list of legal pairs.  A value [x] of
    [di] is kept exactly when some [y] of [dj] has [(x, y)] in [cij]; the
    values to delete are marked in one scan over the whole of [di], on the
    assignment as it was, and deleted afterwards; the domain of [xi] becomes
    the kept values in their order and no other domain changes.  [revise]
    returns [True] exactly when a value was deleted.  In the loop of
    [inference] that return value decides what happens next: on [False] the
    loop goes on with the worklist as it is, even when the domain of [xi]
    is empty, and only on [True] is the domain checked for emptiness and
    are arcs appended. *)
Theorem revise_correct self a xi xj (di dj : list V) (cij : list (V * V)) :
  dict_lookup a (name_val xi) = Some di →
  dict_lookup a (name_val xj) = Some dj →
  table self (name_val xi) (name_val xj) = Some cij →
  let keep := supported self a (name_val xi) (name_val xj) in
  let a' := setitem a xi (List.filter keep di) in
  let deleted := negb (forallb keep di) in
  (∀ x, keep x = true ↔ ∃ y, y ∈ dj ∧ (x, y) ∈ cij) ∧
  revise_scan self a xi xj di = Ret (List.filter (fun x => negb (keep x)) di) ∧
  revise_delete a xi (List.filter (fun x => negb (keep x)) di) = Ret a' ∧
  revise self a xi xj = Ret (a', deleted) ∧
  dict_lookup a' (name_val xi) = Some (List.filter keep di) ∧
  (∀ k, k ≠ name_val xi → dict_lookup a' k = dict_lookup a k) ∧
  (deleted = true ↔ ∃ x, x ∈ di ∧ ∀ y, y ∈ dj → (x, y) ∉ cij) ∧
  (∀ queue,
     inference self a (queue ++ [(xi, xj)]) =
     if deleted then
       if bool_decide (length (List.filter keep di) = 0) then Ret (a', queue, false)
       else nb ← get_all_neighboring_arcs self xi;
            inference self a' (queue ++ requeue nb xi xj)
     else inference self a queue).
Proof.
  intros Hi Hj Ht keep a' deleted.
  assert (∀ x, keep x = true ↔ ∃ y, y ∈ dj ∧ (x, y) ∈ cij) as Hkeep.
  { intros x. unfold keep. rewrite supported_true.
    unfold allowed. rewrite Ht. by rewrite (domain_of_lookup _ _ _ Hj). }
  assert (revise self a xi xj = Ret (a', deleted)) as Hrev.
  { rewrite revise_ok; [by rewrite (domain_of_lookup _ _ _ Hi)|eauto|].
    right. split; [eauto|]. right. eauto. }
  split_and!.
  - done.
  - apply revise_scan_ok. right. split; [eauto|]. right. eauto.
  - rewrite (revise_delete_filter a xi _ [] di); [|done|by intros ? ?%elem_of_nil].
    simpl. unfold a'. do 2 f_equal. apply filter_ext. intros x. by destruct (keep x).
  - done.
  - apply dict_lookup_setitem_eq.
  - intros k Hk. by apply dict_lookup_setitem_ne.
  - unfold deleted. rewrite negb_true_iff. split.
    + intros (x & Hx & Hkx)%forallb_false_elem. exists x. split; [done|].
      intros y Hy Hxy. assert (keep x = true) by (apply Hkeep; eauto). congruence.
    + intros (x & Hx & Hno). destruct (forallb keep di) eqn:Hall; [|done].
      rewrite forallb_forall in Hall. apply list_elem_of_In in Hx.
      apply Hall, Hkeep in Hx as (y & Hy & Hxy). by destruct (Hno y Hy).
  - intros queue. rewrite inference_unfold. unfold inference_step. rewrite Hrev. simpl.
    destruct deleted eqn:Hdel.
    + assert (getitem a' xi = Ret (List.filter keep di)) as ->
        by apply getitem_Ret, dict_lookup_setitem_eq.
      simpl. destruct (bool_decide (length (List.filter keep di) = 0)); [done|].
      by destruct (get_all_neighboring_arcs self xi).
    + simpl. apply revise_false_same in Hrev. by rewrite Hrev.
Qed.

End PropagationClaims.

(** ** The claims on the example networks *)

(** C1 as stated fails: on [one_way], where [A != B] is registered from [A]
    to [B] only, the first run of AC-3 succeeds and the search returns
    [A = 1], [B = 1], a pair that is not in the list stored for [(A, B)]:
    after [B] is forced to [1] only the arcs of [self.constraints[B]] are
    propagated, and there are none. *)
Lemma backtracking_search_one_way_violation :
  ¬ (∀ (self self' : @CSP string nat) (sol : @assignment string nat),
       backtracking_search self = Ret (self', Some sol) →
       ∀ k l ckl, table self k l = Some ckl →
         ∃ x y, dict_lookup sol k = Some [x] ∧ dict_lookup sol l = Some [y] ∧
                (x, y) ∈ ckl).
Proof.
  intros H.
  destruct (H one_way (count_call (count_call one_way)) [(A, [1]); (B, [1])]
              ltac:(by vm_compute) "A"%string "B"%string [(1, 2)] ltac:(by vm_compute))
    as (x & y & Hx & Hy & Hxy).
  vm_compute in Hx, Hy. injection Hx as <-. injection Hy as <-.
  by apply list_elem_of_singleton in Hxy.
Qed.

(** C1 (amended) applies to [xyz]: the search returns [X = 1], [Y = 2],
    [Z = 3]. *)
Lemma backtracking_search_sound_xyz :
  backtracking_search xyz =
    Ret (count_call (count_call (count_call xyz)), Some [(X, [1]); (Y, [2]); (Z, [3])]) ∧
  ∀ k l, is_Some (table xyz k l) →
    ∃ x y, dict_lookup [(X, [1]); (Y, [2]); (Z, [3])] k = Some [x] ∧
           dict_lookup [(X, [1]); (Y, [2]); (Z, [3])] l = Some [y] ∧
           (x, y) ∈ allowed xyz k l.
Proof.
  split; [by vm_compute|].
  eapply (backtracking_search_sound xyz); by vm_compute.
Defined.

(** C2 fails on the code: [backtrack] returns the state in which [B] has no
    value left as its result.  It is the state [backtracking_search] passes
    to it on [two_ones]. *)
Theorem backtrack_returns_wiped_out_state :
  backtrack two_ones [(A, [1]); (B, [])] =
    Ret (count_call two_ones, Some [(A, [1]); (B, [])]) ∧
  assignment_done (K:=string) (V:=nat) [(A, [1]); (B, [])] = true ∧
  domain_of (K:=string) (V:=nat) [(A, [1]); (B, [])] "B"%string = [].
Proof. by vm_compute. Qed.

(** C3 fails on the code: on [two_ones] the first run of AC-3 returns
    [False] with the domain of [B] wiped out, and [backtracking_search]
    calls [backtrack] on that state all the same: its result is the result
    of that call, and the call counter is at one. *)
Theorem backtracking_search_ignores_wipeout :
  inference two_ones (domains two_ones) (get_all_arcs two_ones) =
    Ret ([(A, [1]); (B, [])], [(A, B)], false) ∧
  backtracking_search two_ones = backtrack two_ones [(A, [1]); (B, [])] ∧
  (∃ self' r, backtracking_search two_ones = Ret (self', r) ∧
              backtracking_call_counter self' = 1).
Proof.
  split_and!; [by vm_compute..|].
  eexists _, _. split; by vm_compute.
Qed.

(** C4 fails on the code: on the network of two variables with the one
    value [1] that must differ, in either order of registration,
    [backtracking_search] returns an assignment (with an empty domain), not
    [False], and the failure counter is still zero. *)
Theorem backtracking_search_two_ones :
  backtracking_search two_ones =
    Ret (count_call two_ones, Some [(A, [1]); (B, [])]) ∧
  backtracking_search two_ones' =
    Ret (count_call two_ones', Some [(B, [1]); (A, [])]) ∧
  backtracking_call_counter (count_call two_ones) = 1 ∧
  backtracking_fail_counter (count_call two_ones) = 0 ∧
  backtracking_call_counter (count_call two_ones') = 1 ∧
  backtracking_fail_counter (count_call two_ones') = 0.
Proof. by vm_compute. Qed.

(** C5 as stated fails: adding [A] a second time does not fail.  The call
    returns the network with [A] listed twice, bound to the new domain. *)
Lemma add_variable_twice :
  contains (domains (add_variable (V:=nat) CSP_init A [1; 2])) A = true ∧
  add_variable (add_variable (V:=nat) CSP_init A [1; 2]) A [3] =
    mkCSP [A; A] [(A, [3])] [(A, [])] 0 0.
Proof. by vm_compute. Qed.



(** The test [xk is not xj] is on the objects: a name equal to [xj] that
    is another object (as the Sudoku front end makes them) is appended
    again, the object [xj] itself is not. *)
Example requeue_identity :
  requeue [(B, A); (Z, A)] A B = [(Z, A)] ∧
  requeue [(Name "B"%string 7, A); (Z, A)] A B = [(Name "B"%string 7, A); (Z, A)].
Proof. by vm_compute. Qed.

(** C7 on [xyz]: revising [(X, Y)] under [X < Y] deletes [3] from the
    domain of [X] and returns [True]. *)
Lemma revise_correct_xyz :
  revise xyz (domains xyz) X Y =
    Ret ([(X, [1; 2]); (Y, [1; 2; 3]); (Z, [1; 2; 3])], true).
Proof.
  by destruct (revise_correct xyz (domains xyz) X Y [1; 2; 3] [1; 2; 3]
                 [(1, 2); (1, 3); (2, 3)]
                 ltac:(by vm_compute) ltac:(by vm_compute) ltac:(by vm_compute))
    as (_ & _ & _ & H & _).
Defined.

(** C9 as stated fails twice over.  When [inference] returns [False] a
    second run goes on where the first stopped: on [two_ones] the first run
    empties the domain of [B], the second the domain of [A] too.  And when
    the two directions of an arc are not converse relations a second run
    after [True] still deletes: on [skewed] the first run leaves [B] with
    [1, 2], the second with [1]. *)
Lemma inference_not_idempotent :
  ¬ (∀ (self : @CSP string nat) a queue a1 queue1 r1 a2 queue2 r2,
       inference self a queue = Ret (a1, queue1, r1) →
       inference self a1 queue = Ret (a2, queue2, r2) → a2 = a1) ∧
  ¬ (∀ (self : @CSP string nat) a queue a1 queue1 a2 queue2 r2,
       inference self a queue = Ret (a1, queue1, true) →
       inference self a1 queue = Ret (a2, queue2, r2) → a2 = a1).
Proof.
  split; intros H.
  - by specialize (H two_ones (domains two_ones) (get_all_arcs two_ones)
                     [(A, [1]); (B, [])] [(A, B)] false
                     [(A, []); (B, [])] [] false
                     ltac:(by vm_compute) ltac:(by vm_compute)).
  - by specialize (H skewed (domains skewed) (get_all_arcs skewed)
                     [(A, [1]); (B, [1; 2])] []
                     [(A, [1]); (B, [1])] [] true
                     ltac:(by vm_compute) ltac:(by vm_compute)).
Qed.

(** C9 (amended) applies to [xyz]: the first run over all arcs leaves
    [X] with [1, 2] and [Y] with [2, 3], and a second run changes nothing. *)
Lemma inference_idempotent_xyz :
  inference xyz [(X, [1; 2]); (Y, [2; 3]); (Z, [1; 2; 3])] (get_all_arcs xyz) =
    Ret ([(X, [1; 2]); (Y, [2; 3]); (Z, [1; 2; 3])], [], true).
Proof.
  apply (inference_idempotent xyz (domains xyz) (get_all_arcs xyz) []); by vm_compute.
Defined.

(** [xyz] is a two-way network between declared variables: the search on
    it returns. *)
Lemma backtracking_search_returns_xyz :
  ∃ self' r, backtracking_search xyz = Ret (self', r) ∧
    constraints self' = constraints xyz ∧
    backtracking_call_counter xyz < backtracking_call_counter self' ∧
    backtracking_fail_counter xyz ≤ backtracking_fail_counter self'.
Proof. apply (backtracking_search_returns xyz); by vm_compute. Defined.

(** [X = 1], [Y = 2], [Z = 3] is a solution of [xyz]. *)
Lemma xyz_within : within (domains xyz) [(X, [1]); (Y, [2]); (Z, [3])].
Proof.
  intros k d.
  assert (domains xyz = [(X, [1; 2; 3]); (Y, [1; 2; 3]); (Z, [1; 2; 3])]) as ->
    by (by vm_compute).
  simpl. repeat case_decide; subst; try done; intros [= <-]; eexists;
    (split; [reflexivity|]); apply list_elem_of_In; simpl; auto.
Qed.

Lemma xyz_respects : respects xyz [(X, [1]); (Y, [2]); (Z, [3])].
Proof.
  intros k l x y Ht Hk Hl. simpl in Hk, Hl.
  repeat case_decide; subst; try done; injection Hk as <-; injection Hl as <-;
    first [ by (destruct Ht as [? Ht]; vm_compute in Ht)
          | apply list_elem_of_In; vm_compute; tauto ].
Qed.

(** So the search on [xyz] returns a solution. *)
Lemma backtracking_search_complete_xyz :
  ∃ self' sol, backtracking_search xyz = Ret (self', Some sol) ∧
    keys sol = keys (domains xyz) ∧ within (domains xyz) sol ∧ respects xyz sol.
Proof.
  apply (backtracking_search_complete xyz [(X, [1]); (Y, [2]); (Z, [3])]);
    [by vm_compute..|apply xyz_within|apply xyz_respects].
Defined.

(** Three variables cannot take pairwise different values out of two. *)
Lemma pigeons_unsolvable sol0 :
  within (domains pigeons) sol0 → respects pigeons sol0 → False.
Proof.
  intros Hw Hr.
  destruct (Hw "X"%string [1; 2]) as (x & Hx & Hxin); [by vm_compute|].
  destruct (Hw "Y"%string [1; 2]) as (y & Hy & Hyin); [by vm_compute|].
  destruct (Hw "Z"%string [1; 2]) as (z & Hz & Hzin); [by vm_compute|].
  assert ((x, y) ∈ allowed pigeons "X" "Y") as Hxy by (apply Hr; [vm_compute; eauto|done..]).
  assert ((x, z) ∈ allowed pigeons "X" "Z") as Hxz by (apply Hr; [vm_compute; eauto|done..]).
  assert ((y, z) ∈ allowed pigeons "Y" "Z") as Hyz by (apply Hr; [vm_compute; eauto|done..]).
  apply list_elem_of_In in Hxy, Hxz, Hyz. vm_compute in Hxy, Hxz, Hyz.
  intuition congruence.
Qed.

(** On [pigeons] the first propagation deletes nothing and succeeds; the
    search returns [False] after one call of [backtrack], which has failed. *)
Lemma backtracking_search_unsolvable_pigeons :
  ∃ self', backtracking_search pigeons = Ret (self', None) ∧
    backtracking_call_counter pigeons < backtracking_call_counter self' ∧
    backtracking_fail_counter pigeons < backtracking_fail_counter self'.
Proof.
  apply (backtracking_search_unsolvable pigeons (domains pigeons) []);
    [by vm_compute..|apply pigeons_unsolvable].
Defined.

(** * Branch isolation on the heap *)

Module Isolation.
Section HeapFacts.
Context {K V : Type} `{!EqDecision K, !EqDecision V}.
#[local] Abbreviation name := (name K).
#[local] Abbreviation CSP := (@CSP K V).
#[local] Abbreviation heap := (@Heap.heap K V).
#[local] Abbreviation M := (@Heap.M K V).
#[local] Existing Instance Heap.heap_ret.
#[local] Existing Instance Heap.heap_bind.

Implicit Types (h : heap) (asg r : Heap.loc) (self : CSP) (i j : name).

Lemma safe_refl n m h : Heap.safe n m h h.
Proof. by repeat split. Qed.

Lemma safe_trans n m h1 h2 h3 :
  Heap.safe n m h1 h2 → Heap.safe n m h2 h3 → Heap.safe n m h1 h3.
Proof.
  intros (L1 & D1 & ? & ?) (L2 & D2 & ? & ?). split_and!; [| |lia..].
  - intros r Hr. by rewrite L2, L1.
  - intros r Hr. by rewrite D2, D1.
Qed.

Lemma safe_bounds n m h h' :
  Heap.bounds n m h → Heap.safe n m h h' → Heap.bounds n m h'.
Proof. intros [? ?] (_ & _ & ? & ?). split; lia. Qed.

(** The store after a bind: the store after the first computation when it
    does not return, the store after the second otherwise. *)
Lemma bind_safe {A B} n m (c : M A) (f : A → M B) h :
  Heap.safe n m h (c h).1 →
  (∀ x, c h = ((c h).1, Ret x) → Heap.safe n m (c h).1 (f x (c h).1).1) →
  Heap.safe n m h ((c ≫= f) h).1.
Proof.
  intros H1 H2. unfold mbind, Heap.heap_bind, Heap.bind.
  destruct (c h) as [h1 [x| |]] eqn:E; simpl in *; [|done..].
  eapply safe_trans; [done|]. by apply H2.
Qed.

Lemma bind_run {A B} (c : M A) (f : A → M B) h h1 x :
  c h = (h1, Ret x) → (c ≫= f) h = f x h1.
Proof. intros E. unfold mbind, Heap.heap_bind, Heap.bind. by rewrite E. Qed.

Lemma bind_stop {A B} (c : M A) (f : A → M B) h :
  (∀ x, (c h).2 ≠ Ret x) → ((c ≫= f) h).1 = (c h).1.
Proof.
  intros E. unfold mbind, Heap.heap_bind, Heap.bind.
  destruct (c h) as [h1 [x| |]]; simpl in *; [|done..]. by destruct (E x).
Qed.

(** Reading leaves the store as it is. *)
Lemma getitem_ref_run asg i h :
  Heap.getitem_ref asg i h = (h, getitem (Heap.dict_at h asg) i).
Proof. done. Qed.

Lemma getitem_list_run asg i h :
  (Heap.getitem_list asg i h).1 = h.
Proof.
  unfold Heap.getitem_list, mbind, Heap.heap_bind, Heap.bind.
  rewrite getitem_ref_run. by destruct (getitem _ i).
Qed.

Lemma read_entries_run (d : dict K Heap.loc) h :
  Heap.read_entries d h = (h, Ret (Heap.view_entries h d)).
Proof.
  induction d as [|[k r] d IH]; [done|]. simpl.
  unfold mbind, Heap.heap_bind, Heap.bind. simpl. by rewrite IH.
Qed.

Lemma read_assignment_run asg h :
  Heap.read_assignment asg h = (h, Ret (Heap.view h asg)).
Proof.
  unfold Heap.read_assignment, mbind, Heap.heap_bind, Heap.bind. simpl.
  apply read_entries_run.
Qed.

Lemma revise_scan_run self asg i j (di : list V) h :
  (Heap.revise_scan self asg i j di h).1 = h.
Proof.
  induction di as [|x di IH]; [done|]. simpl.
  unfold mbind, Heap.heap_bind, Heap.bind.
  pose proof (getitem_list_run asg j h) as E.
  destruct (Heap.getitem_list asg j h) as [h1 [dj| |]]; simpl in E; subst h1; [|done..].
  unfold Heap.lift. destruct (revise_possible self i j x dj); [|done..].
  destruct (Heap.revise_scan self asg i j di h) as [h1 [incs| |]]; simpl in IH; by subst.
Qed.

(** [revise] writes to list objects that [asg] binds, and to nothing else. *)
Lemma revise_delete_safe n m asg i (incs : list V) h :
  Heap.fresh n h asg →
  Heap.safe n m h (Heap.revise_delete asg i incs h).1 ∧
  Heap.dicts (Heap.revise_delete asg i incs h).1 = Heap.dicts h.
Proof.
  revert h. induction incs as [|x incs IH]; intros h Hf; [split; [apply safe_refl|done]|].
  simpl. unfold mbind, Heap.heap_bind, Heap.bind. rewrite getitem_ref_run.
  destruct (getitem _ i) as [r| |] eqn:G; simpl; [|split; [apply safe_refl|done]..].
  unfold Heap.lift.
  destruct (list_remove_first x _) as [l'| |]; simpl; [|split; [apply safe_refl|done]..].
  apply getitem_Ret, dict_lookup_Some_elem in G as (k & Hin & _).
  pose proof (Hf _ _ Hin) as Hr.
  set (h1 := Heap.mkHeap (<[r:=l']> (Heap.lists h)) (Heap.dicts h)).
  assert (Heap.safe n m h h1) as Hs.
  { split_and!; simpl; [|done| |done].
    - intros r' Hr'. apply list_lookup_insert_ne. lia.
    - by rewrite length_insert. }
  destruct (IH h1) as [Hs' Hd]; [done|]. split; [by eapply safe_trans|done].
Qed.

Lemma revise_safe n m self asg i j h :
  Heap.fresh n h asg →
  Heap.safe n m h (Heap.revise self asg i j h).1 ∧
  Heap.dicts (Heap.revise self asg i j h).1 = Heap.dicts h.
Proof.
  intros Hf. unfold Heap.revise, mbind, Heap.heap_bind, Heap.bind.
  pose proof (getitem_list_run asg i h) as E.
  destruct (Heap.getitem_list asg i h) as [h1 [di| |]]; simpl in E; subst h1;
    [|split; [apply safe_refl|done]..].
  pose proof (revise_scan_run self asg i j di h) as E.
  destruct (Heap.revise_scan self asg i j di h) as [h1 [incs| |]]; simpl in E; subst h1;
    [|split; [apply safe_refl|done]..].
  pose proof (revise_delete_safe n m asg i incs h Hf) as E.
  by destruct (Heap.revise_delete asg i incs h) as [h1 [[]| |]].
Qed.

Lemma inference_step_safe n m self asg queue arc h :
  Heap.fresh n h asg →
  Heap.safe n m h (Heap.inference_step self asg queue arc h).1 ∧
  Heap.dicts (Heap.inference_step self asg queue arc h).1 = Heap.dicts h.
Proof.
  intros Hf. unfold Heap.inference_step, mbind, Heap.heap_bind, Heap.bind.
  pose proof (revise_safe n m self asg arc.1 arc.2 h Hf) as E.
  destruct (Heap.revise self asg arc.1 arc.2 h) as [h1 [[|]| |]]; simpl in E; try done.
  pose proof (getitem_list_run asg arc.1 h1) as E1.
  destruct (Heap.getitem_list asg arc.1 h1) as [h2 [dxi| |]]; simpl in E1; subst h2; try done.
  destruct (bool_decide (length dxi = 0)); [done|].
  unfold Heap.lift. by destruct (get_all_neighboring_arcs self arc.1).
Qed.

Lemma fresh_dicts n h h' asg :
  Heap.dicts h' = Heap.dicts h → Heap.fresh n h asg → Heap.fresh n h' asg.
Proof. unfold Heap.fresh, Heap.dict_at. by intros ->. Qed.

Lemma inference_loop_safe n m fuel self asg queue h :
  Heap.fresh n h asg →
  Heap.safe n m h (Heap.inference_loop fuel self asg queue h).1 ∧
  Heap.dicts (Heap.inference_loop fuel self asg queue h).1 = Heap.dicts h.
Proof.
  revert queue h. induction fuel as [|fuel IH]; intros queue h Hf; simpl.
  - destruct (queue_pop queue) as [[? ?]|]; split; (apply safe_refl || done).
  - destruct (queue_pop queue) as [[queue' arc]|]; [|split; [apply safe_refl|done]].
    unfold mbind, Heap.heap_bind, Heap.bind.
    pose proof (inference_step_safe n m self asg queue' arc h Hf) as [Es Ed].
    destruct (Heap.inference_step self asg queue' arc h) as [h1 [[queue''|res]| |]];
      simpl in Es, Ed; try done.
    destruct (IH queue'' h1) as [Es' Ed']; [by eapply fresh_dicts|].
    split; [by eapply safe_trans|congruence].
Qed.

Lemma inference_safe n m self asg queue h :
  Heap.fresh n h asg →
  Heap.safe n m h (Heap.inference self asg queue h).1 ∧
  Heap.dicts (Heap.inference self asg queue h).1 = Heap.dicts h.
Proof.
  intros Hf. unfold Heap.inference.
  rewrite (bind_run _ _ _ _ _ (read_assignment_run asg h)).
  by apply inference_loop_safe.
Qed.

(** [copy.deepcopy] allocates and writes to nothing that was there; the
    copy binds new list objects only. *)
Lemma deepcopy_entries_safe n m (memo : list (Heap.loc * Heap.loc))
    (d : dict K Heap.loc) h :
  Heap.bounds n m h → (∀ e, e ∈ memo → n ≤ e.2) →
  ∃ h' d', Heap.deepcopy_entries memo d h = (h', Ret d') ∧
           Heap.safe n m h h' ∧ Heap.dicts h' = Heap.dicts h ∧
           ∀ k r', (k, r') ∈ d' → n ≤ r'.
Proof.
  revert memo h. induction d as [|[k r] d IH]; intros memo h Hb Hmemo; simpl.
  { exists h, []. split_and!; [done|apply safe_refl|done|]. by intros ?? ?%elem_of_nil. }
  destruct (list_find (fun e => e.1 = r) memo) as [[idx [r0 r']]|] eqn:Hfind.
  - apply list_find_Some in Hfind as (Hin%list_elem_of_lookup_2 & _).
    destruct (IH memo h Hb Hmemo) as (h' & d' & E & Hs & Hd & Hfr).
    unfold mbind, Heap.heap_bind, Heap.bind. rewrite E. exists h', ((k, r') :: d').
    split_and!; [done..|].
    intros k' r'' [[= -> ->]|?]%elem_of_cons; [apply (Hmemo _ Hin)|eauto].
  - unfold mbind, Heap.heap_bind, Heap.bind. simpl.
    set (h1 := Heap.mkHeap _ _).
    assert (Heap.safe n m h h1) as Hs1.
    { destruct Hb. split_and!; simpl; [|done| |done].
      - intros r1 Hr1. apply lookup_app_l. lia.
      - rewrite length_app. lia. }
    destruct (IH (@pair Heap.loc Heap.loc r (length (Heap.lists h)) :: memo) h1)
      as (h' & d' & E & Hs & Hd & Hfr).
    { by eapply safe_bounds. }
    { intros e [->|?]%elem_of_cons; [apply Hb|auto]. }
    rewrite E. exists h', ((k, length (Heap.lists h)) :: d').
    split_and!; [done|by eapply safe_trans|done|].
    intros k' r'' [[= -> ->]|?]%elem_of_cons; [apply Hb|eauto].
Qed.

Lemma deepcopy_safe n m asg h :
  Heap.bounds n m h →
  ∃ h' new, Heap.deepcopy asg h = (h', Ret new) ∧
            Heap.safe n m h h' ∧ m ≤ new ∧ Heap.fresh n h' new.
Proof.
  intros Hb. unfold Heap.deepcopy, mbind, Heap.heap_bind, Heap.bind. simpl.
  destruct (deepcopy_entries_safe n m [] (Heap.dict_at h asg) h Hb)
    as (h1 & d' & E & Hs & Hd & Hfr); [by intros ? ?%elem_of_nil|].
  rewrite E. simpl. eexists _, _. split; [done|].
  pose proof (safe_bounds _ _ _ _ Hb Hs) as [Hb1 Hb2].
  split_and!.
  - eapply safe_trans; [done|]. split_and!; simpl; [done| |done|].
    + intros r Hr. apply lookup_app_l. lia.
    + rewrite length_app. lia.
  - done.
  - intros k r. unfold Heap.dict_at. simpl. rewrite list_lookup_middle by done. apply Hfr.
Qed.

Lemma setitem_new_safe n m asg (k : name) (l : list V) h :
  Heap.bounds n m h → m ≤ asg → Heap.fresh n h asg →
  ∃ h', Heap.setitem_new asg k l h = (h', Ret tt) ∧
        Heap.safe n m h h' ∧ Heap.fresh n h' asg.
Proof.
  intros [Hb1 Hb2] Hasg Hf. eexists. split; [done|]. split.
  - split_and!; simpl.
    + intros r Hr. apply lookup_app_l. lia.
    + intros r Hr. apply list_lookup_insert_ne. lia.
    + rewrite length_app. lia.
    + by rewrite length_insert.
  - intros k' r. unfold Heap.dict_at at 1. simpl.
    destruct (decide (asg < length (Heap.dicts h))) as [Hlt|Hge].
    + rewrite list_lookup_insert_eq by done. simpl.
      intros [Hin| ->]%elem_of_setitem; [by eapply Hf|done].
    + rewrite list_insert_ge by lia. apply Hf.
Qed.

Lemma store_entries_safe n m (a : @assignment K V) h :
  Heap.bounds n m h →
  ∃ h' d, Heap.store_entries a h = (h', Ret d) ∧
          Heap.safe n m h h' ∧ Heap.dicts h' = Heap.dicts h ∧
          ∀ k r, (k, r) ∈ d → n ≤ r.
Proof.
  revert h. induction a as [|[k l] a IH]; intros h Hb; simpl.
  { exists h, []. split_and!; [done|apply safe_refl|done|]. by intros ?? ?%elem_of_nil. }
  unfold mbind, Heap.heap_bind, Heap.bind. simpl. set (h1 := Heap.mkHeap _ _).
  assert (Heap.safe n m h h1) as Hs1.
  { destruct Hb. split_and!; simpl; [|done| |done].
    - intros r1 Hr1. apply lookup_app_l. lia.
    - rewrite length_app. lia. }
  destruct (IH h1) as (h' & d & E & Hs & Hd & Hfr); [by eapply safe_bounds|].
  rewrite E. exists h', ((k, length (Heap.lists h)) :: d).
  split_and!; [done|by eapply safe_trans|done|].
  intros k' r' [[= -> ->]|?]%elem_of_cons; [apply Hb|eauto].
Qed.

Lemma truthy_run (res : option Heap.loc) h : (Heap.truthy res h).1 = h.
Proof. by destruct res. Qed.

(** One candidate value: whatever the recursive call does to the objects
    that are there when it is called, the branch does no more, and nothing
    to those that were there before the copy. *)
Lemma branch_safe n m (rec : CSP → Heap.loc → M (CSP * option Heap.loc))
    self asg (variable : name) (domain : V) h :
  (∀ s a h1, Heap.bounds n m h1 → Heap.safe n m h1 (rec s a h1).1) →
  Heap.bounds n m h →
  Heap.safe n m h (Heap.branch rec self asg variable domain h).1.
Proof.
  intros Hrec Hb. unfold Heap.branch.
  destruct (deepcopy_safe n m asg h Hb) as (h1 & new & E1 & Hs1 & Hnew & Hf1).
  rewrite (bind_run _ _ _ _ _ E1).
  pose proof (safe_bounds _ _ _ _ Hb Hs1) as Hb1.
  destruct (setitem_new_safe n m new variable [domain] h1 Hb1 Hnew Hf1)
    as (h2 & E2 & Hs2 & Hf2).
  rewrite (bind_run _ _ _ _ _ E2).
  pose proof (safe_bounds _ _ _ _ Hb1 Hs2) as Hb2.
  eapply safe_trans; [done|]. eapply safe_trans; [done|].
  apply bind_safe; [apply safe_refl|]. simpl. intros arcs _.
  destruct (inference_safe n m self new arcs h2 Hf2) as [Hs3 _].
  apply bind_safe; [done|]. intros [|] _; [|apply safe_refl].
  apply Hrec. by eapply safe_bounds.
Qed.

Lemma backtrack_loop_safe n m (rec : CSP → Heap.loc → M (CSP * option Heap.loc))
    turns self asg (variable : name) (cands : Heap.loc) idx h :
  (∀ s a h1, Heap.bounds n m h1 → Heap.safe n m h1 (rec s a h1).1) →
  Heap.bounds n m h →
  Heap.safe n m h (Heap.backtrack_loop rec turns self asg variable cands idx h).1.
Proof.
  intros Hrec. revert self idx h.
  induction turns as [|turns IH]; intros self idx h Hb; simpl.
  - unfold mbind, Heap.heap_bind, Heap.bind. simpl.
    destruct (_ !! idx); apply safe_refl.
  - unfold mbind at 1, Heap.heap_bind at 1, Heap.bind at 1. simpl.
    destruct (_ !! idx) as [domain|]; [|apply safe_refl].
    pose proof (branch_safe n m rec self asg variable domain h Hrec Hb) as Hs.
    apply bind_safe; [done|]. intros res _.
    apply bind_safe; [rewrite truthy_run; apply safe_refl|].
    rewrite truthy_run. intros [|] _; [apply safe_refl|].
    apply IH. by eapply safe_bounds.
Qed.

Lemma backtrack_fuel_safe n m fuel self asg h :
  Heap.bounds n m h → Heap.safe n m h (Heap.backtrack_fuel fuel self asg h).1.
Proof.
  revert self asg h. induction fuel as [|fuel IH]; intros self asg h Hb; simpl;
    [apply safe_refl|].
  rewrite (bind_run _ _ _ _ _ (read_assignment_run asg h)).
  destruct (assignment_done _); [apply safe_refl|].
  destruct (select_unassigned_variable _) as [variable|]; [|apply safe_refl].
  apply bind_safe; [rewrite getitem_ref_run; apply safe_refl|].
  rewrite getitem_ref_run. simpl. intros cands _.
  apply bind_safe; [apply safe_refl|]. simpl. intros l _.
  apply backtrack_loop_safe; [|done]. intros s a h1. apply IH.
Qed.

Lemma backtracking_search_safe n m self h :
  Heap.bounds n m h → Heap.safe n m h (Heap.backtracking_search self h).1.
Proof.
  intros Hb. unfold Heap.backtracking_search, Heap.store_assignment.
  destruct (store_entries_safe n m (domains self) h Hb) as (h1 & d & E & Hs & Hd & Hfr).
  unfold mbind at 1 2 3, Heap.heap_bind at 1 2 3, Heap.bind at 1 2 3. rewrite E. simpl.
  pose proof (safe_bounds _ _ _ _ Hb Hs) as [Hb1 Hb2].
  set (h2 := Heap.mkHeap _ _).
  assert (Heap.safe n m h1 h2) as Hs2.
  { split_and!; simpl; [done| |done|].
    - intros r Hr. apply lookup_app_l. lia.
    - rewrite length_app. lia. }
  assert (Heap.fresh n h2 (length (Heap.dicts h1))) as Hf.
  { intros k r. unfold Heap.dict_at. simpl. rewrite list_lookup_middle by done. apply Hfr. }
  destruct (inference_safe n m self (length (Heap.dicts h1)) (get_all_arcs self) h2 Hf)
    as [Hs3 _].
  eapply safe_trans; [done|]. eapply safe_trans; [done|].
  destruct (Heap.inference _ _ _ h2) as [h3 [ok| |]]; simpl in *; [|done..].
  eapply safe_trans; [done|]. unfold Heap.backtrack.
  rewrite (bind_run _ _ _ _ _ (read_assignment_run _ h3)).
  apply backtrack_fuel_safe. eapply safe_bounds; [|done]. eapply safe_bounds; [|done]. done.
Qed.

Lemma safe_preserves h h' :
  Heap.safe (length (Heap.lists h)) (length (Heap.dicts h)) h h' → Heap.preserves h h'.
Proof. intros (? & ? & _). by split. Qed.

(** What is read from an object of [h] is read from it in [h']. *)
Lemma preserves_view h h' asg :
  Heap.preserves h h' → Heap.valid h asg →
  Heap.view h' asg = Heap.view h asg ∧ Heap.valid h' asg.
Proof.
  intros [Hl Hd] (d & Hasg & Hrefs).
  assert (Heap.dicts h' !! asg = Some d) as Hasg'.
  { rewrite Hd; [done|]. by eapply lookup_lt_Some. }
  split.
  - unfold Heap.view, Heap.dict_at. rewrite Hasg, Hasg'. unfold Heap.view_entries.
    apply list_fmap_ext. intros idx [k r] Hin%list_elem_of_lookup_2. simpl.
    unfold Heap.list_at. by rewrite Hl by by eapply Hrefs.
  - exists d. split; [done|]. intros k r Hin.
    pose proof (Hrefs k r Hin) as Hr. apply lookup_lt_is_Some.
    rewrite Hl by done. by apply lookup_lt_is_Some.
Qed.

(** C8: branch isolation.  Run from any store [h], one turn of the [for]
    loop of [backtrack] for a candidate value (the deep copy, the forced
    singleton domain, the propagation on the copy and the recursive call)
    leaves every object of [h] as it is in [h]: what it writes, it writes to
    objects it has allocated itself.  So every assignment that is an
    object of [h], the parent state and the copies of the siblings tried
    before among them, reads after the turn as it read before it.  The same
    holds of the whole loop, from any index, and of a whole call of
    [backtrack], at every depth of the recursion and also when the call
    raises. *)
Theorem backtrack_isolation fuel self asg (variable : name) (domain : V) h :
  Heap.preserves h
    (Heap.branch (Heap.backtrack_fuel fuel) self asg variable domain h).1 ∧
  (∀ asg0, Heap.valid h asg0 →
     Heap.view (Heap.branch (Heap.backtrack_fuel fuel) self asg variable domain h).1 asg0
       = Heap.view h asg0 ∧
     Heap.valid (Heap.branch (Heap.backtrack_fuel fuel) self asg variable domain h).1 asg0) ∧
  (∀ turns cands idx,
     Heap.preserves h
       (Heap.backtrack_loop (Heap.backtrack_fuel fuel) turns self asg variable cands idx h).1) ∧
  Heap.preserves h (Heap.backtrack self asg h).1 ∧
  Heap.preserves h (Heap.backtracking_search self h).1.
Proof.
  assert (Heap.bounds (length (Heap.lists h)) (length (Heap.dicts h)) h) as Hb by by split.
  assert (Heap.preserves h
    (Heap.branch (Heap.backtrack_fuel fuel) self asg variable domain h).1) as Hbranch.
  { apply safe_preserves, branch_safe; [|done]. intros ???. apply backtrack_fuel_safe. }
  split_and!.
  - done.
  - intros asg0. by apply preserves_view.
  - intros turns cands idx. apply safe_preserves, backtrack_loop_safe; [|done].
    intros ???. apply backtrack_fuel_safe.
  - apply safe_preserves. unfold Heap.backtrack.
    rewrite (bind_run _ _ _ _ _ (read_assignment_run asg h)). by apply backtrack_fuel_safe.
  - by apply safe_preserves, backtracking_search_safe.
Qed.

End HeapFacts.

(** On the heap [revise] does write in place: on the declared domains of
    [xyz], stored as objects, revising [(X, Y)] changes what the dictionary
    object reads as.  The isolation of the branches is the work of the
    copy, not of [revise]. *)
Example revise_writes_in_place :
  let h := (Heap.store_assignment (domains xyz) (Heap.mkHeap [] [])).1 in
  Heap.view h 0 = [(X, [1; 2; 3]); (Y, [1; 2; 3]); (Z, [1; 2; 3])] ∧
  Heap.view (Heap.revise xyz 0 X Y h).1 0 = [(X, [1; 2]); (Y, [1; 2; 3]); (Z, [1; 2; 3])].
Proof. by vm_compute. Qed.

(** C8 on [xyz]: after the whole search the declared domains, stored as
    the first dictionary object, read as before; the result is another
    object. *)
Example backtracking_search_xyz_isolated :
  let h := (Heap.backtracking_search xyz (Heap.mkHeap [] [])).1 in
  (Heap.backtracking_search xyz (Heap.mkHeap [] [])).2 =
    Ret (count_call (count_call (count_call xyz)), Some 2) ∧
  Heap.view h 0 = [(X, [1; 2]); (Y, [2; 3]); (Z, [1; 2; 3])] ∧
  Heap.view h 1 = [(X, [1]); (Y, [2; 3]); (Z, [2; 3])] ∧
  Heap.view h 2 = [(X, [1]); (Y, [2]); (Z, [3])].
Proof. by vm_compute. Qed.

End Isolation.

(** * The search by value is the search on the heap *)

Module Refinement.
Section HeapRefinement.
Context {K V : Type} `{!EqDecision K, !EqDecision V}.
#[local] Abbreviation name := (name K).
#[local] Abbreviation CSP := (@CSP K V).
#[local] Abbreviation heap := (@Heap.heap K V).
#[local] Abbreviation M := (@Heap.M K V).
#[local] Existing Instance Heap.heap_ret.
#[local] Existing Instance Heap.heap_bind.

Implicit Types (h : heap) (asg r : Heap.loc) (self : CSP) (i j : name).
Implicit Types (d : dict K Heap.loc).

Lemma wf_dict_at h asg :
  Heap.wf h asg →
  NoDup (Heap.dict_at h asg).*2 ∧
  (∀ r, r ∈ (Heap.dict_at h asg).*2 → r < length (Heap.lists h)) ∧
  asg < length (Heap.dicts h).
Proof.
  intros (d & Hd & Hnd & Hb). unfold Heap.dict_at. rewrite Hd.
  split_and!; [done..|]. by eapply lookup_lt_Some.
Qed.

Lemma wf_mono h h' asg :
  Heap.wf h asg →
  Heap.dicts h' !! asg = Heap.dicts h !! asg →
  length (Heap.lists h) ≤ length (Heap.lists h') →
  Heap.wf h' asg.
Proof.
  intros (d & Hd & Hnd & Hb) E Hlen. exists d. split_and!; [congruence|done|].
  intros r Hr. specialize (Hb r Hr). lia.
Qed.

Lemma wf_preserves h h' asg : Heap.wf h asg → Heap.preserves h h' → Heap.wf h' asg.
Proof.
  intros Hwf [Hl Hd]. pose proof Hwf as (d & Hasg & Hnd & Hb).
  exists d. split_and!; [|done|].
  - rewrite Hd; [done|]. by eapply lookup_lt_Some.
  - intros r Hr%Hb. apply lookup_lt_is_Some. rewrite Hl by done. by apply lookup_lt_is_Some.
Qed.

Lemma wf_valid h asg : Heap.wf h asg → Heap.valid h asg.
Proof.
  intros (d & Hd & _ & Hb). exists d. split; [done|]. intros k r Hin. apply Hb.
  apply list_elem_of_fmap. by exists (k, r).
Qed.

(** Lookups in the assignment a dictionary object stands for. *)
Lemma dict_lookup_view_entries h d (k : K) :
  dict_lookup (Heap.view_entries h d) k = Heap.list_at h <$> dict_lookup d k.
Proof.
  induction d as [|[k' r] d IH]; simpl; [done|].
  destruct (decide (name_val k' = k)); [done|]. apply IH.
Qed.

Lemma getitem_list_view asg i h :
  Heap.getitem_list asg i h = (h, getitem (Heap.view h asg) i).
Proof.
  unfold Heap.getitem_list, mbind, Heap.heap_bind, Heap.bind.
  rewrite Isolation.getitem_ref_run. unfold getitem, Heap.view.
  rewrite dict_lookup_view_entries. by destruct (dict_lookup _ (name_val i)).
Qed.

Lemma revise_scan_view self asg i j (di : list V) h :
  Heap.revise_scan self asg i j di h = (h, revise_scan self (Heap.view h asg) i j di).
Proof.
  induction di as [|x di IH]; [done|]. simpl.
  unfold mbind at 1, Heap.heap_bind at 1, Heap.bind at 1. rewrite getitem_list_view.
  destruct (getitem (Heap.view h asg) j) as [dj| |]; simpl; [|done..].
  unfold mbind at 1, Heap.heap_bind at 1, Heap.bind at 1. unfold Heap.lift at 1.
  destruct (revise_possible self i j x dj) as [b| |]; simpl; [|done..].
  unfold mbind at 1, Heap.heap_bind at 1, Heap.bind at 1. rewrite IH.
  by destruct (revise_scan self (Heap.view h asg) i j di).
Qed.

(** What the dictionary stands for when the list objects it binds read as
    before. *)
Lemma view_entries_frame h h' d :
  (∀ r, r ∈ d.*2 → Heap.list_at h' r = Heap.list_at h r) →
  Heap.view_entries h' d = Heap.view_entries h d.
Proof.
  intros H. unfold Heap.view_entries. apply list_fmap_ext.
  intros idx [k r] Hin%list_elem_of_lookup_2. simpl. f_equal. apply H.
  apply list_elem_of_fmap. by exists (k, r).
Qed.

Lemma dict_lookup_ref d (k : K) r : dict_lookup d k = Some r → r ∈ d.*2.
Proof.
  intros (n & Hin & _)%dict_lookup_Some_elem. apply list_elem_of_fmap. by exists (n, r).
Qed.

(** Writing to the list object bound to [i] is [assignment[i] = l] by
    value, as no other name is bound to that object. *)
Lemma view_entries_write h d i r (l : list V) :
  NoDup d.*2 → (∀ r', r' ∈ d.*2 → r' < length (Heap.lists h)) →
  dict_lookup d (name_val i) = Some r →
  Heap.view_entries (Heap.mkHeap (<[r:=l]> (Heap.lists h)) (Heap.dicts h)) d =
    setitem (Heap.view_entries h d) i l.
Proof.
  induction d as [|[k r0] d IH]; simpl; [done|].
  intros [Hr0 Hnd]%NoDup_cons Hb Hi.
  destruct (decide (name_val k = name_val i)) as [E|N].
  - injection Hi as ->. unfold Heap.list_at at 1. simpl.
    rewrite list_lookup_insert_eq by (apply Hb; left). f_equal.
    apply view_entries_frame. intros r' Hr'. unfold Heap.list_at. simpl.
    rewrite list_lookup_insert_ne; [done|]. by intros ->.
  - f_equal.
    + unfold Heap.list_at. simpl. rewrite list_lookup_insert_ne; [done|].
      intros ->. by apply dict_lookup_ref in Hi.
    + apply IH; [done| |done]. intros r' Hr'. apply Hb. by right.
Qed.

Lemma agrees_weaken {A B} (R R' : heap → A → B → Prop)
    (run : heap * result A) (res : result B) :
  (∀ h' x b, R h' x b → R' h' x b) →
  Heap.agrees R run res → Heap.agrees R' run res.
Proof. intros HR. destruct res; simpl; [|done..]. intros (x & ? & ?). eauto. Qed.

Lemma view_dicts h h' asg :
  Heap.dicts h' = Heap.dicts h → Heap.dict_at h' asg = Heap.dict_at h asg.
Proof. unfold Heap.dict_at. by intros ->. Qed.

(** The first step of a bind on the heap. *)
Ltac heap_step := unfold mbind at 1, Heap.heap_bind at 1, Heap.bind at 1.

Lemma revise_delete_view asg i (incs : list V) h :
  Heap.wf h asg →
  Heap.agrees (fun h' (_ : unit) a' =>
                 Heap.view h' asg = a' ∧ Heap.dicts h' = Heap.dicts h ∧
                 length (Heap.lists h') = length (Heap.lists h))
    (Heap.revise_delete asg i incs h) (revise_delete (Heap.view h asg) i incs).
Proof.
  revert h. induction incs as [|x incs IH]; intros h Hwf; simpl.
  { by exists (). }
  heap_step. rewrite Isolation.getitem_ref_run. unfold getitem, Heap.view.
  rewrite dict_lookup_view_entries.
  destruct (dict_lookup (Heap.dict_at h asg) (name_val i)) as [r|] eqn:Hr; simpl; [|done].
  heap_step. simpl. heap_step. unfold Heap.lift at 1.
  destruct (list_remove_first x (Heap.list_at h r)) as [l'| |]; simpl; [|done..].
  heap_step. simpl. set (h1 := Heap.mkHeap _ _).
  destruct (wf_dict_at _ _ Hwf) as (Hnd & Hb & Hasg).
  assert (Heap.view h1 asg = setitem (Heap.view h asg) i l') as Hview.
  { unfold Heap.view. rewrite (view_dicts h h1) by done. by apply view_entries_write. }
  assert (Heap.wf h1 asg) as Hwf1.
  { eapply wf_mono; [done|done|]. simpl. by rewrite length_insert. }
  fold (Heap.view h asg). rewrite <- Hview.
  eapply agrees_weaken; [|by apply IH]. simpl.
  intros h' _ a' (? & -> & ->). split_and!; [done..|]. by rewrite length_insert.
Qed.

Lemma revise_view self asg i j h :
  Heap.wf h asg →
  Heap.agrees (fun h' (b : bool) res =>
                 Heap.view h' asg = res.1 ∧ b = res.2 ∧
                 Heap.dicts h' = Heap.dicts h ∧
                 length (Heap.lists h') = length (Heap.lists h))
    (Heap.revise self asg i j h) (revise self (Heap.view h asg) i j).
Proof.
  intros Hwf. unfold Heap.revise, revise.
  heap_step. rewrite getitem_list_view.
  destruct (getitem (Heap.view h asg) i) as [di| |]; simpl; [|done..].
  heap_step. rewrite revise_scan_view.
  destruct (revise_scan self (Heap.view h asg) i j di) as [incs| |]; simpl; [|done..].
  heap_step. pose proof (revise_delete_view asg i incs h Hwf) as Hdel.
  destruct (revise_delete (Heap.view h asg) i incs) as [a'| |]; simpl in *.
  - destruct Hdel as ([] & E & Hv & Hd & Hl).
    destruct (Heap.revise_delete asg i incs h) as [h' res]. simpl in *. subst res. simpl.
    eexists. split; [done|]. by split_and!.
  - destruct (Heap.revise_delete asg i incs h) as [h' res]. simpl in *. by subst res.
  - destruct (Heap.revise_delete asg i incs h) as [h' res]. simpl in *. by subst res.
Qed.

Lemma inference_step_view self asg (queue : list (name * name)) (arc : name * name) h :
  Heap.wf h asg →
  Heap.agrees (fun h' x y =>
                 Heap.dicts h' = Heap.dicts h ∧
                 length (Heap.lists h') = length (Heap.lists h) ∧
                 match x, y with
                 | inl q, inl (a', q') => q = q' ∧ Heap.view h' asg = a'
                 | inr b, inr (a', _, b') => b = b' ∧ Heap.view h' asg = a'
                 | _, _ => False
                 end)
    (Heap.inference_step self asg queue arc h)
    (inference_step self (Heap.view h asg) queue arc).
Proof.
  intros Hwf. destruct arc as [xi xj]. unfold Heap.inference_step, inference_step. simpl.
  heap_step. pose proof (revise_view self asg xi xj h Hwf) as Hrev.
  destruct (revise self (Heap.view h asg) xi xj) as [[a' b]| |];
    destruct (Heap.revise self asg xi xj h) as [h1 res]; simpl in *; [|by subst res..].
  destruct Hrev as (b0 & -> & Hv & -> & Hd & Hl). simpl.
  destruct b; [|by eexists].
  heap_step. rewrite getitem_list_view, Hv.
  destruct (getitem a' xi) as [dxi| |]; simpl; [|done..].
  destruct (bool_decide (length dxi = 0)); [by eexists|].
  heap_step. unfold Heap.lift at 1.
  destruct (get_all_neighboring_arcs self xi) as [nb| |]; simpl; [|done..].
  by eexists.
Qed.

Lemma inference_loop_view fuel self asg (queue : list (name * name)) h :
  Heap.wf h asg →
  Heap.agrees (fun h' (b : bool) res =>
                 Heap.view h' asg = res.1.1 ∧ b = res.2 ∧
                 Heap.dicts h' = Heap.dicts h ∧
                 length (Heap.lists h') = length (Heap.lists h))
    (Heap.inference_loop fuel self asg queue h)
    (inference_loop fuel self (Heap.view h asg) queue).
Proof.
  revert queue h. induction fuel as [|fuel IH]; intros queue h Hwf; simpl.
  - destruct (queue_pop queue) as [[queue' arc]|]; [done|]. by exists true.
  - destruct (queue_pop queue) as [[queue' arc]|]; [|by exists true].
    heap_step. pose proof (inference_step_view self asg queue' arc h Hwf) as Hstep.
    destruct (inference_step self (Heap.view h asg) queue' arc) as [next| |];
      destruct (Heap.inference_step self asg queue' arc h) as [h1 res]; simpl in *;
      [|by subst res..].
    destruct Hstep as (x & -> & Hd & Hl & Hxy). simpl.
    destruct x as [q|b], next as [[a' q']|[[a' q'] b']]; try done.
    + destruct Hxy as [-> <-].
      eapply agrees_weaken; [|apply IH].
      * simpl. intros h' b res (? & ? & -> & ->). by split_and!.
      * eapply wf_mono; [done|by rewrite Hd|lia].
    + destruct Hxy as [-> <-]. simpl. by eexists.
Qed.

Lemma inference_view self asg (queue : list (name * name)) h :
  Heap.wf h asg →
  Heap.agrees (fun h' (b : bool) res =>
                 Heap.view h' asg = res.1.1 ∧ b = res.2 ∧
                 Heap.dicts h' = Heap.dicts h ∧
                 length (Heap.lists h') = length (Heap.lists h))
    (Heap.inference self asg queue h) (inference self (Heap.view h asg) queue).
Proof.
  intros Hwf. unfold Heap.inference, inference.
  rewrite (Isolation.bind_run _ _ _ _ _ (Isolation.read_assignment_run asg h)).
  by apply inference_loop_view.
Qed.

Lemma list_at_app h (ext : list (list V)) (D : list (dict K Heap.loc)) r :
  r < length (Heap.lists h) →
  Heap.list_at (Heap.mkHeap (Heap.lists h ++ ext) D) r = Heap.list_at h r.
Proof. intros Hr. unfold Heap.list_at. simpl. by rewrite lookup_app_l. Qed.

Lemma list_at_new h (l : list V) (ext : list (list V)) (D : list (dict K Heap.loc)) :
  Heap.list_at (Heap.mkHeap (Heap.lists h ++ l :: ext) D) (length (Heap.lists h)) = l.
Proof. unfold Heap.list_at. simpl. by rewrite list_lookup_middle. Qed.

(** [copy.deepcopy] of a dictionary that binds no list object twice: the
    copy stands for the same assignment, in new list objects. *)
Lemma deepcopy_entries_view (memo : list (Heap.loc * Heap.loc)) d h :
  NoDup d.*2 → (∀ r, r ∈ d.*2 → r < length (Heap.lists h)) →
  (∀ r, r ∈ d.*2 → r ∉ memo.*1) →
  ∃ h' d' ext, Heap.deepcopy_entries memo d h = (h', Ret d') ∧
    Heap.dicts h' = Heap.dicts h ∧ Heap.lists h' = Heap.lists h ++ ext ∧
    Heap.view_entries h' d' = Heap.view_entries h d ∧
    NoDup d'.*2 ∧
    ∀ r', r' ∈ d'.*2 → length (Heap.lists h) ≤ r' < length (Heap.lists h').
Proof.
  revert memo h. induction d as [|[k r] d IH]; intros memo h Hnd Hb Hmemo; simpl.
  { exists h, [], []. rewrite app_nil_r.
    split_and!; [done|done|done|done|constructor|by intros ? ?%elem_of_nil]. }
  simpl in Hnd. apply NoDup_cons in Hnd as [Hr Hnd].
  assert (list_find (fun e : Heap.loc * Heap.loc => e.1 = r) memo = None) as ->.
  { apply list_find_None, Forall_forall. intros [r1 r2] Hin E. simpl in E. subst r1.
    apply (Hmemo r); [left|]. apply list_elem_of_fmap. by exists (r, r2). }
  heap_step. simpl. heap_step. simpl. heap_step. set (h1 := Heap.mkHeap _ _).
  destruct (IH (@pair Heap.loc Heap.loc r (length (Heap.lists h)) :: memo) h1)
    as (h' & d' & ext & E & Hd & Hl & Hv & Hnd' & Hb'); [done| | |].
  { intros r' Hr'. simpl. rewrite length_app. simpl.
    assert (r' < length (Heap.lists h)) by (apply Hb; by right). lia. }
  { intros r' Hr' [->|?]%elem_of_cons; [done|]. apply (Hmemo r'); [by right|done]. }
  rewrite E. simpl in Hl. rewrite <- app_assoc in Hl. simpl in Hl.
  exists h', ((k, length (Heap.lists h)) :: d'), (Heap.list_at h r :: ext).
  simpl in Hb'. rewrite length_app in Hb'. simpl in Hb'.
  split_and!; [done|done|done| | |].
  - simpl. f_equal.
    + f_equal. destruct h' as [L D]. simpl in Hl. subst L. apply list_at_new.
    + rewrite Hv. apply view_entries_frame. intros r' Hr'.
      apply (list_at_app h [Heap.list_at h r]). apply Hb. by right.
  - simpl. apply NoDup_cons. split; [|done]. intros Hin%Hb'. lia.
  - simpl. intros r' [->|Hin%Hb']%elem_of_cons; [|lia].
    rewrite Hl, length_app. simpl. lia.
Qed.

Lemma deepcopy_view asg h :
  Heap.wf h asg →
  ∃ h' new, Heap.deepcopy asg h = (h', Ret new) ∧
            Heap.wf h' new ∧ Heap.view h' new = Heap.view h asg.
Proof.
  intros Hwf. destruct (wf_dict_at _ _ Hwf) as (Hnd & Hb & Hasg).
  unfold Heap.deepcopy. heap_step. simpl. heap_step.
  destruct (deepcopy_entries_view [] (Heap.dict_at h asg) h Hnd Hb)
    as (h1 & d' & ext & E & Hd & Hl & Hv & Hnd' & Hb'); [by intros ?? ?%elem_of_nil|].
  rewrite E. simpl. eexists _, _. split; [done|].
  assert (Heap.dict_at (Heap.mkHeap (Heap.lists h1) (Heap.dicts h1 ++ [d']))
            (length (Heap.dicts h1)) = d') as Hat.
  { unfold Heap.dict_at. simpl. by rewrite list_lookup_middle. }
  split.
  - exists d'. split_and!; simpl; [by rewrite list_lookup_middle|done|].
    intros r' Hr'%Hb'. lia.
  - unfold Heap.view. rewrite Hat, <- Hv.
    apply view_entries_frame. intros r' Hr'. done.
Qed.

Lemma view_entries_setitem_new h (D : list (dict K Heap.loc)) d (k : name) (l : list V) :
  (∀ r, r ∈ d.*2 → r < length (Heap.lists h)) →
  Heap.view_entries (Heap.mkHeap (Heap.lists h ++ [l]) D)
                    (setitem d k (length (Heap.lists h))) =
    setitem (Heap.view_entries h d) k l.
Proof.
  induction d as [|[k0 r0] d IH]; intros Hb; simpl.
  { by rewrite list_at_new. }
  destruct (decide (name_val k0 = name_val k)); simpl.
  - rewrite list_at_new. f_equal. apply view_entries_frame.
    intros r' Hr'. apply list_at_app, Hb. by right.
  - rewrite list_at_app by (apply Hb; left). f_equal. apply IH.
    intros r' Hr'. apply Hb. by right.
Qed.

Lemma setitem_refs d (k : name) r r' :
  r' ∈ (setitem d k r).*2 → r' ∈ d.*2 ∨ r' = r.
Proof.
  intros ([k' r''] & -> & Hin)%list_elem_of_fmap. simpl.
  apply elem_of_setitem in Hin as [Hin| ->]; [left|by right].
  apply list_elem_of_fmap. by exists (k', r'').
Qed.

Lemma setitem_NoDup d (k : name) r :
  NoDup d.*2 → r ∉ d.*2 → NoDup (setitem d k r).*2.
Proof.
  induction d as [|[k0 r0] d IH]; simpl; intros Hnd Hr.
  { apply NoDup_singleton. }
  apply NoDup_cons in Hnd as [Hr0 Hnd].
  destruct (decide (name_val k0 = name_val k)); simpl; apply NoDup_cons.
  - split; [|done]. intros ?. apply Hr. by right.
  - split; [|apply IH; [done|]; intros ?; apply Hr; by right].
    intros [?| ->]%setitem_refs; [done|]. apply Hr. left.
Qed.

Lemma setitem_new_view asg (k : name) (l : list V) h :
  Heap.wf h asg →
  Heap.wf (Heap.setitem_new asg k l h).1 asg ∧
  Heap.view (Heap.setitem_new asg k l h).1 asg = setitem (Heap.view h asg) k l.
Proof.
  intros Hwf. destruct (wf_dict_at _ _ Hwf) as (Hnd & Hb & Hasg).
  change (Heap.setitem_new asg k l h).1 with
    (Heap.mkHeap (Heap.lists h ++ [l])
       (<[asg:=setitem (Heap.dict_at h asg) k (length (Heap.lists h))]> (Heap.dicts h))).
  set (d' := setitem (Heap.dict_at h asg) k (length (Heap.lists h))).
  assert (Heap.dict_at (Heap.mkHeap (Heap.lists h ++ [l])
            (<[asg:=d']> (Heap.dicts h))) asg = d') as Hat.
  { unfold Heap.dict_at. simpl. by rewrite list_lookup_insert_eq. }
  split.
  - exists d'. split_and!; simpl.
    + by rewrite list_lookup_insert_eq.
    + apply setitem_NoDup; [done|]. intros Hin%Hb. lia.
    + intros r' [Hin%Hb| ->]%setitem_refs; rewrite length_app; simpl; lia.
  - unfold Heap.view at 1. rewrite Hat.
    by apply view_entries_setitem_new.
Qed.

Lemma backtrack_loop_branch
    (prec : CSP → @assignment K V → result (CSP * @search_result K V))
    self (a : @assignment K V) (variable : name) (x : V) (rest : list V) :
  backtrack_loop prec self a variable (x :: rest) =
  res ← branch prec self a variable x;
  if truthy res.2 then Ret res else backtrack_loop prec res.1 a variable rest.
Proof.
  simpl. unfold branch.
  destruct (get_all_neighboring_arcs self variable) as [arcs| |]; simpl; [|done..].
  destruct (inference self (setitem a variable [x]) arcs) as [[[a1 q1] [|]]| |];
    simpl; [|done..].
  by destruct (prec self a1) as [[s' r]| |].
Qed.

Lemma setitem_new_run asg (k : name) (l : list V) h :
  Heap.setitem_new asg k l h = ((Heap.setitem_new asg k l h).1, Ret ()).
Proof. done. Qed.

Lemma truthy_view h (x : CSP * option Heap.loc) (y : CSP * @search_result K V) :
  Heap.same_result h x y → Heap.truthy x.2 h = (h, Ret (truthy y.2)).
Proof.
  destruct x as [s [res|]], y as [s' [sol|]]; intros [_ H]; simpl in *; try done.
  destruct H as [_ <-]. unfold Heap.view. heap_step. simpl.
  by destruct (Heap.dict_at h res).
Qed.

(** One candidate value on the heap and by value. *)
Lemma branch_view (rec : CSP → Heap.loc → M (CSP * option Heap.loc))
    (prec : CSP → @assignment K V → result (CSP * @search_result K V))
    self asg (variable : name) (x : V) h :
  (∀ s a h1, Heap.wf h1 a →
     Heap.agrees Heap.same_result (rec s a h1) (prec s (Heap.view h1 a))) →
  Heap.wf h asg →
  Heap.agrees Heap.same_result (Heap.branch rec self asg variable x h)
    (branch prec self (Heap.view h asg) variable x).
Proof.
  intros Hrec Hwf. unfold Heap.branch, branch.
  destruct (deepcopy_view asg h Hwf) as (h1 & new & E1 & Hwf1 & Hv1).
  rewrite (Isolation.bind_run _ _ _ _ _ E1).
  rewrite (Isolation.bind_run _ _ _ _ _ (setitem_new_run new variable [x] h1)).
  destruct (setitem_new_view new variable [x] h1 Hwf1) as [Hwf2 Hv2].
  rewrite Hv1 in Hv2. set (h2 := (Heap.setitem_new new variable [x] h1).1) in *.
  heap_step. unfold Heap.lift at 1.
  destruct (get_all_neighboring_arcs self variable) as [arcs| |]; simpl; [|done..].
  heap_step. pose proof (inference_view self new arcs h2 Hwf2) as Hinf.
  rewrite Hv2 in Hinf.
  destruct (inference self (setitem (Heap.view h asg) variable [x]) arcs)
    as [[[a1 q1] ok]| |];
    destruct (Heap.inference self new arcs h2) as [h3 res]; simpl in *; [|by subst res..].
  destruct Hinf as (b & -> & Hv3 & -> & Hd & Hl). simpl.
  destruct ok; [|eexists; split; [done|]; by split].
  rewrite <- Hv3. apply Hrec.
  apply (wf_mono h2); [exact Hwf2|by rewrite Hd|by rewrite Hl].
Qed.

Lemma list_at_lookup h r (l : list V) : Heap.lists h !! r = Some l → Heap.list_at h r = l.
Proof. unfold Heap.list_at. by intros ->. Qed.

(** The loop over the list object of the candidates, read by index at every
    turn, is the loop over the list of the candidates: no turn writes to
    that object, or to the parent assignment. *)
Lemma backtrack_loop_view (rec : CSP → Heap.loc → M (CSP * option Heap.loc))
    (prec : CSP → @assignment K V → result (CSP * @search_result K V))
    turns self asg (variable : name) (cands : Heap.loc) (l rest : list V) idx h :
  (∀ s a h1, Heap.wf h1 a →
     Heap.agrees Heap.same_result (rec s a h1) (prec s (Heap.view h1 a))) →
  (∀ n m s a h1, Heap.bounds n m h1 → Heap.safe n m h1 (rec s a h1).1) →
  Heap.wf h asg → Heap.lists h !! cands = Some l →
  drop idx l = rest → length rest ≤ turns →
  Heap.agrees Heap.same_result
    (Heap.backtrack_loop rec turns self asg variable cands idx h)
    (backtrack_loop prec self (Heap.view h asg) variable rest).
Proof.
  intros Hrec Hsafe. revert idx turns self h.
  induction rest as [|x rest IH]; intros idx turns self h Hwf Hc Hdrop Hturns.
  - assert (l !! idx = None) as Hidx.
    { apply lookup_ge_None_2. pose proof (length_drop l idx) as E.
      rewrite Hdrop in E. simpl in E. lia. }
    destruct turns; simpl; heap_step; simpl;
      rewrite (list_at_lookup _ _ _ Hc), Hidx; (eexists; split; [done|]; by split).
  - assert (l !! idx = Some x) as Hidx.
    { pose proof (lookup_drop l idx 0) as E. rewrite Hdrop, Nat.add_0_r in E. done. }
    assert (drop (S idx) l = rest) as Hdrop'.
    { replace (S idx) with (idx + 1) by lia. by rewrite <- drop_drop, Hdrop. }
    destruct turns as [|turns]; [simpl in Hturns; lia|].
    rewrite backtrack_loop_branch. simpl. heap_step. simpl.
    rewrite (list_at_lookup _ _ _ Hc), Hidx. heap_step.
    pose proof (branch_view rec prec self asg variable x h Hrec Hwf) as Hbr.
    pose proof (Isolation.branch_safe (length (Heap.lists h)) (length (Heap.dicts h))
                  rec self asg variable x h (Hsafe _ _) ltac:(by split)) as Hsf.
    destruct (branch prec self (Heap.view h asg) variable x) as [[s' r]| |];
      destruct (Heap.branch rec self asg variable x h) as [h4 res]; simpl in *;
      [|by subst res..].
    destruct Hbr as (xres & -> & Hres). simpl.
    heap_step. rewrite (truthy_view h4 xres (s', r) Hres). simpl.
    destruct (truthy r); [by eexists|].
    pose proof (Isolation.safe_preserves _ _ Hsf) as Hpre.
    destruct (Isolation.preserves_view h h4 asg Hpre (wf_valid _ _ Hwf)) as [Hv _].
    destruct Hres as [-> _]. rewrite <- Hv. apply IH; [|by destruct Hpre as [-> _];
      [|eapply lookup_lt_Some]|done|simpl in Hturns; lia].
    by eapply wf_preserves.
Qed.

Lemma backtrack_fuel_view fuel self asg h :
  Heap.wf h asg →
  Heap.agrees Heap.same_result (Heap.backtrack_fuel fuel self asg h)
    (backtrack_fuel fuel self (Heap.view h asg)).
Proof.
  revert self asg h. induction fuel as [|fuel IH]; intros self asg h Hwf; [done|].
  simpl. rewrite (Isolation.bind_run _ _ _ _ _ (Isolation.read_assignment_run asg h)).
  destruct (assignment_done (Heap.view h asg)).
  { eexists. split; [done|]. by split. }
  destruct (select_unassigned_variable (Heap.view h asg)) as [variable|]; [|done].
  heap_step. rewrite Isolation.getitem_ref_run. unfold getitem, Heap.view at 2.
  rewrite dict_lookup_view_entries.
  destruct (dict_lookup (Heap.dict_at h asg) (name_val variable)) as [r|] eqn:Hr;
    simpl; [|done].
  heap_step. simpl.
  destruct (wf_dict_at _ _ Hwf) as (_ & Hb & _).
  assert (is_Some (Heap.lists h !! r)) as [l Hl].
  { apply lookup_lt_is_Some, Hb. by eapply dict_lookup_ref. }
  rewrite (list_at_lookup _ _ _ Hl).
  eapply (backtrack_loop_view _ (backtrack_fuel fuel));
    [intros s a h1; apply IH
    |intros n m s a h1; apply Isolation.backtrack_fuel_safe
    |done|exact Hl|done|done].
Qed.

Lemma store_entries_view (a : @assignment K V) h :
  ∃ h' d ext, Heap.store_entries a h = (h', Ret d) ∧
    Heap.dicts h' = Heap.dicts h ∧ Heap.lists h' = Heap.lists h ++ ext ∧
    Heap.view_entries h' d = a ∧ NoDup d.*2 ∧
    ∀ r, r ∈ d.*2 → length (Heap.lists h) ≤ r < length (Heap.lists h').
Proof.
  revert h. induction a as [|[k l] a IH]; intros h; simpl.
  { exists h, [], []. rewrite app_nil_r.
    split_and!; [done|done|done|done|constructor|by intros ? ?%elem_of_nil]. }
  heap_step. simpl. heap_step. set (h1 := Heap.mkHeap _ _).
  destruct (IH h1) as (h' & d & ext & E & Hd & Hl & Hv & Hnd & Hb).
  rewrite E. simpl in Hl. rewrite <- app_assoc in Hl. simpl in Hl.
  simpl in Hb. rewrite length_app in Hb. simpl in Hb.
  exists h', ((k, length (Heap.lists h)) :: d), (l :: ext).
  split_and!; [done|done|done| | |].
  - simpl. rewrite Hv. do 2 f_equal.
    destruct h' as [L D]. simpl in Hl. subst L. apply list_at_new.
  - simpl. apply NoDup_cons. split; [|done]. intros Hin%Hb. lia.
  - simpl. intros r' [->|Hin%Hb]%elem_of_cons; [|lia].
    rewrite Hl, length_app. simpl. lia.
Qed.

(** The search by value computes what the search on the heap computes.
    From any store, [Heap.backtracking_search] and [backtracking_search]
    both return, with the same counters and either both [False] or a
    dictionary object that stands for the assignment returned by value, or
    both raise the same exception.  With [backtracking_search_total] the
    search on the heap is never cut off either. *)
Theorem backtracking_search_refines self h :
  Heap.agrees Heap.same_result (Heap.backtracking_search self h)
    (backtracking_search self).
Proof.
  unfold Heap.backtracking_search, backtracking_search.
  destruct (store_entries_view (domains self) h)
    as (h1 & d & ext & E & Hd & Hl & Hv & Hnd & Hb).
  set (h2 := Heap.mkHeap (Heap.lists h1) (Heap.dicts h1 ++ [d])).
  assert (Heap.store_assignment (domains self) h = (h2, Ret (length (Heap.dicts h1))))
    as Hstore.
  { unfold Heap.store_assignment. heap_step. by rewrite E. }
  rewrite (Isolation.bind_run _ _ _ _ _ Hstore).
  assert (Heap.wf h2 (length (Heap.dicts h1))) as Hwf.
  { exists d. split_and!; simpl; [by rewrite list_lookup_middle|done|].
    intros r Hr%Hb. lia. }
  assert (Heap.view h2 (length (Heap.dicts h1)) = domains self) as Hview.
  { unfold Heap.view, Heap.dict_at. simpl. rewrite list_lookup_middle by done.
    rewrite <- Hv. by apply view_entries_frame. }
  heap_step.
  pose proof (inference_view self (length (Heap.dicts h1)) (get_all_arcs self) h2 Hwf)
    as Hinf.
  rewrite Hview in Hinf.
  destruct (inference self (domains self) (get_all_arcs self)) as [[[a1 q1] ok]| |];
    destruct (Heap.inference self (length (Heap.dicts h1)) (get_all_arcs self) h2)
      as [h3 res]; simpl in *; [|by subst res..].
  destruct Hinf as (b & -> & Hv3 & _ & Hd3 & Hl3). simpl.
  unfold Heap.backtrack, backtrack.
  rewrite (Isolation.bind_run _ _ _ _ _ (Isolation.read_assignment_run _ h3)).
  rewrite <- Hv3. apply backtrack_fuel_view.
  apply (wf_mono h2); [exact Hwf|by rewrite Hd3|by rewrite Hl3].
Qed.

End HeapRefinement.

(** The refinement on [xyz], from the empty store: the dictionary object
    the search on the heap returns reads as the assignment returned by
    value. *)
Example backtracking_search_refines_xyz :
  (Heap.backtracking_search xyz (Heap.mkHeap [] [])).2 =
    Ret (count_call (count_call (count_call xyz)), Some 2) ∧
  backtracking_search xyz =
    Ret (count_call (count_call (count_call xyz)),
         Some (Heap.view (Heap.backtracking_search xyz (Heap.mkHeap [] [])).1 2)).
Proof. by vm_compute. Qed.

End Refinement.

(** * Building a network *)

Section Construction.
Context {K V : Type} `{!EqDecision K, !EqDecision V}.
#[local] Abbreviation name := (name K).
#[local] Abbreviation dict := (dict K).
#[local] Abbreviation CSP := (@CSP K V).
#[local] Abbreviation assignment := (@assignment K V).

Implicit Types (self s : CSP) (a : assignment) (i j n m : name) (k l : K) (x y : V).
Implicit Types (f g : V → V → bool).

Lemma dict_wf_lookup {X} (d : dict X) n (x : X) :
  dict_wf d → (n, x) ∈ d → dict_lookup d (name_val n) = Some x.
Proof.
  unfold dict_wf, keys. induction d as [|[m y] d IH]; simpl; [by intros _ ?%elem_of_nil|].
  intros [Hm Hnd]%NoDup_cons Hin.
  apply elem_of_cons in Hin as [[= <- <-]|Hin].
  - by rewrite decide_True.
  - rewrite decide_False; [by apply IH|].
    intros E. apply Hm. rewrite E. apply list_elem_of_fmap. exists n. split; [done|].
    apply list_elem_of_fmap. by exists (n, x).
Qed.

Lemma setitem_absent {X} (d : dict X) n (x : X) :
  dict_lookup d (name_val n) = None → setitem d n x = d ++ [(n, x)].
Proof.
  induction d as [|[m y] d IH]; simpl; [done|].
  destruct (decide (name_val m = name_val n)); [done|]. intros H. f_equal. by apply IH.
Qed.

Lemma dict_wf_setitem {X} (d : dict X) n (x : X) : dict_wf d → dict_wf (setitem d n x).
Proof.
  unfold dict_wf. intros Hnd.
  destruct (dict_lookup d (name_val n)) as [y|] eqn:E.
  - rewrite keys_setitem; eauto.
  - rewrite setitem_absent by done. unfold keys. rewrite !fmap_app. simpl.
    apply NoDup_app. split_and!; [done| |apply NoDup_singleton].
    intros k Hk ->%list_elem_of_singleton.
    assert (is_Some (dict_lookup d (name_val n))) as [? ?]; [|congruence].
    apply dict_lookup_is_Some_key.
    apply list_elem_of_fmap in Hk as (n' & ? & ?). eauto.
Qed.

Lemma dict_wf_nil {X} : dict_wf (@nil (name * X)).
Proof. apply NoDup_nil_2. Qed.

Lemma filter_filter_and {A} (p q : A → bool) (l : list A) :
  List.filter q (List.filter p l) = List.filter (fun z => p z && q z) l.
Proof.
  induction l as [|z l IH]; simpl; [done|].
  destruct (p z) eqn:Ep; simpl; [|done]. rewrite ?Ep. destruct (q z); simpl; by rewrite IH.
Qed.

Lemma filter_idempotent {A} (p : A → bool) (l : list A) :
  List.filter p (List.filter p l) = List.filter p l.
Proof.
  rewrite filter_filter_and. apply filter_ext. intros z. by destruct (p z).
Qed.

(** *** [add_constraint_one_way] *)

Lemma table_lookup self k l ci :
  dict_lookup (constraints self) k = Some ci → table self k l = dict_lookup ci l.
Proof. intros H. unfold table. by rewrite H. Qed.

Lemma getitem_Some {X} (d : dict X) n (x : X) :
  dict_lookup d (name_val n) = Some x → getitem d n = Ret x.
Proof. apply getitem_Ret. Qed.

Lemma getitem_None {X} (d : dict X) n :
  dict_lookup d (name_val n) = None → getitem d n = Raise KeyError.
Proof. unfold getitem. by intros ->. Qed.

Lemma add_constraint_one_way_ok self i j f ci :
  dict_lookup (constraints self) (name_val i) = Some ci →
  is_Some (dict_lookup ci (name_val j)) ∨
    (is_Some (dict_lookup (domains self) (name_val i)) ∧
     is_Some (dict_lookup (domains self) (name_val j))) →
  add_constraint_one_way self i j f =
    Ret (set_constraints self
           (setitem (constraints self) i
              (setitem ci j (List.filter (fun p => f p.1 p.2)
                                         (arc_base self (name_val i) (name_val j)))))).
Proof.
  intros Hci Hj. unfold add_constraint_one_way. rewrite (getitem_Some _ _ _ Hci). simpl.
  unfold arc_base. rewrite (table_lookup _ _ _ _ Hci). unfold contains.
  destruct (dict_lookup ci (name_val j)) as [cij|] eqn:Hcij; simpl.
  - by rewrite (getitem_Some _ _ _ Hcij).
  - destruct Hj as [[? ?]|[[di Hdi] [dj Hdj]]]; [done|].
    rewrite (getitem_Some _ _ _ Hdi), (getitem_Some _ _ _ Hdj). simpl.
    rewrite (getitem_Some _ j _ (dict_lookup_setitem_eq _ _ _)). simpl.
    rewrite setitem_setitem. unfold domain_of. by rewrite Hdi, Hdj.
Qed.

Lemma add_constraint_one_way_KeyError self i j f :
  dict_lookup (constraints self) (name_val i) = None ∨
    (table self (name_val i) (name_val j) = None ∧
     (dict_lookup (domains self) (name_val i) = None ∨
      dict_lookup (domains self) (name_val j) = None)) →
  add_constraint_one_way self i j f = Raise KeyError.
Proof.
  unfold add_constraint_one_way.
  destruct (dict_lookup (constraints self) (name_val i)) as [ci|] eqn:Hci.
  2:{ intros _. by rewrite (getitem_None _ _ Hci). }
  rewrite (getitem_Some _ _ _ Hci), (table_lookup _ _ _ _ Hci). simpl.
  intros [?|[Ht Hd]]; [done|]. unfold contains. rewrite Ht.
  destruct (dict_lookup (domains self) (name_val i)) as [di|] eqn:Hdi.
  2:{ by rewrite (getitem_None _ _ Hdi). }
  rewrite (getitem_Some _ _ _ Hdi). simpl.
  destruct Hd as [?|Hd]; [done|]. by rewrite (getitem_None _ _ Hd).
Qed.

Lemma table_set_constraints self i j ci (X : list (V * V)) k l :
  dict_lookup (constraints self) (name_val i) = Some ci →
  table (set_constraints self (setitem (constraints self) i (setitem ci j X))) k l =
    if decide (k = name_val i ∧ l = name_val j) then Some X else table self k l.
Proof.
  intros Hci. unfold table at 1. simpl. rewrite dict_lookup_setitem.
  destruct (decide (k = name_val i)) as [->|Hk]; simpl.
  - rewrite dict_lookup_setitem, (table_lookup _ _ _ _ Hci).
    destruct (decide (l = name_val j)) as [->|Hl].
    + by rewrite decide_True.
    + rewrite decide_False; [done|]. by intros [_ ?].
  - rewrite decide_False; [done|]. by intros [? _].
Qed.

(** The condition under which [add_constraint_one_way] finds every key it
    looks up. *)
Lemma add_constraint_one_way_cases self i j :
  (∃ ci, dict_lookup (constraints self) (name_val i) = Some ci ∧
     (is_Some (dict_lookup ci (name_val j)) ∨
      (is_Some (dict_lookup (domains self) (name_val i)) ∧
       is_Some (dict_lookup (domains self) (name_val j))))) ∨
  (dict_lookup (constraints self) (name_val i) = None ∨
    (table self (name_val i) (name_val j) = None ∧
     (dict_lookup (domains self) (name_val i) = None ∨
      dict_lookup (domains self) (name_val j) = None))).
Proof.
  destruct (dict_lookup (constraints self) (name_val i)) as [ci|] eqn:Hci; [|by right; left].
  rewrite (table_lookup _ _ _ _ Hci).
  destruct (dict_lookup ci (name_val j)) as [cij|] eqn:Hcij; [left; eauto|].
  destruct (dict_lookup (domains self) (name_val i)) as [di|]; [|right; right; eauto].
  destruct (dict_lookup (domains self) (name_val j)) as [dj|]; [|right; right; eauto].
  left. eauto 10.
Qed.


Lemma add_constraint_one_way_Ret self i j f self' :
  add_constraint_one_way self i j f = Ret self' →
  ∃ ci, dict_lookup (constraints self) (name_val i) = Some ci ∧
    self' = set_constraints self
              (setitem (constraints self) i
                 (setitem ci j (List.filter (fun p => f p.1 p.2)
                                            (arc_base self (name_val i) (name_val j))))).
Proof.
  destruct (add_constraint_one_way_cases self i j) as [(ci & Hci & Hj)|H].
  - rewrite (add_constraint_one_way_ok _ _ _ _ _ Hci Hj). intros [= <-]. eauto.
  - by rewrite (add_constraint_one_way_KeyError _ _ _ _ H).
Qed.

(** [add_constraint_one_way] raises [KeyError], and nothing else, exactly
    when [i] has no constraint table, or the arc is new and [i] or [j] has
    no domain; the domain of [j] is not looked up for an arc that is
    already registered. *)
Theorem add_constraint_one_way_outcome self i j f :
  match add_constraint_one_way self i j f with
  | Ret _ =>
      is_Some (dict_lookup (constraints self) (name_val i)) ∧
      (is_Some (table self (name_val i) (name_val j)) ∨
       (is_Some (dict_lookup (domains self) (name_val i)) ∧
        is_Some (dict_lookup (domains self) (name_val j))))
  | Raise e =>
      e = KeyError ∧
      (dict_lookup (constraints self) (name_val i) = None ∨
       (table self (name_val i) (name_val j) = None ∧
        (dict_lookup (domains self) (name_val i) = None ∨
         dict_lookup (domains self) (name_val j) = None)))
  | OutOfFuel => False
  end.
Proof.
  destruct (add_constraint_one_way_cases self i j) as [(ci & Hci & Hj)|H].
  - rewrite (add_constraint_one_way_ok _ _ _ _ _ Hci Hj).
    rewrite (table_lookup _ _ _ _ Hci). eauto.
  - by rewrite (add_constraint_one_way_KeyError _ _ _ _ H).
Qed.

(** When [add_constraint_one_way] returns, the arc [(i, j)] holds the pairs
    of its former list, or of the product of the two domains when it is
    new, that pass the filter; every other arc, the domains, the variables
    and the counters are as before. *)
Theorem add_constraint_one_way_spec self i j f self' :
  add_constraint_one_way self i j f = Ret self' →
  variables self' = variables self ∧ domains self' = domains self ∧
  backtracking_call_counter self' = backtracking_call_counter self ∧
  backtracking_fail_counter self' = backtracking_fail_counter self ∧
  keys (constraints self') = keys (constraints self) ∧
  (∀ k l, table self' k l =
     if decide (k = name_val i ∧ l = name_val j)
     then Some (List.filter (fun p => f p.1 p.2) (arc_base self k l))
     else table self k l) ∧
  (table self (name_val i) (name_val j) = None →
   ∀ x y, (x, y) ∈ allowed self' (name_val i) (name_val j) ↔
          x ∈ domain_of (domains self) (name_val i) ∧
          y ∈ domain_of (domains self) (name_val j) ∧ f x y = true).
Proof.
  intros (ci & Hci & ->)%add_constraint_one_way_Ret.
  split_and!; try done.
  - simpl. apply keys_setitem. eauto.
  - intros k l. rewrite (table_set_constraints _ _ _ _ _ _ _ Hci).
    destruct (decide (k = name_val i ∧ l = name_val j)) as [[-> ->]|]; done.
  - intros Hnone x y. unfold allowed.
    rewrite (table_set_constraints _ _ _ _ _ _ _ Hci), decide_True by done. simpl.
    unfold arc_base. rewrite Hnone. unfold get_all_possible_pairs.
    rewrite !list_elem_of_In, filter_In, in_prod_iff. simpl. tauto.
Qed.

(** Two constraints on the same arc add up: registering [f] and then [g]
    is registering their conjunction, whether the calls return or raise. *)
Theorem add_constraint_one_way_twice self i j f g :
  (self' ← add_constraint_one_way self i j f; add_constraint_one_way self' i j g) =
  add_constraint_one_way self i j (fun x y => f x y && g x y).
Proof.
  destruct (add_constraint_one_way_cases self i j) as [(ci & Hci & Hj)|H].
  2:{ by rewrite !(add_constraint_one_way_KeyError _ _ _ _ H). }
  rewrite !(add_constraint_one_way_ok _ _ _ _ _ Hci Hj). simpl.
  set (X := List.filter (fun p => f p.1 p.2) (arc_base self (name_val i) (name_val j))).
  set (self1 := set_constraints self (setitem (constraints self) i (setitem ci j X))).
  assert (dict_lookup (constraints self1) (name_val i) = Some (setitem ci j X)) as Hci1
    by apply dict_lookup_setitem_eq.
  rewrite (add_constraint_one_way_ok self1 i j g _ Hci1)
    by (left; rewrite dict_lookup_setitem_eq; eauto).
  unfold arc_base at 1. rewrite (table_lookup _ _ _ _ Hci1), dict_lookup_setitem_eq.
  unfold self1, set_constraints. simpl. rewrite !setitem_setitem.
  unfold X. by rewrite filter_filter_and.
Qed.


(** *** [add_all_different_constraint] *)

Lemma arc_base_set_constraints self i j ci (X : list (V * V)) k l :
  dict_lookup (constraints self) (name_val i) = Some ci →
  arc_base (set_constraints self (setitem (constraints self) i (setitem ci j X))) k l =
    if decide (k = name_val i ∧ l = name_val j) then X else arc_base self k l.
Proof.
  intros Hci. unfold arc_base. rewrite (table_set_constraints _ _ _ _ _ _ _ Hci).
  by destruct (decide (k = name_val i ∧ l = name_val j)).
Qed.

(** The loop of [add_all_different_constraint] over a list of pairs whose
    names are declared. *)
Lemma add_all_different_loop_spec (pairs : list (name * name)) self :
  (∀ p, p ∈ pairs → name_val p.1 ≠ name_val p.2 →
     is_Some (dict_lookup (constraints self) (name_val p.1)) ∧
     is_Some (dict_lookup (domains self) (name_val p.1)) ∧
     is_Some (dict_lookup (domains self) (name_val p.2))) →
  ∃ self', add_all_different_loop self pairs = Ret self' ∧
    variables self' = variables self ∧ domains self' = domains self ∧
    backtracking_call_counter self' = backtracking_call_counter self ∧
    backtracking_fail_counter self' = backtracking_fail_counter self ∧
    keys (constraints self') = keys (constraints self) ∧
    ((∀ e, e ∈ constraints self → dict_wf e.2) →
     ∀ e, e ∈ constraints self' → dict_wf e.2) ∧
    ∀ k l, table self' k l =
      if decide (k ≠ l ∧ (k, l) ∈ arc_vals pairs)
      then Some (List.filter different (arc_base self k l))
      else table self k l.
Proof.
  revert self. induction pairs as [|[i j] pairs IH]; intros self Hdecl; simpl.
  { exists self. split_and!; try done. intros k l. rewrite decide_False; [done|].
    by intros [_ ?%elem_of_nil]. }
  destruct (decide (name_val i = name_val j)) as [Eij|Nij].
  - destruct (IH self) as (self' & Hrun & ? & ? & ? & ? & ? & ? & Htab).
    { intros p Hp. apply Hdecl. by right. }
    exists self'. split_and!; try done. intros k l. rewrite Htab.
    apply decide_ext. split; intros [Hkl Hin]; (split; [done|]).
    + by right.
    + apply elem_of_cons in Hin as [[= -> ->]|?]; [done|done].
  - destruct (Hdecl (i, j)) as ([ci Hci] & Hdi & Hdj); [left|done|]. simpl in *.
    rewrite (add_constraint_one_way_ok self i j _ ci Hci) by (right; done). simpl.
    set (X := List.filter _ (arc_base self (name_val i) (name_val j))).
    set (self1 := set_constraints self (setitem (constraints self) i (setitem ci j X))).
    assert (keys (constraints self1) = keys (constraints self)) as Hkeys1.
    { simpl. apply keys_setitem. eauto. }
    destruct (IH self1) as (self' & Hrun & ? & ? & ? & ? & Hkeys & Hwf & Htab).
    { intros p Hp Hne. destruct (Hdecl p) as (? & ? & ?); [by right|done|].
      split; [|done]. by eapply keys_lookup_is_Some. }
    exists self'. split_and!; try done.
    + by rewrite Hkeys.
    + intros Hin. apply Hwf. intros [n' c'] [Hold| ->]%elem_of_setitem; [by apply Hin|].
      simpl. apply dict_wf_setitem.
      apply dict_lookup_Some_elem in Hci as (n & Hn & _). by apply (Hin (n, ci)).
    + intros k l. rewrite Htab. unfold self1.
      rewrite (arc_base_set_constraints _ _ _ _ _ _ _ Hci),
        (table_set_constraints _ _ _ _ _ _ _ Hci).
      destruct (decide (k = name_val i ∧ l = name_val j)) as [[-> ->]|Hne].
      * rewrite (decide_True (P := _ ∧ _ ∈ _ :: _)) by (split; [done|left]).
        unfold X. rewrite filter_idempotent. by destruct (decide _).
      * apply decide_ext. split; intros [Hkl Hin]; (split; [done|]).
        -- by right.
        -- apply elem_of_cons in Hin as [[= -> ->]|?]; [by destruct Hne|done].
Qed.

Lemma elem_of_arc_vals_prod (vars : list name) k l :
  (k, l) ∈ arc_vals (get_all_possible_pairs vars vars) ↔
  k ∈ name_val <$> vars ∧ l ∈ name_val <$> vars.
Proof.
  unfold arc_vals, get_all_possible_pairs.
  rewrite !list_elem_of_In, in_map_iff. split.
  - intros ([i j] & [= <- <-] & [Hi Hj]%in_prod_iff). simpl.
    rewrite <- !list_elem_of_In.
    split; apply list_elem_of_fmap; eexists; (split; [done|]); by apply list_elem_of_In.
  - rewrite <- !list_elem_of_In.
    intros [(i & -> & Hi)%list_elem_of_fmap (j & -> & Hj)%list_elem_of_fmap].
    exists (i, j). split; [done|]. apply in_prod_iff. by rewrite <- !list_elem_of_In.
Qed.

(** On variables that have a domain and a constraint table,
    [add_all_different_constraint] returns: every arc between two of them
    with different names holds the pairs of different values of its former
    list, or of the product of the two domains when it is new; everything
    else is as before. *)
Theorem add_all_different_constraint_spec self (vars : list name) :
  (∀ v, v ∈ vars → is_Some (dict_lookup (constraints self) (name_val v)) ∧
                   is_Some (dict_lookup (domains self) (name_val v))) →
  ∃ self', add_all_different_constraint self vars = Ret self' ∧
    variables self' = variables self ∧ domains self' = domains self ∧
    backtracking_call_counter self' = backtracking_call_counter self ∧
    backtracking_fail_counter self' = backtracking_fail_counter self ∧
    keys (constraints self') = keys (constraints self) ∧
    ∀ k l, table self' k l =
      if decide (k ≠ l ∧ k ∈ name_val <$> vars ∧ l ∈ name_val <$> vars)
      then Some (List.filter different (arc_base self k l))
      else table self k l.
Proof.
  intros Hdecl. unfold add_all_different_constraint.
  destruct (add_all_different_loop_spec (get_all_possible_pairs vars vars) self)
    as (self' & Hrun & ? & ? & ? & ? & ? & _ & Htab).
  { intros [i j] [Hi Hj]%list_elem_of_In%in_prod_iff _. simpl.
    apply list_elem_of_In in Hi, Hj.
    destruct (Hdecl _ Hi), (Hdecl _ Hj). done. }
  exists self'. split_and!; try done. intros k l. rewrite Htab.
  apply decide_ext. by rewrite elem_of_arc_vals_prod.
Qed.


(** *** Networks that the search can be run on *)

Lemma network_two_way_iff self : csp_wf self → network_two_way self = true ↔ two_way self.
Proof.
  intros (_ & Hwf & Hin). split.
  - intros Htw k l ckl. by apply network_two_way_table.
  - intros Htw. unfold network_two_way. apply forallb_forall.
    intros [n ci] Hn%list_elem_of_In. apply forallb_forall.
    intros [m cij] Hm%list_elem_of_In. simpl.
    pose proof (dict_wf_lookup _ _ _ Hwf Hn) as Hci.
    pose proof (dict_wf_lookup _ _ _ (Hin _ Hn) Hm) as Hcij.
    destruct (Htw (name_val n) (name_val m) cij) as (cji & -> & Hconv).
    { by rewrite (table_lookup _ _ _ _ Hci). }
    apply forallb_forall. intros [x y] Hxy%list_elem_of_In. simpl.
    apply bool_decide_eq_true. by apply Hconv.
Qed.

Lemma declared_iff self : csp_wf self → declared self (domains self) = true ↔ keys_agree self.
Proof.
  intros (_ & Hwf & Hin). split.
  - intros Hd. pose proof (declared_well_declared _ _ Hd) as [Harc Hvar].
    split; [split; [|apply Hvar]|intros k l Ht; by destruct (Harc k l Ht)].
    intros [ci (n & Hn%list_elem_of_In & <-)%dict_lookup_Some_elem].
    unfold declared in Hd. apply andb_true_iff in Hd as [Hd _].
    rewrite forallb_forall in Hd. specialize (Hd _ Hn). simpl in Hd.
    apply andb_true_iff in Hd as [Hd _]. by apply contains_true.
  - intros [Hkeys Harc]. unfold declared. apply andb_true_iff. split.
    + apply forallb_forall. intros [n ci] Hn%list_elem_of_In. simpl.
      pose proof (dict_wf_lookup _ _ _ Hwf Hn) as Hci.
      apply andb_true_iff. split.
      * apply contains_true, Hkeys. eauto.
      * apply forallb_forall. intros [m cij] Hm%list_elem_of_In. simpl.
        apply contains_true, (Harc (name_val n)).
        pose proof (dict_wf_lookup _ _ _ (Hin _ Hn) Hm) as Hcij. simpl in Hcij.
        rewrite (table_lookup _ _ _ _ Hci), Hcij. eauto.
    + apply forallb_forall. intros [n d] Hn%list_elem_of_In. simpl.
      apply contains_true, Hkeys, dict_lookup_is_Some_key. exists n. split; [|done].
      unfold keys. apply list_elem_of_fmap. by exists (n, d).
Qed.

Lemma well_built_iff self : well_built self ↔ csp_wf self ∧ two_way self ∧ keys_agree self.
Proof.
  unfold well_built. split; intros (Hwf & H1 & H2); (split; [done|]).
  - by rewrite <- network_two_way_iff, <- declared_iff.
  - by rewrite network_two_way_iff, declared_iff.
Qed.

Lemma dict_wf_keys {X Y} (d : dict X) (d' : dict Y) :
  keys d' = keys d → dict_wf d → dict_wf d'.
Proof. unfold dict_wf. by intros ->. Qed.

Lemma arc_base_converse self k l x y :
  two_way self → (x, y) ∈ arc_base self k l → (y, x) ∈ arc_base self l k.
Proof.
  intros Htw. unfold arc_base.
  destruct (table self k l) as [ckl|] eqn:Hkl.
  - destruct (Htw _ _ _ Hkl) as (clk & -> & Hconv). apply Hconv.
  - destruct (table self l k) as [clk|] eqn:Hlk.
    { destruct (Htw _ _ _ Hlk) as (? & ? & _). congruence. }
    unfold get_all_possible_pairs. rewrite !list_elem_of_In, !in_prod_iff. tauto.
Qed.

Lemma CSP_init_well_built : well_built (@CSP_init K V).
Proof.
  apply well_built_iff. split_and!.
  - split_and!; try apply dict_wf_nil. by intros e ?%elem_of_nil.
  - by intros k l ckl.
  - split; [intros k; split; by intros [? ?]|]. by intros k l [? ?].
Qed.

Lemma add_all_different_constraint_built self (vars : list name) :
  well_built self →
  (∀ v, v ∈ vars → is_Some (dict_lookup (domains self) (name_val v))) →
  ∃ self', add_all_different_constraint self vars = Ret self' ∧
    variables self' = variables self ∧ domains self' = domains self ∧
    backtracking_call_counter self' = backtracking_call_counter self ∧
    backtracking_fail_counter self' = backtracking_fail_counter self ∧
    well_built self' ∧
    ∀ k l, table self' k l =
      if decide (k ≠ l ∧ k ∈ name_val <$> vars ∧ l ∈ name_val <$> vars)
      then Some (List.filter different (arc_base self k l))
      else table self k l.
Proof.
  intros ((Hwd & Hwc & Hwi) & Htw & [Hkeys Harc])%well_built_iff Hvars.
  unfold add_all_different_constraint.
  destruct (add_all_different_loop_spec (get_all_possible_pairs vars vars) self)
    as (self' & Hrun & ? & Hdom & ? & ? & Hk & Hwf & Htab).
  { intros [i j] [Hi Hj]%list_elem_of_In%in_prod_iff _. simpl.
    apply list_elem_of_In in Hi, Hj. split_and!; [apply Hkeys| |]; by apply Hvars. }
  assert (∀ k l, table self' k l =
            if decide (k ≠ l ∧ k ∈ name_val <$> vars ∧ l ∈ name_val <$> vars)
            then Some (List.filter different (arc_base self k l))
            else table self k l) as Htab'.
  { intros k l. rewrite Htab. apply decide_ext. by rewrite elem_of_arc_vals_prod. }
  clear Htab. exists self'. split_and!; [done..| |done]. apply well_built_iff. split_and!.
  - split_and!; [by rewrite Hdom|by eapply dict_wf_keys|by apply Hwf].
  - intros k l ckl. rewrite !Htab'.
    destruct (decide (k ≠ l ∧ _ ∧ _)) as [(Hkl & Hk' & Hl')|Hno].
    + intros [= <-]. rewrite decide_True by done. eexists. split; [done|].
      intros x y. rewrite !list_elem_of_In, !filter_In, <- !list_elem_of_In.
      intros [Hin Hd]. split; [by apply arc_base_converse|].
      unfold different in *. simpl in *. apply bool_decide_eq_true in Hd.
      apply bool_decide_eq_true. congruence.
    + intros Ht. rewrite decide_False by (intros (? & ? & ?); apply Hno; done).
      by apply Htw.
  - split.
    + intros k. rewrite Hdom, <- Hkeys. split; by apply keys_lookup_is_Some.
    + intros k l. rewrite Htab', Hdom.
      destruct (decide (k ≠ l ∧ _ ∧ _)) as [(_ & _ & Hl')|_]; [|apply Harc].
      intros _. apply list_elem_of_fmap in Hl' as (v & -> & Hv). by apply Hvars.
Qed.

(** A network of all-different constraints stays one. *)
Lemma add_all_different_constraint_tables self (vals : list K) self' :
  all_different_tables self → domains self' = domains self →
  (∀ k l, table self' k l =
      if decide (k ≠ l ∧ k ∈ vals ∧ l ∈ vals)
      then Some (List.filter different (arc_base self k l))
      else table self k l) →
  all_different_tables self'.
Proof.
  intros Hall Hdom Htab k l ckl. rewrite Htab, Hdom.
  destruct (decide (k ≠ l ∧ _ ∧ _)) as [_|_]; [|apply Hall].
  intros [= <-]. unfold arc_base. destruct (table self k l) as [c|] eqn:Ht; [|done].
  rewrite (Hall _ _ _ Ht). apply filter_idempotent.
Qed.

(** [add_all_different_constraint] on declared variables turns a network
    that the search can be run on into another one, with the same
    domains. *)
Theorem add_all_different_constraint_well_built self (vars : list name) :
  well_built self →
  (∀ v, v ∈ vars → is_Some (dict_lookup (domains self) (name_val v))) →
  ∃ self', add_all_different_constraint self vars = Ret self' ∧
    domains self' = domains self ∧ well_built self'.
Proof.
  intros Hwb Hvars.
  destruct (add_all_different_constraint_built self vars Hwb Hvars)
    as (self' & ? & _ & ? & _ & _ & ? & _).
  by exists self'.
Qed.

Lemma add_variable_fresh self n (d : list V) :
  well_built self → dict_lookup (domains self) (name_val n) = None →
  well_built (add_variable self n d) ∧
  ∀ k l, table (add_variable self n d) k l = table self k l.
Proof.
  intros ((Hwd & Hwc & Hwi) & Htw & [Hkeys Harc])%well_built_iff Hfresh.
  assert (dict_lookup (constraints self) (name_val n) = None) as Hfresh'.
  { destruct (dict_lookup (constraints self) (name_val n)) eqn:E; [|done].
    assert (is_Some (dict_lookup (domains self) (name_val n))) as [? ?]
      by (apply Hkeys; eauto). congruence. }
  assert (∀ k l, table (add_variable self n d) k l = table self k l) as Htab.
  { intros k l. unfold table. simpl. rewrite dict_lookup_setitem.
    destruct (decide (k = name_val n)) as [->|]; [|done]. by rewrite Hfresh'. }
  split; [|done]. apply well_built_iff. split_and!.
  - split_and!; simpl; try by apply dict_wf_setitem.
    intros [n' c'] [Hold| ->]%elem_of_setitem; [by apply Hwi|apply dict_wf_nil].
  - intros k l ckl. rewrite !Htab. apply Htw.
  - split.
    + intros k. simpl. rewrite !dict_lookup_setitem.
      destruct (decide (k = name_val n)); [split; eauto|apply Hkeys].
    + intros k l. rewrite Htab. simpl. rewrite dict_lookup_setitem.
      destruct (decide (l = name_val n)); [eauto|apply Harc].
Qed.

(** Declaring a new variable keeps a network that the search can be run
    on: the new variable has its domain and no arc, and nothing else has
    changed. *)
Theorem add_variable_well_built self n (d : list V) :
  well_built self → dict_lookup (domains self) (name_val n) = None →
  well_built (add_variable self n d) ∧
  dict_lookup (domains (add_variable self n d)) (name_val n) = Some d ∧
  (∀ k, k ≠ name_val n →
     dict_lookup (domains (add_variable self n d)) k = dict_lookup (domains self) k) ∧
  (∀ k l, table (add_variable self n d) k l = table self k l).
Proof.
  intros Hwb Hfresh. destruct (add_variable_fresh self n d Hwb Hfresh) as [? ?].
  split_and!; [done| | |done].
  - apply dict_lookup_setitem_eq.
  - intros k Hk. by apply dict_lookup_setitem_ne.
Qed.

(** Declaring again a variable that another variable has an arc to leaves
    that arc without its reverse. *)
Theorem add_variable_again_one_way self n (d : list V) k ckn :
  k ≠ name_val n → table self k (name_val n) = Some ckn →
  network_two_way (add_variable self n d) = false.
Proof.
  intros Hk Ht. destruct (network_two_way (add_variable self n d)) eqn:Htw; [|done].
  assert (table (add_variable self n d) k (name_val n) = Some ckn) as Ht'.
  { unfold table in *. simpl. by rewrite dict_lookup_setitem_ne. }
  destruct (network_two_way_table _ _ _ _ Htw Ht') as (c & Hc & _).
  unfold table in Hc. simpl in Hc. by rewrite dict_lookup_setitem_eq in Hc.
Qed.

End Construction.

Section ConstructionErrors.
Context {K V : Type} `{!EqDecision K, !EqDecision V}.
#[local] Abbreviation name := (name K).
#[local] Abbreviation dict := (dict K).
#[local] Abbreviation CSP := (@CSP K V).
#[local] Abbreviation assignment := (@assignment K V).

Implicit Types (self s : CSP) (a b : assignment) (i j n m v w : name) (k l : K) (x y : V).

Lemma add_all_different_loop_KeyError (pairs : list (name * name)) self v w :
  (v, w) ∈ pairs → name_val v ≠ name_val w →
  dict_lookup (constraints self) (name_val v) = None →
  add_all_different_loop self pairs = Raise KeyError.
Proof.
  revert self. induction pairs as [|[i j] pairs IH]; intros self Hin Hne Hv;
    [by apply elem_of_nil in Hin|].
  simpl. destruct (decide (name_val i = name_val j)) as [Eij|Nij].
  - apply elem_of_cons in Hin as [[= -> ->]|Hin]; [done|by apply IH].
  - destruct (add_constraint_one_way_cases self i j) as [(ci & Hci & Hj)|H].
    2:{ by rewrite (add_constraint_one_way_KeyError _ _ _ _ H). }
    rewrite (add_constraint_one_way_ok _ _ _ _ _ Hci Hj). simpl.
    apply elem_of_cons in Hin as [[= -> ->]|Hin]; [congruence|].
    apply IH; [done..|]. simpl. rewrite dict_lookup_setitem_ne; [done|]. congruence.
Qed.

(** [add_all_different_constraint] raises [KeyError] when one of the
    variables has no constraint table and another one has a different
    name. *)
Theorem add_all_different_constraint_KeyError self (vars : list name) v w :
  v ∈ vars → w ∈ vars → name_val v ≠ name_val w →
  dict_lookup (constraints self) (name_val v) = None →
  add_all_different_constraint self vars = Raise KeyError.
Proof.
  intros Hv Hw. apply add_all_different_loop_KeyError.
  unfold get_all_possible_pairs. apply list_elem_of_In, in_prod_iff.
  by rewrite <- !list_elem_of_In.
Qed.

(** *** [get_all_arcs] and [get_all_neighboring_arcs] *)

Lemma arc_vals_app (q1 q2 : list (name * name)) : arc_vals (q1 ++ q2) = arc_vals q1 ++ arc_vals q2.
Proof. apply map_app. Qed.

Lemma elem_of_arc_vals (q : list (name * name)) k l :
  (k, l) ∈ arc_vals q ↔ queued q k l.
Proof.
  unfold arc_vals, queued. rewrite list_elem_of_In, in_map_iff. split.
  - intros ([n m] & [= <- <-] & Hin%list_elem_of_In). eauto.
  - intros (n & m & Hin%list_elem_of_In & <- & <-). by exists (n, m).
Qed.

Lemma NoDup_arcs_from n (js : list name) :
  NoDup (name_val <$> js) → NoDup (arc_vals (map (fun j => (n, j)) js)).
Proof.
  induction js as [|j js IH]; simpl; [intros _; apply NoDup_nil_2|].
  intros [Hj Hnd]%NoDup_cons. apply NoDup_cons. split; [|by apply IH].
  intros (n' & m' & Hin & _ & Hm)%elem_of_arc_vals. simpl in *.
  apply list_elem_of_In, in_map_iff in Hin as (j' & [= <- <-] & Hj'%list_elem_of_In).
  apply Hj. rewrite <- Hm. apply list_elem_of_fmap. eauto.
Qed.

(** [get_all_arcs] lists the registered arcs, each of them once. *)
Theorem get_all_arcs_spec self :
  csp_wf self →
  NoDup (arc_vals (get_all_arcs self)) ∧
  ∀ k l, (k, l) ∈ arc_vals (get_all_arcs self) ↔ is_Some (table self k l).
Proof.
  intros (_ & Hwf & Hin). split.
  - unfold get_all_arcs. clear -Hwf Hin.
    induction (constraints self) as [|[n ci] cs IH]; simpl; [apply NoDup_nil_2|].
    unfold dict_wf, keys in Hwf. simpl in Hwf. apply NoDup_cons in Hwf as [Hn Hwf].
    rewrite arc_vals_app. apply NoDup_app. split_and!.
    + apply NoDup_arcs_from. apply (Hin (n, ci)). left.
    + intros [k l] (n1 & m1 & H1 & Hk1 & _)%elem_of_arc_vals
                   (n2 & m2 & H2 & Hk2 & _)%elem_of_arc_vals. simpl in *.
      apply list_elem_of_In, in_map_iff in H1 as (j & [= <- <-] & _).
      apply list_elem_of_In, in_flat_map in H2 as ([n' c'] & Hn' & H2). simpl in H2.
      apply in_map_iff in H2 as (j' & [= <- <-] & _).
      apply Hn. rewrite Hk1, <- Hk2. apply list_elem_of_fmap. exists n'. split; [done|].
      apply list_elem_of_fmap. exists (n', c'). split; [done|]. by apply list_elem_of_In.
    + apply IH; [done|]. intros e He. apply Hin. by right.
  - intros k l. rewrite elem_of_arc_vals. split; [|apply all_arcs_queued].
    intros (n & m & Hnm & <- & <-). unfold get_all_arcs in Hnm.
    apply list_elem_of_In, in_flat_map in Hnm as ([n' ci] & Hn' & Hnm). simpl in Hnm.
    apply in_map_iff in Hnm as (j & [= <- <-] & Hj%list_elem_of_In).
    apply list_elem_of_In in Hn'.
    rewrite (table_lookup _ _ _ _ (dict_wf_lookup _ _ _ Hwf Hn')).
    apply dict_lookup_is_Some_key. eauto.
Qed.


End ConstructionErrors.

Section PropagationEdges.
Context {K V : Type} `{!EqDecision K, !EqDecision V}.
#[local] Abbreviation name := (name K).
#[local] Abbreviation dict := (dict K).
#[local] Abbreviation CSP := (@CSP K V).
#[local] Abbreviation assignment := (@assignment K V).

Implicit Types (self s : CSP) (a b sol : assignment) (i j xi xj : name) (k l : K) (x y : V).
Implicit Types (queue : list (name * name)).

(** *** [revise] *)

Lemma revise_KeyError self a i j :
  dict_lookup a (name_val i) = None ∨
    (domain_of a (name_val i) ≠ [] ∧
     (dict_lookup a (name_val j) = None ∨
      (domain_of a (name_val j) ≠ [] ∧ table self (name_val i) (name_val j) = None))) →
  revise self a i j = Raise KeyError.
Proof.
  unfold revise, domain_of.
  destruct (dict_lookup a (name_val i)) as [di|] eqn:Hi.
  2:{ intros _. by rewrite (getitem_None _ _ Hi). }
  rewrite (getitem_Some _ _ _ Hi). simpl. intros [?|[Hdi H]]; [done|].
  destruct di as [|x di]; [done|]. simpl.
  destruct (dict_lookup a (name_val j)) as [dj|] eqn:Hj.
  2:{ by rewrite (getitem_None _ _ Hj). }
  rewrite (getitem_Some _ _ _ Hj). simpl. destruct H as [?|[Hdj Ht]]; [done|].
  destruct dj as [|y dj]; [done|]. simpl. unfold table in Ht.
  destruct (dict_lookup (constraints self) (name_val i)) as [ci|] eqn:Hci.
  2:{ by rewrite (getitem_None _ _ Hci). }
  rewrite (getitem_Some _ _ _ Hci). simpl. simpl in Ht. by rewrite (getitem_None _ _ Ht).
Qed.

(** [revise] raises [KeyError], and nothing else, exactly when it looks up
    a key that is missing: [i] in the assignment; [j] in the assignment,
    when [i] has a value; the arc, when both have one.  [list.remove] never
    fails.  When [j] has no value, every value of [i] is deleted, whether
    the arc is registered or not. *)
Theorem revise_outcome self a i j :
  match revise self a i j with
  | Ret (a', revised) =>
      is_Some (dict_lookup a (name_val i)) ∧
      (domain_of a (name_val i) = [] ∨
       (is_Some (dict_lookup a (name_val j)) ∧
        (domain_of a (name_val j) = [] ∨ is_Some (table self (name_val i) (name_val j))))) ∧
      (domain_of a (name_val j) = [] → domain_of a' (name_val i) = []) ∧
      (revised = true ↔ domain_of a' (name_val i) ≠ domain_of a (name_val i))
  | Raise e =>
      e = KeyError ∧
      (dict_lookup a (name_val i) = None ∨
       (domain_of a (name_val i) ≠ [] ∧
        (dict_lookup a (name_val j) = None ∨
         (domain_of a (name_val j) ≠ [] ∧ table self (name_val i) (name_val j) = None))))
  | OutOfFuel => False
  end.
Proof.
  destruct (revise self a i j) as [[a' r]|e|] eqn:H.
  - pose proof (revise_domains _ _ _ _ _ _ H) as (Hd & _ & _).
    apply revise_Ret in H as (Hi & Hj & _ & ->). split_and!; [done| | |].
    + destruct (domain_of a (name_val i)) as [|x di] eqn:Edi; [by left|right].
      destruct Hj as [Hj Ht]; [done|]. split; [done|].
      destruct (domain_of a (name_val j)); [by left|right]. by apply Ht.
    + intros Hnil. rewrite Hd. unfold supported. rewrite Hnil. simpl.
      clear. by induction (domain_of a (name_val i)).
    + rewrite Hd, negb_true_iff. clear.
      induction (domain_of a (name_val i)) as [|x di IH]; simpl; [split; done|].
      destruct (supported self a (name_val i) (name_val j) x) eqn:Hs; simpl.
      * rewrite IH. split; [congruence|]. intros Hne E. apply Hne. by f_equal.
      * split; [|done]. intros _ E.
        assert (length (List.filter (supported self a (name_val i) (name_val j)) di)
                = length (x :: di)) as Hlen by (by rewrite E).
        pose proof (filter_length_le (supported self a (name_val i) (name_val j)) di).
        simpl in Hlen. lia.
  - destruct (dict_lookup a (name_val i)) as [di|] eqn:Hi; [|by rewrite revise_KeyError in H; [injection H as <-; eauto|left]].
    destruct (decide (domain_of a (name_val i) = [])) as [Edi|Ndi].
    { rewrite revise_ok in H; [done|eauto|by left]. }
    destruct (dict_lookup a (name_val j)) as [dj|] eqn:Hj.
    2:{ rewrite revise_KeyError in H by (right; eauto). injection H as <-. eauto 10. }
    destruct (decide (domain_of a (name_val j) = [])) as [Edj|Ndj].
    { rewrite revise_ok in H; [done|eauto|right; split; [eauto|by left]]. }
    destruct (table self (name_val i) (name_val j)) as [cij|] eqn:Ht.
    { rewrite revise_ok in H; [done|eauto|right; split; [eauto|right; eauto]]. }
    rewrite revise_KeyError in H by (right; eauto). injection H as <-. eauto 10.
  - by apply revise_runs in H.
Qed.


(** *** [inference] *)

Lemma revise_below self a b xi xj a' r :
  arc_consistent self b → below b a →
  is_Some (table self (name_val xi) (name_val xj)) →
  revise self a xi xj = Ret (a', r) → below b a'.
Proof.
  intros Hac Hb Ht (Hd & Hother & _)%revise_domains k x Hx.
  destruct (decide (k = name_val xi)) as [->|Hk].
  - rewrite Hd. apply elem_of_filter_supported. split; [by apply Hb|].
    apply supported_true.
    destruct (proj1 (supported_true _ _ _ _ _) (Hac _ _ _ Ht Hx)) as (y & Hy & Hxy).
    exists y. split; [by apply Hb|done].
  - unfold domain_of. rewrite Hother by done. by apply Hb.
Qed.

Lemma inference_step_registered self a queue xi xj a' queue' :
  network_two_way self = true → all_registered self queue →
  inference_step self a queue (xi, xj) = Ret (inl (a', queue')) →
  all_registered self queue'.
Proof.
  intros Htw Hq (r & _ & [[_ ->]|(_ & _ & nb & Hnb & ->)])%inference_step_inl; [done|].
  intros n m [Hin|Hin]%elem_of_app; [by apply Hq|].
  apply elem_of_requeue_inv in Hin as (n' & m' & Hin & _ & [= -> ->]).
  by destruct (neighboring_arcs_registered _ _ _ _ _ Htw Hnb Hin).
Qed.

Lemma inference_below self a b queue a' queue' r :
  network_two_way self = true → arc_consistent self b →
  below b a → all_registered self queue →
  inference self a queue = Ret (a', queue', r) → below b a'.
Proof.
  intros Htw Hac. revert a' queue' r. pattern a, queue.
  apply (inference_induction self); clear a queue.
  - intros a a' queue' r Hb _. rewrite inference_nil. by intros [= <- _ _].
  - intros a queue [xi xj] IH a' queue' r Hb Hq. rewrite inference_unfold. intros H.
    assert (is_Some (table self (name_val xi) (name_val xj))) as Ht
      by (apply Hq, elem_of_app; right; left).
    assert (all_registered self queue) as Hq'
      by (intros n m ?; apply Hq, elem_of_app; by left).
    inv_bind H. destruct r0 as [[a1 q1]|[[a1 q1] r1]].
    + eapply (IH _ _ H0); [| |done].
      * apply inference_step_inl in H0 as (r1 & Hrev & _). by eapply revise_below.
      * by eapply inference_step_registered.
    + injection H as <- <- <-. apply inference_step_inr in H0 as (Hrev & _).
      by eapply revise_below.
Qed.

Lemma inference_False_wipeout self a queue a' queue' :
  inference self a queue = Ret (a', queue', false) →
  ∃ k, is_Some (dict_lookup a k) ∧ domain_of a' k = [].
Proof.
  revert a' queue'. pattern a, queue. apply (inference_induction self); clear a queue.
  - intros a a' queue'. by rewrite inference_nil.
  - intros a queue [xi xj] IH a' queue'. rewrite inference_unfold. intros H.
    inv_bind H. destruct r as [[a1 q1]|[[a1 q1] r1]].
    + destruct (IH _ _ H0 _ _ H) as (k & Hk & Hnil). exists k. split; [|done].
      apply inference_step_inl in H0 as (r1 & (_ & _ & Hkeys)%revise_domains & _).
      by eapply keys_lookup_is_Some.
    + injection H as <- <- ->. apply inference_step_inr in H0 as (Hrev & Hnil & _).
      exists (name_val xi). split; [|done]. by apply revise_Ret in Hrev as (? & _).
Qed.

(** On a two-way network, a run of AC-3 over all arcs deletes values only,
    and none that belongs to an arc-consistent choice of values out of the
    domains.  When it returns [True] what is left is arc-consistent itself,
    hence the greatest such choice, whatever the order of the worklist;
    when it returns [False] some variable has no value left. *)
Theorem inference_greatest self a a' queue' r :
  network_two_way self = true →
  inference self a (get_all_arcs self) = Ret (a', queue', r) →
  keys a' = keys a ∧ below a' a ∧
  (∀ b, below b a → arc_consistent self b → below b a') ∧
  (r = true → arc_consistent self a') ∧
  (r = false → ∃ k, is_Some (dict_lookup a k) ∧ domain_of a' k = []).
Proof.
  intros Htw H. pose proof (inference_shrinks _ _ _ _ _ _ H) as [Hkeys Hsub].
  split_and!; [done|done| | |].
  - intros b Hb Hac. eapply inference_below; [done|done|done| |done].
    by apply all_arcs_registered.
  - intros ->. intros k l x Ht Hx.
    destruct (inference_settles self a (get_all_arcs self) a' queue'
                (fun k l => is_Some (table self k l)) Htw) as [_ Hst]; [|done|].
    { intros k' l' Ht'. right. by apply all_arcs_queued. }
    destruct (Hst k l Ht) as (_ & [Hnil|(_ & _ & Hsup)]); [|by apply Hsup].
    rewrite Hnil in Hx. by apply elem_of_nil in Hx.
  - intros ->. by eapply inference_False_wipeout.
Qed.

(** Whatever the network and the worklist, a run of [inference] that
    returns deletes no value that a solution uses, and it does not return
    [False] when there is a solution in the domains it is given. *)
Theorem inference_keeps_solutions self a queue a' queue' r :
  inference self a queue = Ret (a', queue', r) →
  (∀ sol, within a sol → respects self sol → within a' sol) ∧
  (r = false → ∀ sol, within a sol → respects self sol → False).
Proof.
  intros H. split.
  - intros sol Hw Hr. by destruct (inference_within _ _ _ _ _ _ _ Hw Hr H).
  - intros -> sol Hw Hr. by destruct (inference_within _ _ _ _ _ _ _ Hw Hr H).
Qed.

End PropagationEdges.

Section SearchFacts.
Context {K V : Type} `{!EqDecision K, !EqDecision V}.
#[local] Abbreviation CSP := (@CSP K V).
#[local] Abbreviation assignment := (@assignment K V).

Implicit Types (self : CSP) (a sol : assignment).

(** The search on a network it can be run on, with a solution in the
    declared domains: an assignment is returned, and it is a solution. *)
Lemma backtracking_search_finds self sol0 :
  well_built self → no_wipeout (domains self) = true →
  within (domains self) sol0 → respects self sol0 →
  ∃ self' sol, backtracking_search self = Ret (self', Some sol) ∧
    within (domains self) sol ∧ respects self sol.
Proof.
  intros (_ & Htw & Hd) Hnw Hw Hr.
  destruct (backtracking_search_Ret self Htw Hd) as (self' & r & H).
  pose proof H as H'. unfold backtracking_search in H'.
  destruct (inference self (domains self) (get_all_arcs self))
    as [[[a q] ok]| |] eqn:Hinf; [|done..].
  simpl in H'. destruct (inference_within _ _ _ _ _ _ _ Hw Hr Hinf) as [Hw1 ->].
  apply (backtrack_fuel_complete _ _ _ sol0) in H' as [sol ->]; [|done..].
  pose proof (backtracking_search_solved _ _ _ _ _ Htw Hnw Hinf H) as Hsol.
  exists self', sol. split_and!; [done| |].
  - by eapply solved_within.
  - by eapply solved_respects.
Qed.

End SearchFacts.

(** ** The construction and the propagation on the example networks *)

Lemma csp_wf_intro {K V : Type} `{!EqDecision K} (self : @CSP K V) :
  bool_decide (NoDup (name_val <$> keys (domains self))) &&
  bool_decide (NoDup (name_val <$> keys (constraints self))) &&
  forallb (fun e => bool_decide (NoDup (name_val <$> keys e.2))) (constraints self) = true →
  csp_wf self.
Proof.
  intros [[H1 H2]%andb_true_iff H3]%andb_true_iff.
  apply bool_decide_eq_true in H1, H2. rewrite forallb_forall in H3.
  split_and!; [done..|]. intros e He%list_elem_of_In.
  specialize (H3 _ He). by apply bool_decide_eq_true in H3.
Qed.

Lemma well_built_AB : well_built (add_variable (add_variable (@CSP_init string nat) A [1]) B [1]).
Proof.
  apply add_variable_fresh; [|done]. apply add_variable_fresh; [|done].
  apply CSP_init_well_built.
Qed.

Lemma declared_AB (v : name string) :
  v ∈ [A; B] →
  is_Some (dict_lookup (constraints (add_variable (add_variable (@CSP_init string nat) A [1]) B [1]))
                       (name_val v)) ∧
  is_Some (dict_lookup (domains (add_variable (add_variable (@CSP_init string nat) A [1]) B [1]))
                       (name_val v)).
Proof.
  intros [->|[->|[]%elem_of_nil]%elem_of_cons]%elem_of_cons; split; vm_compute; eauto.
Qed.

(** [one_way] is built by one call on two declared variables: the arc from
    [A] to [B] holds the one pair of different values, the domains are as
    they were. *)
Lemma add_constraint_one_way_spec_one_way :
  table one_way "A" "B" = Some [(1, 2)] ∧
  domains one_way = [(A, [1]); (B, [1; 2])] ∧
  ((1, 2) ∈ allowed one_way "A" "B" ↔
   1 ∈ domain_of (domains (add_variable (add_variable CSP_init A [1]) B [1; 2])) "A" ∧
   2 ∈ domain_of (domains (add_variable (add_variable CSP_init A [1]) B [1; 2])) "B" ∧
   bool_decide (1 ≠ 2) = true).
Proof.
  destruct (add_constraint_one_way_spec
              (add_variable (add_variable CSP_init A [1]) B [1; 2]) A B
              (fun x y => bool_decide (x ≠ y)) one_way) as (_ & Hd & _ & _ & _ & _ & Hn);
    [by vm_compute|].
  split_and!; [by vm_compute|by vm_compute|]. apply Hn. by vm_compute.
Defined.

(** Two variables with the one value [1]: the all-different constraint
    leaves no legal pair on the arc between them. *)
Lemma add_all_different_constraint_spec_AB :
  ∃ self', add_all_different_constraint
             (add_variable (add_variable CSP_init A [1]) B [1]) [A; B] = Ret self' ∧
    table self' "A" "B" = Some [] ∧ table self' "A" "A" = None.
Proof.
  destruct (add_all_different_constraint_spec
              (add_variable (add_variable CSP_init A [1]) B [1]) [A; B] declared_AB)
    as (self' & Hrun & _ & _ & _ & _ & _ & Ht).
  exists self'. split_and!; [done|rewrite Ht; by vm_compute..].
Defined.

Lemma add_all_different_constraint_well_built_AB :
  ∃ self', add_all_different_constraint
             (add_variable (add_variable CSP_init A [1]) B [1]) [A; B] = Ret self' ∧
    network_two_way self' = true ∧ declared self' (domains self') = true.
Proof.
  destruct (add_all_different_constraint_well_built
              (add_variable (add_variable CSP_init A [1]) B [1]) [A; B] well_built_AB)
    as (self' & Hrun & _ & _ & Htw & Hd).
  { intros v Hv. by destruct (declared_AB v Hv). }
  by exists self'.
Defined.

Lemma add_variable_well_built_A :
  well_built (add_variable (@CSP_init string nat) A [1]) ∧
  dict_lookup (domains (add_variable (@CSP_init string nat) A [1])) "A" = Some [1].
Proof.
  destruct (add_variable_well_built (@CSP_init string nat) A [1]) as (Hwb & Hl & _);
    [apply CSP_init_well_built|done|done].
Defined.

(** Declaring [B] again in [two_ones] leaves the arc from [A] to [B]
    without its reverse. *)
Lemma add_variable_again_one_way_two_ones :
  network_two_way (add_variable two_ones B [1]) = false.
Proof.
  apply (add_variable_again_one_way two_ones B [1] "A" []); by vm_compute.
Defined.

(** [B] has not been declared. *)
Lemma add_all_different_constraint_KeyError_AB :
  add_all_different_constraint (add_variable (@CSP_init string nat) A [1]) [A; B] = Raise KeyError.
Proof.
  apply (add_all_different_constraint_KeyError _ [A; B] B A);
    [right; left|left|done|done].
Defined.

Lemma get_all_arcs_spec_xyz :
  NoDup (arc_vals (get_all_arcs xyz)) ∧
  ∀ k l, (k, l) ∈ arc_vals (get_all_arcs xyz) ↔ is_Some (table xyz k l).
Proof. apply (get_all_arcs_spec xyz). apply csp_wf_intro. by vm_compute. Defined.


(** On [xyz] the run of AC-3 over all arcs leaves the greatest
    arc-consistent domains: [X] with [1, 2], [Y] with [2, 3]. *)
Lemma inference_greatest_xyz :
  arc_consistent xyz [(X, [1; 2]); (Y, [2; 3]); (Z, [1; 2; 3])] ∧
  ∀ b, below b (domains xyz) → arc_consistent xyz b →
       below b [(X, [1; 2]); (Y, [2; 3]); (Z, [1; 2; 3])].
Proof.
  destruct (inference_greatest xyz (domains xyz)
              [(X, [1; 2]); (Y, [2; 3]); (Z, [1; 2; 3])] [] true)
    as (_ & _ & Hg & Hc & _); [by vm_compute..|].
  split; [by apply Hc|done].
Defined.

(** On [two_ones] the propagation fails: there is no solution. *)
Lemma inference_keeps_solutions_two_ones :
  (∀ sol, within (domains two_ones) sol → respects two_ones sol →
          within [(A, [1]); (B, [])] sol) ∧
  (false = false → ∀ sol, within (domains two_ones) sol → respects two_ones sol → False).
Proof.
  apply (inference_keeps_solutions two_ones (domains two_ones) (get_all_arcs two_ones)
           [(A, [1]); (B, [])] [(A, B)] false).
  by vm_compute.
Defined.

(** * The Sudoku front end *)

Module SudokuFacts.
Import Sudoku.

#[local] Abbreviation CSP := (@CSP string string).
#[local] Abbreviation assignment := (@assignment string string).

Implicit Types (csp : CSP) (board lines : list string) (p q c : nat * nat).

(** *** Indexing the board *)

Lemma string_get_is_Some (s : string) (n : nat) :
  is_Some (String.get n s) ↔ n < String.length s.
Proof.
  revert n. induction s as [|ch s IH]; intros n; simpl.
  - split; [by intros [? ?]|lia].
  - destruct n as [|n]; simpl; [split; [lia|eauto]|]. rewrite IH. lia.
Qed.

Lemma elem_of_cells c : c ∈ cells ↔ c.1 < 9 ∧ c.2 < 9.
Proof.
  destruct c as [row col]. unfold cells.
  rewrite list_elem_of_In, in_prod_iff, !in_seq. simpl. lia.
Qed.

Lemma board_get_cases board row col :
  board_get board row col = Raises IndexError ∨
  ∃ ch, board_get board row col = Returns ch.
Proof.
  unfold board_get. destruct (board !! row) as [line|]; [|by left].
  destruct (String.get col line); [right; eauto|by left].
Qed.

Lemma well_shaped_true lines c :
  well_shaped lines = true → c ∈ cells →
  ∃ ch, board_get (map strip lines) c.1 c.2 = Returns ch.
Proof.
  unfold well_shaped. intros [Hlen Hall]%andb_true_iff [Hr Hc]%elem_of_cells.
  apply bool_decide_eq_true in Hlen. rewrite forallb_forall in Hall.
  destruct (lookup_lt_is_Some_2 lines c.1) as [line Hline]; [lia|].
  unfold board_get. change (map strip lines) with (strip <$> lines).
  rewrite list_lookup_fmap, Hline. simpl.
  assert (9 ≤ String.length (strip line)) as Hl.
  { assert (In line (take 9 lines)) as Hin.
    { apply list_elem_of_In, (list_elem_of_lookup_2 _ c.1). by rewrite lookup_take_lt by lia. }
    apply Hall in Hin. by apply bool_decide_eq_true in Hin. }
  destruct (proj2 (string_get_is_Some (strip line) c.2)) as [ch ->]; [lia|]. eauto.
Qed.

Lemma well_shaped_false lines :
  well_shaped lines = false →
  ∃ c, c ∈ cells ∧ board_get (map strip lines) c.1 c.2 = Raises IndexError.
Proof.
  unfold well_shaped. intros [Hlen|Hall]%andb_false_iff.
  - apply bool_decide_eq_false in Hlen. exists (length lines, 0).
    split; [apply elem_of_cells; simpl; lia|]. unfold board_get. simpl.
    change (map strip lines) with (strip <$> lines).
    rewrite list_lookup_fmap, lookup_ge_None_2; [done|lia].
  - assert (∃ line, In line (take 9 lines) ∧ ¬ 9 ≤ String.length (strip line))
      as (line & Hin & Hshort).
    { induction (take 9 lines) as [|l ls IH]; simpl in *; [done|].
      apply andb_false_iff in Hall as [H|H].
      - apply bool_decide_eq_false in H. eauto.
      - destruct (IH H) as (line & ? & ?). eauto. }
    apply list_elem_of_In, list_elem_of_lookup in Hin as [row Hrow].
    apply lookup_take_Some in Hrow as [Hrow Hlt].
    exists (row, String.length (strip line)).
    split; [apply elem_of_cells; simpl; lia|]. unfold board_get. simpl.
    change (map strip lines) with (strip <$> lines).
    rewrite list_lookup_fmap, Hrow. simpl.
    destruct (String.get _ _) eqn:E; [|done].
    assert (String.length (strip line) < String.length (strip line)); [|lia].
    apply string_get_is_Some. eauto.
Qed.


(** *** The first loops: one variable per cell *)

Lemma candidates_nonempty (ch : string) : candidates ch ≠ [].
Proof. unfold candidates. by destruct (decide (ch = "0")). Qed.

Lemma format_cell_NoDup : NoDup (format_cell <$> cells).
Proof. apply (bool_decide_unpack _). by vm_compute. Qed.

Lemma add_cells_IndexError board (todo : list (nat * nat)) csp next c :
  c ∈ todo → board_get board c.1 c.2 = Raises IndexError →
  add_cells board todo csp next = Raises IndexError.
Proof.
  revert csp next. induction todo as [|[row col] todo IH]; intros csp next Hin Hc;
    [by apply elem_of_nil in Hin|].
  simpl. destruct (board_get_cases board row col) as [->|[ch Hch]]; [done|].
  rewrite Hch. simpl. apply elem_of_cons in Hin as [->|Hin]; [|by apply IH].
  simpl in Hc. congruence.
Qed.

Lemma add_cells_spec board (todo : list (nat * nat)) csp next :
  NoDup (format_cell <$> todo) →
  (∀ c, c ∈ todo → dict_lookup (domains csp) (format_cell c) = None) →
  (∀ c, c ∈ todo → ∃ ch, board_get board c.1 c.2 = Returns ch) →
  well_built csp → (∀ k l, table csp k l = None) → no_wipeout (domains csp) = true →
  ∃ csp' next', add_cells board todo csp next = Returns (csp', next') ∧
    well_built csp' ∧ (∀ k l, table csp' k l = None) ∧
    no_wipeout (domains csp') = true ∧
    (∀ c, c ∈ todo →
       dict_lookup (domains csp') (format_cell c) = Some (candidates (given board c))) ∧
    (∀ k, k ∉ format_cell <$> todo →
       dict_lookup (domains csp') k = dict_lookup (domains csp) k) ∧
    name_val <$> variables csp' = (name_val <$> variables csp) ++ (format_cell <$> todo) ∧
    backtracking_call_counter csp' = backtracking_call_counter csp ∧
    backtracking_fail_counter csp' = backtracking_fail_counter csp.
Proof.
  revert csp next. induction todo as [|[row col] todo IH];
    intros csp next Hnd Hfresh Hget Hwb Htab Hnw.
  { exists csp, next. simpl. split_and!; try done.
    - by intros c ?%elem_of_nil.
    - by rewrite app_nil_r. }
  rewrite fmap_cons in Hnd. apply NoDup_cons in Hnd as [Hhead Hnd].
  destruct (Hget (row, col)) as [ch Hch]; [left|]. simpl in Hch.
  simpl. rewrite Hch. simpl.
  set (n := Name (format_cell (row, col)) next).
  destruct (add_variable_fresh csp n (candidates ch) Hwb) as [Hwb' Htab'].
  { apply Hfresh. left. }
  destruct (IH (add_variable csp n (candidates ch)) (S next))
    as (csp' & next' & Hrun & ? & ? & ? & Hcells & Hother & Hvars & ? & ?).
  - done.
  - intros c Hc. simpl. rewrite dict_lookup_setitem_ne; [apply Hfresh; by right|].
    intros E. apply Hhead. simpl in E. rewrite <- E. apply list_elem_of_fmap. eauto.
  - intros c Hc. apply Hget. by right.
  - done.
  - intros k l. by rewrite Htab'.
  - simpl. apply no_wipeout_setitem; [done|apply candidates_nonempty].
  - exists csp', next'. split_and!; try done.
    + intros c [->|Hc]%elem_of_cons; [|by apply Hcells].
      rewrite Hother by done. simpl. unfold given. simpl. rewrite Hch.
      apply (dict_lookup_setitem_eq (domains csp) n).
    + intros k Hk. rewrite Hother.
      * simpl. apply dict_lookup_setitem_ne. intros ->. apply Hk. left.
      * intros Hin. apply Hk. by right.
    + rewrite Hvars. simpl. rewrite fmap_app. simpl. by rewrite <- app_assoc.
Qed.

(** *** The other loops: one all-different constraint per unit *)

Lemma imap_names_vals (f : nat → nat) (u : list (nat * nat)) :
  name_val <$> imap (fun i cell => Name (format_cell cell) (f i)) u = format_cell <$> u.
Proof.
  revert f. induction u as [|c u IH]; intros f; simpl; [done|]. f_equal.
  apply (IH (f ∘ S)).
Qed.

Lemma names_from_vals next (u : list (nat * nat)) :
  name_val <$> names_from next u = format_cell <$> u.
Proof. apply (imap_names_vals (fun i => next + i)). Qed.

Lemma add_units_spec (units : list (list (nat * nat))) csp next :
  well_built csp → all_different_tables csp →
  (∀ u c, u ∈ units → c ∈ u → is_Some (dict_lookup (domains csp) (format_cell c))) →
  ∃ csp' next', add_units units csp next = Returns (csp', next') ∧
    variables csp' = variables csp ∧ domains csp' = domains csp ∧
    backtracking_call_counter csp' = backtracking_call_counter csp ∧
    backtracking_fail_counter csp' = backtracking_fail_counter csp ∧
    well_built csp' ∧ all_different_tables csp' ∧
    ∀ k l, is_Some (table csp' k l) ↔
      is_Some (table csp k l) ∨
      (k ≠ l ∧ ∃ u, u ∈ units ∧ k ∈ format_cell <$> u ∧ l ∈ format_cell <$> u).
Proof.
  revert csp next. induction units as [|u units IH]; intros csp next Hwb Hall Hdecl.
  { exists csp, next. simpl. split_and!; try done. intros k l. split; [by left|].
    intros [?|(_ & ? & ?%elem_of_nil & _)]; done. }
  destruct (add_all_different_constraint_built csp (names_from next u) Hwb)
    as (csp1 & Hrun & Hv1 & Hd1 & Hc1 & Hf1 & Hwb1 & Htab1).
  { intros v Hv. assert (name_val v ∈ format_cell <$> u) as (c & -> & Hc)%list_elem_of_fmap.
    { rewrite <- (names_from_vals next). apply list_elem_of_fmap. eauto. }
    apply (Hdecl u); [left|done]. }
  rewrite names_from_vals in Htab1.
  destruct (IH csp1 (next + length u))
    as (csp' & next' & Hrun' & ? & ? & ? & ? & ? & ? & Htab'); [done| | |].
  - by eapply add_all_different_constraint_tables.
  - intros u' c Hu' Hc. rewrite Hd1. apply (Hdecl u'); [by right|done].
  - exists csp', next'. simpl. rewrite Hrun. simpl. split_and!; try congruence; try done.
    intros k l. rewrite Htab', Htab1.
    destruct (decide (k ≠ l ∧ k ∈ format_cell <$> u ∧ l ∈ format_cell <$> u))
      as [(Hkl & Hk & Hl)|Hno].
    + split; [intros _|eauto]. right. split; [done|]. exists u. split; [left|done].
    + split.
      * intros [?|(Hkl & u' & Hu' & ? & ?)]; [by left|right].
        split; [done|]. exists u'. split; [by right|done].
      * intros [?|(Hkl & u' & [->|Hu']%elem_of_cons & ? & ?)]; [by left| |].
        -- by destruct Hno.
        -- right. split; [done|]. eauto.
Qed.


Lemma add_units_app (us1 us2 : list (list (nat * nat))) csp next :
  add_units (us1 ++ us2) csp next =
  ('(csp', next') ← add_units us1 csp next; add_units us2 csp' next').
Proof.
  revert csp next. induction us1 as [|u us1 IH]; intros csp next; simpl; [done|].
  destruct (add_all_different_constraint csp (names_from next u)); simpl; [|done..].
  apply IH.
Qed.

(** *** [create_sudoku_csp] *)

Lemma units_in_cells u c : u ∈ rows ++ columns ++ boxes → c ∈ u → c ∈ cells.
Proof.
  assert (forallb (fun u => forallb (fun c => bool_decide (c ∈ cells)) u)
                  (rows ++ columns ++ boxes) = true) as H by (by vm_compute).
  rewrite forallb_forall in H. intros Hu%list_elem_of_In Hc%list_elem_of_In.
  specialize (H _ Hu). rewrite forallb_forall in H.
  specialize (H _ Hc). by apply bool_decide_eq_true in H.
Qed.

Lemma add_units_three board (todo : list (nat * nat))
    (us1 us2 us3 : list (list (nat * nat))) csp next :
  ('(csp, next) ← add_cells board todo csp next;
   '(csp, next) ← add_units us1 csp next;
   '(csp, next) ← add_units us2 csp next;
   '(csp, next) ← add_units us3 csp next;
   Returns csp) =
  ('(csp, next) ← add_cells board todo csp next;
   '(csp, _) ← add_units (us1 ++ us2 ++ us3) csp next; Returns csp).
Proof.
  destruct (add_cells board todo csp next) as [[csp0 next0]| |]; simpl; [|done..].
  rewrite add_units_app.
  destruct (add_units us1 csp0 next0) as [[csp1 next1]| |]; simpl; [|done..].
  rewrite add_units_app.
  destruct (add_units us2 csp1 next1) as [[csp2 next2]| |]; simpl; [|done..].
  done.
Qed.

Lemma create_sudoku_csp_units lines :
  create_sudoku_csp lines =
  ('(csp, next) ← add_cells (map strip lines) cells CSP_init 0;
   '(csp, _) ← add_units (rows ++ columns ++ boxes) csp next;
   Returns csp).
Proof. apply add_units_three. Qed.

Lemma create_sudoku_csp_built lines :
  well_shaped lines = true →
  ∃ csp, create_sudoku_csp lines = Returns csp ∧
    well_built csp ∧ all_different_tables csp ∧ no_wipeout (domains csp) = true ∧
    (∀ c, c ∈ cells →
       dict_lookup (domains csp) (format_cell c) =
         Some (candidates (given (map strip lines) c))) ∧
    (∀ k, k ∉ format_cell <$> cells → dict_lookup (domains csp) k = None) ∧
    name_val <$> variables csp = format_cell <$> cells ∧
    backtracking_call_counter csp = 0 ∧ backtracking_fail_counter csp = 0 ∧
    ∀ k l, is_Some (table csp k l) ↔
      k ≠ l ∧ ∃ u, u ∈ rows ++ columns ++ boxes ∧
                   k ∈ format_cell <$> u ∧ l ∈ format_cell <$> u.
Proof.
  intros Hws. rewrite create_sudoku_csp_units.
  destruct (add_cells_spec (map strip lines) cells CSP_init 0)
    as (csp0 & n0 & Hrun0 & Hwb0 & Htab0 & Hnw0 & Hcells & Hother & Hvars & Hcc & Hfc);
    [apply format_cell_NoDup|done|by intros; apply well_shaped_true
    |apply CSP_init_well_built|done|done|].
  rewrite Hrun0. unfold mbind at 1, outcome_bind at 1. cbv beta iota.
  destruct (add_units_spec (rows ++ columns ++ boxes) csp0 n0 Hwb0)
    as (csp & n & Hrun & Hv & Hd & Hc & Hf & Hwb & Hall & Htab).
  { intros k l ckl. by rewrite Htab0. }
  { intros u c Hu Hc. rewrite Hcells; [eauto|]. by eapply units_in_cells. }
  rewrite Hrun. exists csp. split_and!; try done.
  - by rewrite Hd.
  - intros c Hc'. rewrite Hd. by apply Hcells.
  - intros k Hk. rewrite Hd, Hother by done. done.
  - by rewrite Hv, Hvars.
  - by rewrite Hc, Hcc.
  - by rewrite Hf, Hfc.
  - intros k l. rewrite Htab, Htab0. split; [|by right].
    intros [[? ?]|?]; done.
Qed.


(** [create_sudoku_csp] raises [IndexError], and nothing else, exactly when
    the file has fewer than nine lines or one of the first nine is shorter
    than nine characters once stripped. *)
Theorem create_sudoku_csp_outcome lines :
  match create_sudoku_csp lines with
  | Returns _ => well_shaped lines = true
  | Raises e => e = IndexError ∧ well_shaped lines = false
  | Cut => False
  end.
Proof.
  destruct (well_shaped lines) eqn:Hws.
  - by destruct (create_sudoku_csp_built lines Hws) as (csp & -> & _).
  - destruct (well_shaped_false lines Hws) as (c & Hc & Hget).
    by rewrite create_sudoku_csp_units, (add_cells_IndexError _ _ _ _ c Hc Hget).
Qed.

Lemma format_cell_inj p q : p ∈ cells → q ∈ cells → format_cell p = format_cell q → p = q.
Proof.
  intros [i Hi]%list_elem_of_lookup [j Hj]%list_elem_of_lookup E.
  assert (i = j) as ->; [|congruence].
  apply (NoDup_lookup (format_cell <$> cells) i j (format_cell p)).
  - apply format_cell_NoDup.
  - by rewrite list_lookup_fmap, Hi.
  - by rewrite list_lookup_fmap, Hj, E.
Qed.

Lemma elem_of_unit_vals u p :
  u ∈ rows ++ columns ++ boxes → p ∈ cells → format_cell p ∈ format_cell <$> u ↔ p ∈ u.
Proof.
  intros Hu Hp. split.
  - intros (p' & E & Hp')%list_elem_of_fmap.
    by rewrite (format_cell_inj p p' Hp (units_in_cells u p' Hu Hp') E).
  - intros Hin. apply list_elem_of_fmap. eauto.
Qed.

Lemma peers_units p q :
  p ∈ cells → q ∈ cells →
  (format_cell p ≠ format_cell q ∧
   ∃ u, u ∈ rows ++ columns ++ boxes ∧
        format_cell p ∈ format_cell <$> u ∧ format_cell q ∈ format_cell <$> u) ↔
  peers p q = true.
Proof.
  assert (forallb (fun p => forallb (fun q =>
            Bool.eqb
              (bool_decide (p ≠ q) &&
               existsb (fun u => bool_decide (p ∈ u) && bool_decide (q ∈ u))
                       (rows ++ columns ++ boxes))
              (peers p q)) cells) cells = true) as H by (by vm_compute).
  rewrite forallb_forall in H. intros Hp Hq.
  pose proof Hp as Hp'%list_elem_of_In. pose proof Hq as Hq'%list_elem_of_In.
  specialize (H _ Hp'). rewrite forallb_forall in H. specialize (H _ Hq').
  apply Bool.eqb_prop in H. rewrite <- H, andb_true_iff, bool_decide_eq_true, existsb_exists.
  split.
  - intros [Hne (u & Hu & Hpu & Hqu)]. split; [congruence|]. exists u.
    rewrite <- list_elem_of_In, andb_true_iff, !bool_decide_eq_true.
    split; [done|]. split; by apply (elem_of_unit_vals u).
  - intros [Hne (u & Hu%list_elem_of_In & [Hpu Hqu]%andb_true_iff)].
    apply bool_decide_eq_true in Hpu, Hqu. split.
    + intros E. apply Hne. by apply format_cell_inj.
    + exists u. split; [done|]. split; by apply (elem_of_unit_vals u).
Qed.

(** On a well-shaped file [create_sudoku_csp] returns a network that the
    search can be run on: the 81 cells are its variables, a cell has all
    digits as its domain when the board has ['0'] there and the character of
    the board otherwise, and two cells have an arc, with the pairs of
    different values of their domains, exactly when they are peers. *)
Theorem create_sudoku_csp_spec lines :
  well_shaped lines = true →
  ∃ csp, create_sudoku_csp lines = Returns csp ∧
    well_built csp ∧ no_wipeout (domains csp) = true ∧
    name_val <$> variables csp = format_cell <$> cells ∧
    backtracking_call_counter csp = 0 ∧ backtracking_fail_counter csp = 0 ∧
    (∀ k, is_Some (dict_lookup (domains csp) k) ↔ k ∈ format_cell <$> cells) ∧
    (∀ p, p ∈ cells →
       dict_lookup (domains csp) (format_cell p) =
         Some (candidates (given (map strip lines) p))) ∧
    (∀ k l, is_Some (table csp k l) →
       k ∈ format_cell <$> cells ∧ l ∈ format_cell <$> cells) ∧
    (∀ p q, p ∈ cells → q ∈ cells →
       table csp (format_cell p) (format_cell q) =
         if peers p q
         then Some (List.filter different
                      (get_all_possible_pairs (candidates (given (map strip lines) p))
                                              (candidates (given (map strip lines) q))))
         else None).
Proof.
  intros Hws.
  destruct (create_sudoku_csp_built lines Hws)
    as (csp & Hrun & Hwb & Hall & Hnw & Hcells & Hother & Hvars & Hcc & Hfc & Htab).
  exists csp. split_and!; try done.
  - intros k. split.
    + intros Hk. destruct (decide (k ∈ format_cell <$> cells)) as [|Hno]; [done|].
      rewrite (Hother _ Hno) in Hk. by destruct Hk.
    + intros (c & -> & Hc)%list_elem_of_fmap. rewrite Hcells; eauto.
  - intros k l (_ & u & Hu & Hk & Hl)%Htab.
    apply list_elem_of_fmap in Hk as (p & -> & Hp), Hl as (q & -> & Hq).
    split; apply list_elem_of_fmap; eexists; (split; [done|]); by eapply units_in_cells.
  - intros p q Hp Hq. pose proof (peers_units p q Hp Hq) as Hpeers.
    destruct (table csp (format_cell p) (format_cell q)) as [ckl|] eqn:Ht.
    + assert (peers p q = true) as -> by (apply Hpeers, Htab; rewrite Ht; eauto).
      rewrite (Hall _ _ _ Ht). unfold domain_of. by rewrite !Hcells.
    + destruct (peers p q); [|done].
      assert (is_Some (table csp (format_cell p) (format_cell q))) as [? ?]
        by (by apply Htab, Hpeers). congruence.
Qed.


(** *** The search on a Sudoku network *)

Lemma mapping_of_keys (g : nat * nat → string) (l : list (nat * nat)) :
  name_val <$> keys ((fun cell => (Name (format_cell cell) 0, [g cell])) <$> l) =
  format_cell <$> l.
Proof. unfold keys. induction l as [|c l IH]; simpl; [done|]. by f_equal. Qed.

Lemma mapping_of_lookup (g : nat * nat → string) c :
  c ∈ cells → dict_lookup (mapping_of g) (format_cell c) = Some [g c].
Proof.
  intros Hc. apply (dict_wf_lookup (mapping_of g) (Name (format_cell c) 0)).
  - unfold dict_wf, mapping_of. rewrite mapping_of_keys. apply format_cell_NoDup.
  - unfold mapping_of. apply list_elem_of_fmap. eauto.
Qed.

Lemma mapping_of_lookup_inv (g : nat * nat → string) k d :
  dict_lookup (mapping_of g) k = Some d → ∃ c, c ∈ cells ∧ k = format_cell c ∧ d = [g c].
Proof.
  intros (n & Hin & <-)%dict_lookup_Some_elem. unfold mapping_of in Hin.
  apply list_elem_of_fmap in Hin as (c & [= -> ->] & Hc). eauto.
Qed.

Lemma allowed_peers lines csp p q x y :
  (∀ c, c ∈ cells → dict_lookup (domains csp) (format_cell c) =
                      Some (candidates (given (map strip lines) c))) →
  all_different_tables csp →
  p ∈ cells → q ∈ cells → is_Some (table csp (format_cell p) (format_cell q)) →
  (x, y) ∈ allowed csp (format_cell p) (format_cell q) ↔
  x ∈ candidates (given (map strip lines) p) ∧
  y ∈ candidates (given (map strip lines) q) ∧ x ≠ y.
Proof.
  intros Hcells Hall Hp Hq [ckl Ht]. unfold allowed. rewrite Ht. simpl.
  rewrite (Hall _ _ _ Ht). unfold domain_of, get_all_possible_pairs.
  rewrite !Hcells by done. simpl.
  rewrite !list_elem_of_In, filter_In, in_prod_iff. unfold different. simpl.
  rewrite bool_decide_eq_true. tauto.
Qed.

Lemma sudoku_search_run lines :
  well_shaped lines = true →
  ∃ csp csp' r,
    create_sudoku_csp lines = Returns csp ∧ backtracking_search csp = Ret (csp', r) ∧
    ∀ g, completes (map strip lines) g →
      ∃ sol, r = Some sol ∧
        (∀ p, p ∈ cells → ∃ x, dict_lookup sol (format_cell p) = Some [x]) ∧
        completes (map strip lines) (grid_of sol).
Proof.
  intros Hws.
  destruct (create_sudoku_csp_built lines Hws)
    as (csp & Hrun & Hwb & Hall & Hnw & Hcells & Hother & _ & _ & _ & Htab).
  destruct (backtracking_search_Ret csp) as (csp' & r & Hbs); [apply Hwb..|].
  assert (∀ g, completes (map strip lines) g →
       ∃ sol, r = Some sol ∧
         (∀ p, p ∈ cells → ∃ x, dict_lookup sol (format_cell p) = Some [x]) ∧
         completes (map strip lines) (grid_of sol)) as Hfinds.
  { intros g [Hgiven Hdiff].
    destruct (backtracking_search_finds csp (mapping_of g) Hwb Hnw)
      as (csp'' & sol & Hbs' & Hw & Hr).
    - intros k d Hk.
      destruct (decide (k ∈ format_cell <$> cells)) as [(c & -> & Hc)%list_elem_of_fmap|Hno].
      2:{ by rewrite (Hother _ Hno) in Hk. }
      rewrite (Hcells _ Hc) in Hk. injection Hk as <-.
      exists (g c). split; [by apply mapping_of_lookup|by apply Hgiven].
    - intros k l x y Ht (p & Hp & -> & [= ->])%mapping_of_lookup_inv
                        (q & Hq & -> & [= ->])%mapping_of_lookup_inv.
      apply (allowed_peers lines); try done. split_and!; [by apply Hgiven..|].
      apply Hdiff; [done..|]. by apply peers_units, Htab.
    - rewrite Hbs in Hbs'. injection Hbs' as -> ->. exists sol. split; [done|].
      assert (∀ p, p ∈ cells → ∃ x, dict_lookup sol (format_cell p) = Some [x] ∧
                                    x ∈ candidates (given (map strip lines) p)) as Hone.
      { intros p Hp. apply Hw. by apply Hcells. }
      split; [intros p Hp; destruct (Hone p Hp) as (x & ? & _); eauto|]. split.
      + intros p Hp. destruct (Hone p Hp) as (x & Hx & Hin). unfold grid_of. by rewrite Hx.
      + intros p q Hp Hq Hpeers.
        destruct (Hone p Hp) as (x & Hx & _), (Hone q Hq) as (y & Hy & _).
        unfold grid_of. rewrite Hx, Hy.
        assert (is_Some (table csp (format_cell p) (format_cell q))) as Ht
          by (by apply Htab, peers_units).
        by apply (allowed_peers lines csp p q x y Hcells Hall Hp Hq Ht), Hr. }
  by exists csp, csp', r.
Qed.

(** On a well-shaped file, [backtracking_search] on the network of
    [create_sudoku_csp] raises no exception.  When the board has a
    completion, it returns a mapping with one value per cell, and these
    values are a completion of the board; so when it returns [False] the
    board has none. *)
Theorem sudoku_search lines :
  well_shaped lines = true →
  ∃ csp csp' r,
    create_sudoku_csp lines = Returns csp ∧ backtracking_search csp = Ret (csp', r) ∧
    (∀ g, completes (map strip lines) g →
       ∃ sol, r = Some sol ∧
         (∀ p, p ∈ cells → ∃ x, dict_lookup sol (format_cell p) = Some [x]) ∧
         completes (map strip lines) (grid_of sol)) ∧
    (r = None → ∀ g, ¬ completes (map strip lines) g).
Proof.
  intros Hws. destruct (sudoku_search_run lines Hws) as (csp & csp' & r & ? & ? & Hfinds).
  exists csp, csp', r. split_and!; [done..|].
  intros -> g Hg. by destruct (Hfinds g Hg) as (sol & ? & _).
Qed.

(** A grid completes a board when the two checks over the cells pass. *)
Lemma completes_check board (g : nat * nat → string) :
  forallb (fun p => bool_decide (g p ∈ candidates (given board p))) cells = true →
  forallb (fun p =>
    forallb (fun q => implb (peers p q) (bool_decide (g p ≠ g q))) cells) cells = true →
  completes board g.
Proof.
  rewrite !forallb_forall. intros Hc Hp. split.
  - intros p Hin%list_elem_of_In. specialize (Hc p Hin).
    by apply bool_decide_eq_true in Hc.
  - intros p q Hin%list_elem_of_In Hiq%list_elem_of_In Hpq.
    specialize (Hp p Hin). rewrite forallb_forall in Hp. specialize (Hp q Hiq).
    rewrite Hpq in Hp. by apply bool_decide_eq_true in Hp.
Qed.

(** The board of [puzzle] has a completion: the grid of [puzzle_solution]. *)
Lemma puzzle_completes : completes (map strip puzzle) (given puzzle_solution).
Proof. apply completes_check; by vm_compute. Qed.

(** The board of [puzzle] has a completion, so the search on its network
    returns a mapping with one value per cell that completes the board. *)
Lemma sudoku_search_puzzle :
  completes (map strip puzzle) (given puzzle_solution) ∧
  ∃ csp csp' sol,
    create_sudoku_csp puzzle = Returns csp ∧
    backtracking_search csp = Ret (csp', Some sol) ∧
    (∀ p, p ∈ cells → ∃ x, dict_lookup sol (format_cell p) = Some [x]) ∧
    completes (map strip puzzle) (grid_of sol).
Proof.
  split; [exact puzzle_completes|].
  destruct (sudoku_search puzzle ltac:(by vm_compute))
    as (csp & csp' & r & Hcsp & Hrun & Hfinds & _).
  destruct (Hfinds _ puzzle_completes) as (sol & -> & Hone & Hsol).
  exists csp, csp', sol.
  split; [exact Hcsp|]. split; [exact Hrun|]. split; [exact Hone|exact Hsol].
Defined.


(** *** [print_sudoku_solution] *)

Lemma print_row_outcome solution row (cols : list nat) o :
  match print_row solution row cols o with
  | (_, Returns _) =>
      cols = [] ∨
      ∃ sol, solution = Some sol ∧
        ∀ col, col ∈ cols → ∃ x xs, dict_lookup sol (format_cell (row, col)) = Some (x :: xs)
  | (o', Raises e) =>
      cols ≠ [] ∧
      ((solution = None ∧ e = TypeError ∧ o' = o) ∨
       ∃ sol col, solution = Some sol ∧ col ∈ cols ∧
         ((dict_lookup sol (format_cell (row, col)) = None ∧ e = Engine KeyError) ∨
          (dict_lookup sol (format_cell (row, col)) = Some [] ∧ e = IndexError)))
  | (_, Cut) => False
  end.
Proof.
  revert o. induction cols as [|col cols IH]; intros o; simpl; [by left|].
  destruct solution as [sol|]; [|split; [done|by left]].
  destruct (dict_lookup sol (format_cell (row, col))) as [[|x xs]|] eqn:Hx.
  - split; [done|right]. exists sol, col. split_and!; [done|left|by right].
  - match goal with |- context [print_row _ _ _ ?o1] => specialize (IH o1) end.
    destruct (print_row (Some sol) row cols _) as [o' [[]|e|]]; [| |done].
    + right. exists sol. split; [done|]. intros c [->|Hc]%elem_of_cons; [eauto|].
      destruct IH as [->|(sol' & [= <-] & H)]; [by apply elem_of_nil in Hc|by apply H].
    + split; [done|]. destruct IH as [_ [(? & _)|(sol' & c & [= <-] & Hc & H)]]; [done|].
      right. exists sol, c. split_and!; [done|by right|done].
  - split; [done|right]. exists sol, col. split_and!; [done|left|by left].
Qed.

Lemma print_rows_outcome solution (todo : list nat) o :
  match print_rows solution todo o with
  | (_, Returns _) =>
      todo = [] ∨
      ∃ sol, solution = Some sol ∧
        ∀ row col, row ∈ todo → col ∈ seq 0 9 →
          ∃ x xs, dict_lookup sol (format_cell (row, col)) = Some (x :: xs)
  | (o', Raises e) =>
      (solution = None ∧ e = TypeError ∧ o' = o) ∨
      ∃ sol row col, solution = Some sol ∧ row ∈ todo ∧ col ∈ seq 0 9 ∧
        ((dict_lookup sol (format_cell (row, col)) = None ∧ e = Engine KeyError) ∨
         (dict_lookup sol (format_cell (row, col)) = Some [] ∧ e = IndexError))
  | (_, Cut) => False
  end.
Proof.
  revert o. induction todo as [|row todo IH]; intros o; [by left|].
  cbn [print_rows]. pose proof (print_row_outcome solution row (seq 0 9) o) as Hrow.
  destruct (print_row solution row (seq 0 9) o) as [o1 [[]|e|]]; [| |done].
  - destruct Hrow as [?|(sol & -> & Hrow)]; [done|].
    match goal with |- context [print_rows _ _ ?o2] => specialize (IH o2) end.
    destruct (print_rows (Some sol) todo _) as [o' [[]|e|]]; [| |done].
    + right. exists sol. split; [done|]. intros r c [->|Hr]%elem_of_cons Hc; [by apply Hrow|].
      destruct IH as [->|(sol' & [= <-] & H)]; [by apply elem_of_nil in Hr|by apply H].
    + destruct IH as [(? & _)|(sol' & r & c & [= <-] & Hr & Hc & H)]; [done|].
      right. exists sol, r, c. split_and!; [done|by right|done..].
  - destruct Hrow as [_ [?|(sol & c & -> & Hc & H)]]; [by left|].
    right. exists sol, row, c. split_and!; [done|left|done..].
Qed.

Lemma elem_of_cells_seq row col : row ∈ seq 0 9 → col ∈ seq 0 9 → (row, col) ∈ cells.
Proof. rewrite elem_of_cells, !list_elem_of_In, !in_seq. simpl. lia. Qed.

(** [print_sudoku_solution] returns exactly on a mapping in which each of
    the 81 cells has a first value.  On [False], the failure result of the
    search, it raises [TypeError] before it has printed anything; on a
    mapping it raises [KeyError] at a cell that is missing and [IndexError]
    at a cell that has no value. *)
Theorem print_sudoku_solution_outcome solution o :
  match print_sudoku_solution solution o with
  | (_, Returns _) =>
      ∃ sol, solution = Some sol ∧
        ∀ p, p ∈ cells → ∃ x xs, dict_lookup sol (format_cell p) = Some (x :: xs)
  | (o', Raises e) =>
      (solution = None ∧ e = TypeError ∧ o' = o) ∨
      ∃ sol p, solution = Some sol ∧ p ∈ cells ∧
        ((dict_lookup sol (format_cell p) = None ∧ e = Engine KeyError) ∨
         (dict_lookup sol (format_cell p) = Some [] ∧ e = IndexError))
  | (_, Cut) => False
  end.
Proof.
  unfold print_sudoku_solution.
  pose proof (print_rows_outcome solution (seq 0 9) o) as H.
  destruct (print_rows solution (seq 0 9) o) as [o' [[]|e|]]; [| |done].
  - destruct H as [?|(sol & -> & H)]; [done|]. exists sol. split; [done|].
    intros [row col] [? ?]%elem_of_cells. apply H; apply list_elem_of_In, in_seq; simpl in *; lia.
  - destruct H as [?|(sol & row & col & -> & Hr & Hc & H)]; [by left|right].
    exists sol, (row, col). split_and!; [done|by apply elem_of_cells_seq|done].
Qed.


(** *** The layout of the output *)

Lemma string_app_assoc (s1 s2 s3 : string) : (s1 +:+ s2) +:+ s3 = s1 +:+ s2 +:+ s3.
Proof.
  induction s1 as [|ch s1 IH]; [done|].
  change (String ch ((s1 +:+ s2) +:+ s3) = String ch (s1 +:+ s2 +:+ s3)). by f_equal.
Qed.

Lemma string_app_nil_r (s : string) : s +:+ "" = s.
Proof.
  induction s as [|ch s IH]; [done|]. change (String ch (s +:+ "") = String ch s). by f_equal.
Qed.

Lemma print_item_text (s : string) o :
  sets_softspace s = true →
  print_item s o =
    mkStdout (written o +:+ (if softspace o then " " +:+ s else s)) true.
Proof.
  intros Hs. unfold print_item. rewrite Hs. f_equal.
  destruct (softspace o); [apply string_app_assoc|done].
Qed.

Lemma print_row_cons sol row col (cols : list nat) o (x : string) xs :
  dict_lookup sol (format_cell (row, col)) = Some (x :: xs) →
  print_row (Some sol) row (col :: cols) o =
    print_row (Some sol) row cols
      (if bool_decide (col = 2 ∨ col = 5) then print_item "|" (print_item x o)
       else print_item x o).
Proof. intros H. cbn [print_row]. by rewrite H. Qed.

Lemma print_row_layout sol row o (g : nat * nat → string) :
  softspace o = false →
  (∀ col, col < 9 →
     ∃ xs, dict_lookup sol (format_cell (row, col)) = Some (g (row, col) :: xs) ∧
           sets_softspace (g (row, col)) = true) →
  print_row (Some sol) row (seq 0 9) o =
    (mkStdout (written o +:+ row_line g row) true, Returns ()).
Proof.
  intros Hs Hrow. destruct o as [w s]. simpl in Hs. subst s.
  assert (∀ col cols o1, col < 9 →
            print_row (Some sol) row (col :: cols) o1 =
              print_row (Some sol) row cols
                (mkStdout
                   (written o1 +:+ (if softspace o1 then " " +:+ g (row, col) else g (row, col))
                      +:+ (if bool_decide (col = 2 ∨ col = 5) then " |" else ""))
                   true)) as Hstep.
  { intros col cols o1 Hcol. destruct (Hrow col Hcol) as (xs & Hx & Sx).
    rewrite (print_row_cons _ _ _ _ _ _ _ Hx), (print_item_text _ _ Sx).
    destruct (bool_decide (col = 2 ∨ col = 5)).
    - rewrite print_item_text by done. cbn [written softspace].
      by rewrite !string_app_assoc.
    - by rewrite string_app_nil_r. }
  cbn [seq]. do 9 (rewrite Hstep by lia; cbn [written softspace]).
  cbn [print_row]. f_equal. f_equal.
  repeat first [rewrite bool_decide_eq_false_2 by lia | rewrite bool_decide_eq_true_2 by lia].
  unfold row_line. cbn [String.concat]. rewrite !string_app_assoc, string_app_nil_r.
  reflexivity.
Qed.

Lemma print_layout sol o :
  softspace o = false →
  (∀ p, p ∈ cells → ∃ x xs, dict_lookup sol (format_cell p) = Some (x :: xs) ∧
                            sets_softspace x = true) →
  print_sudoku_solution (Some sol) o =
    (mkStdout (written o +:+ render (grid_of sol)) false, Returns ()).
Proof.
  intros Hs Hcells.
  assert (∀ row o1, row < 9 → softspace o1 = false →
            print_row (Some sol) row (seq 0 9) o1 =
              (mkStdout (written o1 +:+ row_line (grid_of sol) row) true, Returns ()))
    as Hrow.
  { intros row o1 Hr Ho1. apply print_row_layout; [done|]. intros col Hcol.
    destruct (Hcells (row, col)) as (x & xs & Hx & Sx); [apply elem_of_cells; simpl; lia|].
    exists xs. unfold grid_of. by rewrite Hx. }
  assert (∀ row (todo : list nat) o1, row < 9 → softspace o1 = false →
            print_rows (Some sol) (row :: todo) o1 =
              print_rows (Some sol) todo
                (mkStdout
                   (written o1 +:+ row_line (grid_of sol) row +:+ newline +:+
                      (if bool_decide (row = 2 ∨ row = 5) then rule +:+ newline else ""))
                   false)) as Hstep.
  { intros row todo o1 Hr Ho1. cbn [print_rows]. rewrite (Hrow row o1 Hr Ho1).
    cbv beta iota. f_equal. destruct (bool_decide (row = 2 ∨ row = 5)).
    - unfold print_newline, print_item. cbn [written softspace]. f_equal.
      by rewrite !string_app_assoc.
    - unfold print_newline. cbn [written]. f_equal.
      by rewrite !string_app_assoc, string_app_nil_r. }
  unfold print_sudoku_solution. cbn [seq].
  do 9 (rewrite Hstep by (first [lia|done]); cbn [written softspace]).
  cbn [print_rows]. f_equal. f_equal.
  repeat first [rewrite bool_decide_eq_false_2 by lia | rewrite bool_decide_eq_true_2 by lia].
  unfold render. cbn [fmap list_fmap String.concat].
  rewrite !string_app_assoc, string_app_nil_r. reflexivity.
Qed.

(** On a mapping in which each cell has a first value, none of them ending
    with a tab or another control character that [print] takes for the
    start of a line, [print_sudoku_solution] prints the eleven lines of the
    grid of these values and returns. *)
Theorem print_sudoku_solution_layout sol o :
  softspace o = false →
  (∀ p, p ∈ cells → ∃ x xs, dict_lookup sol (format_cell p) = Some (x :: xs) ∧
                            sets_softspace x = true) →
  print_sudoku_solution (Some sol) o =
    (mkStdout (written o +:+ render (grid_of sol)) false, Returns ()).
Proof. apply print_layout. Qed.

Lemma candidates_softspace (ch x : string) :
  sets_softspace ch = true → x ∈ candidates ch → sets_softspace x = true.
Proof.
  intros Hch. unfold candidates. destruct (decide (ch = "0")).
  - assert (forallb sets_softspace digits = true) as H by (by vm_compute).
    rewrite forallb_forall in H. intros Hx%list_elem_of_In. by apply H.
  - by intros ->%list_elem_of_singleton.
Qed.

(** From the file to the output.  On a well-shaped file whose board has no
    tab or other control character, on a fresh line of the output: when
    the board has a completion, the search returns a mapping and
    [print_sudoku_solution] prints the eleven lines of a completion of the
    board; when the search returns [False], [print_sudoku_solution] raises
    [TypeError] and prints nothing. *)
Theorem sudoku_pipeline lines o :
  well_shaped lines = true → softspace o = false →
  forallb (fun p => sets_softspace (given (map strip lines) p)) cells = true →
  ∃ csp csp' r,
    create_sudoku_csp lines = Returns csp ∧ backtracking_search csp = Ret (csp', r) ∧
    (∀ g, completes (map strip lines) g →
       ∃ sol, r = Some sol ∧ completes (map strip lines) (grid_of sol) ∧
         print_sudoku_solution r o =
           (mkStdout (written o +:+ render (grid_of sol)) false, Returns ())) ∧
    (r = None → print_sudoku_solution r o = (o, Raises TypeError)).
Proof.
  intros Hws Hs Hprint. rewrite forallb_forall in Hprint.
  destruct (sudoku_search_run lines Hws) as (csp & csp' & r & Hc & Hbs & Hfinds).
  exists csp, csp', r. split_and!; [done..| |by intros ->].
  intros g Hg. destruct (Hfinds g Hg) as (sol & -> & Hone & Hcomp).
  exists sol. split_and!; [done..|]. apply print_layout; [done|].
  intros p Hp. destruct (Hone p Hp) as (x & Hx). exists x, []. split; [done|].
  apply (candidates_softspace (given (map strip lines) p)).
  - by apply Hprint, list_elem_of_In.
  - destruct Hcomp as [Hgiven _]. specialize (Hgiven p Hp). unfold grid_of in Hgiven.
    by rewrite Hx in Hgiven.
Qed.


Lemma add_cells_board board1 board2 (todo : list (nat * nat)) csp next :
  (∀ c, c ∈ todo → board_get board1 c.1 c.2 = board_get board2 c.1 c.2) →
  add_cells board1 todo csp next = add_cells board2 todo csp next.
Proof.
  revert csp next. induction todo as [|[row col] todo IH]; intros csp next H; simpl; [done|].
  pose proof (H (row, col) ltac:(left)) as E. simpl in E. rewrite E.
  destruct (board_get board2 row col); simpl; [|done..]. apply IH. intros c Hc. apply H. by right.
Qed.

(** [create_sudoku_csp] reads the first nine characters of the first nine
    stripped lines and nothing else: two files that agree there give the
    same network, or the same exception. *)
Theorem create_sudoku_csp_reads lines1 lines2 :
  (∀ p, p ∈ cells → board_get (map strip lines1) p.1 p.2 =
                    board_get (map strip lines2) p.1 p.2) →
  create_sudoku_csp lines1 = create_sudoku_csp lines2.
Proof.
  intros H. unfold create_sudoku_csp. by rewrite (add_cells_board _ _ _ _ _ H).
Qed.

(** *** On the file [puzzle] *)

(** Blanks around a line, characters after the ninth and lines after the
    ninth are not read. *)
Lemma create_sudoku_csp_reads_puzzle :
  create_sudoku_csp
    (((fun line => "  " +:+ line +:+ "#") <$> puzzle) ++ ["the end"]) =
  create_sudoku_csp puzzle.
Proof.
  apply create_sudoku_csp_reads. intros p Hp%list_elem_of_In.
  assert (forallb (fun p =>
            bool_decide
              (board_get (map strip (((fun line => "  " +:+ line +:+ "#") <$> puzzle)
                                       ++ ["the end"])) p.1 p.2 =
               board_get (map strip puzzle) p.1 p.2)) cells = true) as H by (by vm_compute).
  rewrite forallb_forall in H. specialize (H _ Hp). by apply bool_decide_eq_true in H.
Defined.


Lemma create_sudoku_csp_spec_puzzle :
  ∃ csp, create_sudoku_csp puzzle = Returns csp ∧ well_built csp ∧
    no_wipeout (domains csp) = true ∧
    dict_lookup (domains csp) "0-2" = Some ["3"] ∧
    dict_lookup (domains csp) "0-0" = Some digits ∧
    table csp "0-0" "0-2" =
      Some [("1", "3"); ("2", "3"); ("4", "3"); ("5", "3"); ("6", "3"); ("7", "3");
            ("8", "3"); ("9", "3")] ∧
    table csp "0-0" "4-4" = None.
Proof.
  destruct (create_sudoku_csp_spec puzzle)
    as (csp & Hrun & Hwb & Hnw & _ & _ & _ & _ & Hcells & _ & Htab); [by vm_compute|].
  assert (∀ p, p.1 < 9 → p.2 < 9 → p ∈ cells) as Hin.
  { intros p H1 H2. apply (proj2 (elem_of_cells p)). by split. }
  exists csp. split_and!; [done..| | | |].
  - change "0-2" with (format_cell (0, 2)). rewrite Hcells by (apply Hin; simpl; lia).
    by vm_compute.
  - change "0-0" with (format_cell (0, 0)). rewrite Hcells by (apply Hin; simpl; lia).
    by vm_compute.
  - change "0-0" with (format_cell (0, 0)). change "0-2" with (format_cell (0, 2)).
    rewrite Htab by (apply Hin; simpl; lia). by vm_compute.
  - change "0-0" with (format_cell (0, 0)). change "4-4" with (format_cell (4, 4)).
    rewrite Htab by (apply Hin; simpl; lia). by vm_compute.
Defined.

Lemma print_sudoku_solution_layout_ones :
  print_sudoku_solution (Some (mapping_of (fun _ => "1"))) (mkStdout "" false) =
    (mkStdout ("" +:+ render (grid_of (mapping_of (fun _ => "1")))) false, Returns ()).
Proof.
  apply print_sudoku_solution_layout; [done|].
  intros p Hp. exists "1", []. split; [by apply mapping_of_lookup|done].
Defined.

(** The three calls of the main block on [puzzle], whose board has a
    completion: the search returns a mapping and what is printed is the
    eleven lines of a completion of the board. *)
Lemma sudoku_pipeline_puzzle :
  completes (map strip puzzle) (given puzzle_solution) ∧
  ∃ csp csp' sol,
    create_sudoku_csp puzzle = Returns csp ∧
    backtracking_search csp = Ret (csp', Some sol) ∧
    completes (map strip puzzle) (grid_of sol) ∧
    print_sudoku_solution (Some sol) (mkStdout "" false) =
      (mkStdout ("" +:+ render (grid_of sol)) false, Returns ()).
Proof.
  split; [exact puzzle_completes|].
  destruct (sudoku_pipeline puzzle (mkStdout "" false)
              ltac:(by vm_compute) ltac:(by vm_compute) ltac:(by vm_compute))
    as (csp & csp' & r & Hcsp & Hrun & Hprints & _).
  destruct (Hprints _ puzzle_completes) as (sol & -> & Hsol & Hout).
  exists csp, csp', sol.
  split; [exact Hcsp|]. split; [exact Hrun|]. split; [exact Hsol|exact Hout].
Defined.

End SudokuFacts.
